(** * State-management toolkit: hooks and contexts

    A shallow embedding of the stateful code of the React toolkit:

    - [useLocalStorage]      src/hooks/useLocalStorage.ts (in the source
                             tree it follows the page in
                             src/src/pages/StateManagementDemo.tsx)
    - [useThrottle]          src/src/hooks/useDebounce.ts
    - [useAsync]             src/src/hooks/useAsync.ts
    - [NotificationProvider] src/src/contexts/NotificationContext.tsx
    - [FormProvider]         src/contexts/FormContext.tsx (in the source
                             tree: src/unnamed/part_005)
    - [useSessionStorage]    with [useLocalStorage]
    - [useDebounce], [useDebouncedCallback]
                             src/src/hooks/useDebounce.ts
    - [useFetch]             src/src/hooks/useAsync.ts
    - [useFormField]         with [FormProvider]
    - [ThemeProvider]        src/contexts/ThemeContext.tsx (in the source
                             tree: src/unnamed/part_004)
    - [useToggle], [useBoolean], [usePaginatedData], [useLocalFilter],
      [useSimpleFormField], [useApi], [useCountdown], [useLocalCache]
                             src/src/hooks/useToggle.ts
    - [handleFetchClick] and the fetch button
                             src/src/pages/StateManagementDemo.tsx,
                             src/src/components/Button.tsx

    React state cells ([useState]) and refs ([useRef]) become record fields
    that are passed explicitly; a [setState] call becomes a function from the
    old record to the new one.  What the host gives the code (the clock, the
    random generator, the storage area, the timer queue, the outcome of a
    promise) is an explicit argument or an explicit piece of state. *)

From Stdlib Require Import Ascii.
From stdpp Require Import gmap strings list sorting pretty.

#[local] Open Scope Z_scope.

(** ** The host language: values and built-ins *)

Module JS.

(** Numbers.  [Fin z] is the double whose value is the integer [z];
    [Frac m e] is the double whose value is [m / 2^e] when that is not an
    integer ([m] is odd).  [0] and [-0] are identified (as [===] does). *)
Inductive jsnum : Type :=
  | NaN
  | PosInfinity
  | NegInfinity
  | Fin (z : Z)
  | Frac (m : Z) (e : positive).

#[export] Instance jsnum_eq_dec : EqDecision jsnum.
Proof. solve_decision. Defined.

(** An instance of [Error]: what [instanceof Error] recognises. *)
Record ErrorObj : Type := mkError { err_name : string; err_message : string }.

(** [new Error(message)] *)
Definition new_Error (message : string) : ErrorObj :=
  {| err_name := "Error"; err_message := message |}.

(** [new TypeError(message)] *)
Definition new_TypeError (message : string) : ErrorObj :=
  {| err_name := "TypeError"; err_message := message |}.

#[local] Unset Elimination Schemes.

(** Values: the data fragment of the language.  A string is kept as the
    bytes of its UTF-8 form, a surrogate that has no partner as its own
    three bytes.  [VObj] lists the own enumerable properties of a plain
    object in enumeration order.  Functions are not values of this type:
    where the code tests [value instanceof Function] the model has a
    separate constructor for the function case, and no property of a
    [VObj] is callable. *)
Inductive jsval : Type :=
  | VUndefined
  | VNull
  | VBool (b : bool)
  | VNum (n : jsnum)
  | VStr (s : string)
  | VArr (elems : list jsval)
  | VObj (props : list (string * jsval))
  | VError (e : ErrorObj).

#[local] Set Elimination Schemes.

(** [s ? _ : _] on a string: the empty string is the only falsy one. *)
Definition truthy_string (s : string) : bool :=
  match s with
  | EmptyString => false
  | String _ _ => true
  end.

Definition join (sep : string) : list string -> string :=
  fix go (l : list string) : string :=
    match l with
    | [] => EmptyString
    | [x] => x
    | x :: rest => x +:+ sep +:+ go rest
    end.

(** *** Doubles *)

(** Every integer up to [2^53] in size is a double. *)
Definition exact_limit : Z := 2 ^ 53.

(** [m / 2^k] in lowest terms: the factors 2 that [m] and [2^k] share
    are dropped. *)
Fixpoint reduce (m k : positive) : positive * N :=
  match m with
  | xO m' =>
      match k with
      | xH => (m', 0%N)
      | _ => reduce m' (Pos.pred k)
      end
  | _ => (m, Npos k)
  end.

(** The number whose size is [m * 2^e], for [m >= 0]; past the largest
    double it is an infinity. *)
Definition dyadic (negative : bool) (m e : Z) : jsnum :=
  let signed z := if negative then - z else z in
  if bool_decide (0 <= e) then
    if bool_decide (2 ^ 1024 <= m * 2 ^ e)
    then (if negative then NegInfinity else PosInfinity)
    else Fin (signed (m * 2 ^ e))
  else
    match m with
    | Zpos p =>
        match reduce p (Z.to_pos (- e)) with
        | (p', N0) => Fin (signed (Zpos p'))
        | (p', Npos k) => Frac (signed (Zpos p')) k
        end
    | _ => Fin 0
    end.

(** [a / b < 10^n] and [2^n <= a / b], for [b > 0]. *)
Definition below_pow10 (a b n : Z) : bool :=
  if bool_decide (0 <= n) then bool_decide (a < b * 10 ^ n)
  else bool_decide (a * 10 ^ (- n) < b).

Definition from_pow2 (a b n : Z) : bool :=
  if bool_decide (0 <= n) then bool_decide (b * 2 ^ n <= a)
  else bool_decide (b <= a * 2 ^ (- n)).

(** The [E] with [2^E <= a / b < 2^(E+1)], for [a, b > 0]. *)
Definition binary_exponent (a b : Z) : Z :=
  let l := Z.log2 a - Z.log2 b in
  if from_pow2 a b l then l else l - 1.

(** Rounding to the nearest integer, a tie to the even one. *)
Definition round_half_even (num den : Z) : Z :=
  let q := num / den in
  let r := num mod den in
  if bool_decide (2 * r < den) then q
  else if bool_decide (den < 2 * r) then q + 1
  else if Z.even q then q else q + 1.

(** The double nearest to [a / b] for [a, b > 0], a tie to the even one,
    as the pair [(m, e)] of its value [m * 2^e]: [m] has at most 53 bits
    and [e] is at least -1074, the exponent of the smallest double. *)
Definition nearest (a b : Z) : Z * Z :=
  let E := binary_exponent a b in
  let e := Z.max (E - 52) (-1074) in
  let m := if bool_decide (0 <= e) then round_half_even a (b * 2 ^ e)
           else round_half_even (a * 2 ^ (- e)) b in
  (m, e).

(** The Number value of the rational [a / b], [b > 0]. *)
Definition number_of_rational (a b : Z) : jsnum :=
  if bool_decide (a mod b = 0 ∧ Z.abs (a / b) <= exact_limit) then Fin (a / b)
  else
    let '(m, e) := nearest (Z.abs a) b in
    dyadic (bool_decide (a < 0)) m e.

(** Unary minus. *)
Definition negate (n : jsnum) : jsnum :=
  match n with
  | NaN => NaN
  | PosInfinity => NegInfinity
  | NegInfinity => PosInfinity
  | Fin z => Fin (- z)
  | Frac m e => Frac (- m) e
  end.

(** The Number value of the decimal [s * 10^p]. *)
Definition decimal_value (s p : Z) : jsnum :=
  if bool_decide (0 <= p) then number_of_rational (s * 10 ^ p) 1
  else number_of_rational s (10 ^ (- p)).

(** The finite doubles: an integer past [2^53] has 53 significant bits
    and lies below [2^1024]; a number with a fraction is [m / 2^e] with
    [m] odd and below [2^53] in size, down to the exponent [-1074]. *)
Definition is_double (n : jsnum) : bool :=
  match n with
  | Fin z =>
      bool_decide (Z.abs z <= exact_limit) ||
      (bool_decide (Z.abs z < 2 ^ 1024) &&
       bool_decide (Z.abs z mod 2 ^ (Z.log2 (Z.abs z) - 52) = 0))
  | Frac m e =>
      Z.odd m && bool_decide (Z.abs m < exact_limit) && bool_decide (Zpos e <= 1074)
  | _ => false
  end.

(** The value of a finite number as a fraction. *)
Definition rational_of (n : jsnum) : Z * Z :=
  match n with
  | Fin z => (z, 1)
  | Frac m e => (m, 2 ^ Zpos e)
  | _ => (0, 1)
  end.

(** *** Number::toString *)

(** The [n] with [10^(n-1) <= a / b < 10^n]. *)
Fixpoint decimal_exponent_from (fuel : nat) (a b n : Z) : Z :=
  match fuel with
  | O => n
  | S fuel' => if below_pow10 a b n then n else decimal_exponent_from fuel' a b (n + 1)
  end.

Definition decimal_exponent (a b : Z) : Z :=
  decimal_exponent_from 8 a b ((Z.log2 a - Z.log2 b - 1) * 30103 / 100000).

(** The decimal [s * 10^p] is read as the double nearest to [a / b]. *)
Definition reads_back (s p a b : Z) : bool :=
  bool_decide (decimal_value s p = number_of_rational a b).

(** The shortest decimal [s * 10^p] that is read as the double [a / b],
    [b] a power of 2: the search goes through the lengths [k] from 1 on,
    and among two decimals of one length takes the nearer one, the even
    one on a tie.  It ends at the latest with all the digits of [a / b],
    which are [a * 5^e] for [b = 2^e]. *)
Fixpoint shortest_from (fuel : nat) (k n a b : Z) : Z * Z :=
  let p := n - k in
  let lo := if bool_decide (0 <= p) then a / (b * 10 ^ p) else (a * 10 ^ (- p)) / b in
  let hi := lo + 1 in
  let lo_ok := bool_decide (0 < lo) && reads_back lo p a b in
  let hi_ok := reads_back hi p a b in
  let nearer :=
    if bool_decide (0 <= p)
    then Z.compare (2 * a) ((lo + hi) * 10 ^ p * b)
    else Z.compare (2 * a * 10 ^ (- p)) ((lo + hi) * b) in
  let pick :=
    if lo_ok && hi_ok then
      match nearer with
      | Lt => Some lo
      | Gt => Some hi
      | Eq => Some (if Z.even lo then lo else hi)
      end
    else if lo_ok then Some lo
    else if hi_ok then Some hi
    else None in
  match pick, fuel with
  | Some s, _ => (s, p)
  | None, S fuel' => shortest_from fuel' (k + 1) n a b
  | None, O => (a * 5 ^ Z.log2 b, - Z.log2 b)
  end.

Definition shortest_decimal (a b : Z) : Z * Z :=
  shortest_from 800 1 (decimal_exponent a b) a b.

Fixpoint strip_zeros (fuel : nat) (s p : Z) : Z * Z :=
  match fuel with
  | O => (s, p)
  | S fuel' =>
      if bool_decide (s ≠ 0 ∧ s mod 10 = 0) then strip_zeros fuel' (s / 10) (p + 1)
      else (s, p)
  end.

Definition zeros (n : Z) : string := String.concat EmptyString (replicate (Z.to_nat n) "0").

(** The first [n] characters of a string, and the rest. *)
Fixpoint take_chars (n : nat) (s : string) : string :=
  match n, s with
  | S n', String c r => String c (take_chars n' r)
  | _, _ => EmptyString
  end.

Fixpoint drop_chars (n : nat) (s : string) : string :=
  match n, s with
  | S n', String _ r => drop_chars n' r
  | _, _ => s
  end.

(** The text of the decimal [s * 10^p], [s > 0]: with [k] digits and
    the point after the [n]-th, it is written in full when [n] is between
    -5 and 21, and with an exponent otherwise. *)
Definition decimal_to_string (s p : Z) : string :=
  let digits := pretty s in
  let k := Z.of_nat (String.length digits) in
  let n := p + k in
  if bool_decide (k <= n <= 21) then digits +:+ zeros (n - k)
  else if bool_decide (0 < n <= 21) then
    take_chars (Z.to_nat n) digits +:+ "." +:+ drop_chars (Z.to_nat n) digits
  else if bool_decide (-6 < n <= 0) then "0." +:+ zeros (- n) +:+ digits
  else
    let e := n - 1 in
    let exponent := (if bool_decide (0 <= e) then "e+" else "e-") +:+ pretty (Z.abs e) in
    if bool_decide (k = 1) then digits +:+ exponent
    else take_chars 1 digits +:+ "." +:+ drop_chars 1 digits +:+ exponent.

(** The text of the positive double [a / b]. *)
Definition positive_to_string (a b : Z) : string :=
  let '(s0, p0) := shortest_decimal a b in
  let '(s, p) := strip_zeros 800 s0 p0 in
  decimal_to_string s p.

(** The text of the double nearest to [a / b], [b > 0]. *)
Definition rational_to_string (a b : Z) : string :=
  match number_of_rational a b with
  | NaN => "NaN"
  | PosInfinity => "Infinity"
  | NegInfinity => "-Infinity"
  | Fin 0 => "0"
  | x =>
      let '(c, d) := rational_of x in
      (if bool_decide (c < 0) then "-" else EmptyString) +:+ positive_to_string (Z.abs c) d
  end.

(** [Number.prototype.toString()] (radix 10).  An integer up to [2^53]
    in size prints as its digits; the shortest decimal of such a number is
    the number itself. *)
Definition number_to_string (n : jsnum) : string :=
  match n with
  | NaN => "NaN"
  | PosInfinity => "Infinity"
  | NegInfinity => "-Infinity"
  | Fin z => if bool_decide (Z.abs z <= exact_limit) then pretty z else rational_to_string z 1
  | Frac m e => rational_to_string m (2 ^ Zpos e)
  end.

(** [Error.prototype.toString()] *)
Definition error_to_string (e : ErrorObj) : string :=
  match err_name e, err_message e with
  | EmptyString, m => m
  | n, EmptyString => n
  | n, m => n +:+ ": " +:+ m
  end.

(** [String(v)]: the ToString conversion; [None] when it throws a
    [TypeError].  A plain object is converted by the [toString] it
    inherits; an own property [toString] hides that method and, not being
    callable, leaves the object without a primitive value.  Inside
    [Array.prototype.join] the elements [null] and [undefined] give the
    empty string. *)
Fixpoint to_String (v : jsval) : option string :=
  match v with
  | VUndefined => Some "undefined"
  | VNull => Some "null"
  | VBool true => Some "true"
  | VBool false => Some "false"
  | VNum n => Some (number_to_string n)
  | VStr s => Some s
  | VArr elems =>
      join "," <$>
        (fix go (l : list jsval) : option (list string) :=
           match l with
           | [] => Some []
           | e :: rest =>
               match match e with
                     | VUndefined | VNull => Some EmptyString
                     | _ => to_String e
                     end, go rest with
               | Some s, Some ss => Some (s :: ss)
               | _, _ => None
               end
           end) elems
  | VObj props =>
      if existsb (fun p => String.eqb (fst p) "toString") props then None
      else Some "[object Object]"
  | VError e => Some (error_to_string e)
  end.

(** The message of the [TypeError] of a failed conversion (the wording is
    the engine's; this is V8's). *)
Definition no_primitive_value : string := "Cannot convert object to primitive value".

(** *** JSON

    [JSON.stringify] and [JSON.parse] on the value fragment above.  The text
    is a [string]; [None] from [stringify] is the result [undefined], [None]
    from [parse] is a thrown [SyntaxError]. *)

Definition dquote : ascii := "034"%char.
Definition backslash : ascii := "092"%char.

Definition hex_digit (n : N) : ascii :=
  match n with
  | 0 => "0" | 1 => "1" | 2 => "2" | 3 => "3" | 4 => "4" | 5 => "5"
  | 6 => "6" | 7 => "7" | 8 => "8" | 9 => "9" | 10 => "a" | 11 => "b"
  | 12 => "c" | 13 => "d" | 14 => "e" | _ => "f"
  end%char%N.

(** QuoteJSONString, one code unit below 128. *)
Definition escape_char (c : ascii) : string :=
  let n := N_of_ascii c in
  if (n =? 34)%N then String backslash (String dquote EmptyString)
  else if (n =? 92)%N then String backslash (String backslash EmptyString)
  else if (n =? 8)%N then String backslash "b"
  else if (n =? 9)%N then String backslash "t"
  else if (n =? 10)%N then String backslash "n"
  else if (n =? 12)%N then String backslash "f"
  else if (n =? 13)%N then String backslash "r"
  else if (n <? 32)%N then
    String backslash
      (String "u" (String "0" (String "0"
         (String (hex_digit (n / 16)) (String (hex_digit (n mod 16)) EmptyString)))))
  else String c EmptyString.

(** The surrogate that the three bytes [b1 b2 b3] stand for, if they
    stand for one. *)
Definition surrogate_unit (b1 b2 b3 : ascii) : option N :=
  let n1 := N_of_ascii b1 in
  let n2 := N_of_ascii b2 in
  let n3 := N_of_ascii b3 in
  if ((n1 =? 237) && (160 <=? n2) && (n2 <=? 191) && (128 <=? n3) && (n3 <=? 191))%N
  then Some (53248 + (n2 - 128) * 64 + (n3 - 128))%N
  else None.

(** The surrogates from [D800] to [DBFF] lead a pair, those from [DC00]
    to [DFFF] trail one. *)
Definition is_lead (u : N) : bool := ((55296 <=? u) && (u <? 56320))%N.
Definition is_trail (u : N) : bool := ((56320 <=? u) && (u <? 57344))%N.

(** [\uXXXX], the digits in lower case. *)
Definition escape_unit (u : N) : string :=
  String backslash
    (String "u"
       (String (hex_digit (u / 4096))
          (String (hex_digit ((u / 256) mod 16))
             (String (hex_digit ((u / 16) mod 16))
                (String (hex_digit (u mod 16)) EmptyString))))).

(** QuoteJSONString without the quotes: a surrogate is escaped unless a
    lead is followed by a trail. *)
Fixpoint quote_body (s : string) : string :=
  match s with
  | EmptyString => EmptyString
  | String b1 r1 =>
      match r1 with
      | String b2 (String b3 r3) =>
          match surrogate_unit b1 b2 b3 with
          | Some u =>
              match r3 with
              | String c1 (String c2 (String c3 r6)) =>
                  match surrogate_unit c1 c2 c3 with
                  | Some l =>
                      if is_lead u && is_trail l
                      then String b1 (String b2 (String b3
                             (String c1 (String c2 (String c3 (quote_body r6))))))
                      else escape_unit u +:+ quote_body r3
                  | None => escape_unit u +:+ quote_body r3
                  end
              | _ => escape_unit u +:+ quote_body r3
              end
          | None => escape_char b1 +:+ quote_body r1
          end
      | _ => escape_char b1 +:+ quote_body r1
      end
  end.

Definition quote (s : string) : string :=
  String dquote (quote_body s +:+ String dquote EmptyString).

Definition member_text (k : string) (t : string) : string := quote k +:+ ":" +:+ t.

(** [JSON.stringify(v)].  [NaN] and the infinities print as [null]; inside
    an array [undefined] prints as [null]; a property whose value is
    [undefined] is left out; an [Error] has no enumerable property. *)
Fixpoint stringify (v : jsval) : option string :=
  match v with
  | VUndefined => None
  | VNull => Some "null"
  | VBool true => Some "true"
  | VBool false => Some "false"
  | VNum (Fin z) => Some (number_to_string (Fin z))
  | VNum (Frac m e) => Some (number_to_string (Frac m e))
  | VNum _ => Some "null"
  | VStr s => Some (quote s)
  | VArr elems =>
      Some ("[" +:+ join "," (map (fun e => default "null" (stringify e)) elems) +:+ "]")
  | VObj props =>
      Some ("{" +:+
            join "," (omap (fun p => member_text (fst p) <$> stringify (snd p)) props)
            +:+ "}")
  | VError _ => Some "{}"
  end.

(** The text of an array element, and of an object member if it has one. *)
Definition element_text (e : jsval) : string := default "null" (stringify e).

Definition property_text (p : string * jsval) : option string :=
  member_text (fst p) <$> stringify (snd p).

Definition is_ws (c : ascii) : bool :=
  let n := N_of_ascii c in
  ((n =? 32) || (n =? 9) || (n =? 10) || (n =? 13))%N.

Fixpoint skip_ws (s : string) : string :=
  match s with
  | String c r => if is_ws c then skip_ws r else s
  | EmptyString => s
  end.

Definition digit_of (c : ascii) : option N :=
  let n := N_of_ascii c in
  if ((48 <=? n) && (n <=? 57))%N then Some (n - 48)%N else None.

Definition is_digit (c : ascii) : Prop := is_Some (digit_of c).

Fixpoint all_digits (s : string) : Prop :=
  match s with
  | EmptyString => True
  | String c r => is_digit c ∧ all_digits r
  end.

Definition hex_of (c : ascii) : option N :=
  let n := N_of_ascii c in
  if ((48 <=? n) && (n <=? 57))%N then Some (n - 48)%N
  else if ((97 <=? n) && (n <=? 102))%N then Some (n - 87)%N
  else if ((65 <=? n) && (n <=? 70))%N then Some (n - 55)%N
  else None.

Fixpoint parse_digits (acc : N) (s : string) : N * string :=
  match s with
  | String c r =>
      match digit_of c with
      | Some d => parse_digits (acc * 10 + d) r
      | None => (acc, s)
      end
  | EmptyString => (acc, s)
  end.

(** The integer part of a numeral: a zero stands alone, any other digit
    starts a run of digits. *)
Definition parse_int (s : string) : option (N * string) :=
  match s with
  | String c r =>
      match digit_of c with
      | Some 0%N => Some (0%N, r)
      | Some d => Some (parse_digits d r)
      | None => None
      end
  | EmptyString => None
  end.

Definition starts_fraction (s : string) : bool :=
  match s with
  | String c _ => (Ascii.eqb c "." || Ascii.eqb c "e" || Ascii.eqb c "E")%char
  | EmptyString => false
  end.

(** A run of digits: its value and its length. *)
Fixpoint parse_digits_counted (acc : N) (len : Z) (s : string) : N * Z * string :=
  match s with
  | String c r =>
      match digit_of c with
      | Some d => parse_digits_counted (acc * 10 + d) (len + 1) r
      | None => (acc, len, s)
      end
  | EmptyString => (acc, len, s)
  end.

(** The fraction of a numeral, if it has one: a point and at least one
    digit. *)
Definition parse_fraction (s : string) : option (N * Z * string) :=
  match s with
  | String c r =>
      if Ascii.eqb c "." then
        match r with
        | String d _ =>
            match digit_of d with
            | Some _ => Some (parse_digits_counted 0 0 r)
            | None => None
            end
        | EmptyString => None
        end
      else Some (0%N, 0, s)
  | EmptyString => Some (0%N, 0, s)
  end.

(** The exponent of a numeral, if it has one: [e] or [E], a sign if any,
    and at least one digit. *)
Definition parse_exponent (s : string) : option (Z * string) :=
  match s with
  | String c r =>
      if (Ascii.eqb c "e" || Ascii.eqb c "E")%bool then
        let signed :=
          match r with
          | String g r' =>
              if Ascii.eqb g "-" then (true, r')
              else if Ascii.eqb g "+" then (false, r')
              else (false, r)
          | EmptyString => (false, r)
          end in
        match snd signed with
        | String d _ =>
            match digit_of d with
            | Some _ =>
                let '(x, rest) := parse_digits 0 (snd signed) in
                Some (if fst signed then - Z.of_N x else Z.of_N x, rest)
            | None => None
            end
        | EmptyString => None
        end
      else Some (0, s)
  | EmptyString => Some (0, s)
  end.

(** A JSON numeral: the double nearest to the decimal it writes. *)
Definition parse_number (s : string) : option (jsval * string) :=
  let signed :=
    match s with
    | String c r => if Ascii.eqb c "-" then (true, r) else (false, s)
    | EmptyString => (false, s)
    end in
  match parse_int (snd signed) with
  | Some (n, r) =>
      match parse_fraction r with
      | Some (f, flen, r1) =>
          match parse_exponent r1 with
          | Some (x, r2) =>
              let significand := Z.of_N n * 10 ^ flen + Z.of_N f in
              let a := if fst signed then - significand else significand in
              let p := x - flen in
              Some (VNum (decimal_value a p), r2)
          | None => None
          end
      | None => None
      end
  | None => None
  end.

Definition simple_escape (c : ascii) : option ascii :=
  let n := N_of_ascii c in
  if (n =? 34)%N then Some dquote
  else if (n =? 92)%N then Some backslash
  else if (n =? 47)%N then Some "/"%char
  else if (n =? 98)%N then Some "008"%char
  else if (n =? 102)%N then Some "012"%char
  else if (n =? 110)%N then Some "010"%char
  else if (n =? 114)%N then Some "013"%char
  else if (n =? 116)%N then Some "009"%char
  else None.

Definition code_unit (a b c d : ascii) : option N :=
  match hex_of a, hex_of b, hex_of c, hex_of d with
  | Some x, Some y, Some z, Some w => Some (((x * 16 + y) * 16 + z) * 16 + w)%N
  | _, _, _, _ => None
  end.

(** The UTF-8 form of a code point. *)
Definition utf8 (n : N) : string :=
  if (n <? 128)%N then String (ascii_of_N n) EmptyString
  else if (n <? 2048)%N then
    String (ascii_of_N (192 + n / 64)) (String (ascii_of_N (128 + n mod 64)) EmptyString)
  else if (n <? 65536)%N then
    String (ascii_of_N (224 + n / 4096))
      (String (ascii_of_N (128 + (n / 64) mod 64))
         (String (ascii_of_N (128 + n mod 64)) EmptyString))
  else
    String (ascii_of_N (240 + n / 262144))
      (String (ascii_of_N (128 + (n / 4096) mod 64))
         (String (ascii_of_N (128 + (n / 64) mod 64))
            (String (ascii_of_N (128 + n mod 64)) EmptyString))).

(** The trail surrogate that an escape at the start of [s] writes, and
    what follows the escape. *)
Definition trail_escape (s : string) : option (N * string) :=
  match s with
  | String b (String u (String h1 (String h2 (String h3 (String h4 r))))) =>
      if (Ascii.eqb b backslash && Ascii.eqb u "u")%bool then
        match code_unit h1 h2 h3 h4 with
        | Some l => if is_trail l then Some (l, r) else None
        | None => None
        end
      else None
  | _ => None
  end.

(** The characters of a string literal after its opening quote, up to and
    including the closing quote.  An escaped lead surrogate and an escaped
    trail surrogate that follows it are one code point. *)
Fixpoint parse_string_body (s : string) : option (string * string) :=
  match s with
  | EmptyString => None
  | String c r =>
      if Ascii.eqb c dquote then Some (EmptyString, r)
      else if Ascii.eqb c backslash then
        match r with
        | String e r1 =>
            match simple_escape e with
            | Some c1 =>
                match parse_string_body r1 with
                | Some (t, rest) => Some (String c1 t, rest)
                | None => None
                end
            | None =>
                match r1 with
                | String h1 (String h2 (String h3 (String h4 r2))) =>
                    match code_unit h1 h2 h3 h4 with
                    | Some n =>
                        if Ascii.eqb e "u" then
                          match
                            (if is_lead n then
                               match r2 with
                               | String b (String u (String k1 (String k2 (String k3
                                   (String k4 r3))))) =>
                                   if (Ascii.eqb b backslash && Ascii.eqb u "u")%bool then
                                     match code_unit k1 k2 k3 k4 with
                                     | Some l =>
                                         if is_trail l
                                         then Some (65536 + (n - 55296) * 1024 + (l - 56320),
                                                    parse_string_body r3)%N
                                         else None
                                     | None => None
                                     end
                                   else None
                               | _ => None
                               end
                             else None)
                          with
                          | Some (point, Some (t, rest)) => Some (utf8 point +:+ t, rest)
                          | Some (_, None) => None
                          | None =>
                              match parse_string_body r2 with
                              | Some (t, rest) => Some (utf8 n +:+ t, rest)
                              | None => None
                              end
                          end
                        else None
                    | None => None
                    end
                | _ => None
                end
            end
        | EmptyString => None
        end
      else if (N_of_ascii c <? 32)%N then None
      else
        match parse_string_body r with
        | Some (t, rest) => Some (String c t, rest)
        | None => None
        end
  end.

Fixpoint expect (lit s : string) : option string :=
  match lit, s with
  | EmptyString, _ => Some s
  | String a l, String b r => if Ascii.eqb a b then expect l r else None
  | String _ _, EmptyString => None
  end.

(** The array index a property key is, if it is one: the digits of an
    integer below [2^32 - 1] with no zero in front. *)
Definition array_index (k : string) : option N :=
  match k with
  | EmptyString => None
  | String c r =>
      match digit_of c with
      | Some d =>
          if (d =? 0)%N then (match r with EmptyString => Some 0%N | _ => None end)
          else
            match parse_digits d r with
            | (n, EmptyString) => if (n <? 4294967295)%N then Some n else None
            | _ => None
            end
      | None => None
      end
  end.

(** Defining a property on an object under construction.  A repeated key
    keeps its place and takes the later value; a new key that is an array
    index goes before the first key that is a greater index or no index,
    any other new key goes to the end. *)
Fixpoint replace_prop (k : string) (v : jsval) (o : list (string * jsval)) :
    list (string * jsval) :=
  match o with
  | [] => [(k, v)]
  | (k', v') :: rest =>
      if String.eqb k k' then (k', v) :: rest else (k', v') :: replace_prop k v rest
  end.

Fixpoint insert_index (i : N) (k : string) (v : jsval) (o : list (string * jsval)) :
    list (string * jsval) :=
  match o with
  | [] => [(k, v)]
  | (k', v') :: rest =>
      match array_index k' with
      | Some j => if (j <? i)%N then (k', v') :: insert_index i k v rest else (k, v) :: o
      | None => (k, v) :: o
      end
  end.

Definition set_prop (k : string) (v : jsval) (o : list (string * jsval)) :
    list (string * jsval) :=
  match array_index k with
  | Some i =>
      if existsb (fun p => String.eqb k (fst p)) o then replace_prop k v o
      else insert_index i k v o
  | None => replace_prop k v o
  end.

Definition build_object (members : list (string * jsval)) : jsval :=
  VObj (foldl (fun o p => set_prop (fst p) (snd p) o) [] members).

(** Recursive descent over the JSON grammar; [n] bounds the nesting of
    calls. *)
Fixpoint parse_value (n : nat) (s : string) : option (jsval * string) :=
  match n with
  | O => None
  | S n' =>
      match skip_ws s with
      | EmptyString => None
      | String c r =>
          if Ascii.eqb c "n" then (fun r' => (VNull, r')) <$> expect "ull" r
          else if Ascii.eqb c "t" then (fun r' => (VBool true, r')) <$> expect "rue" r
          else if Ascii.eqb c "f" then (fun r' => (VBool false, r')) <$> expect "alse" r
          else if Ascii.eqb c dquote then
            (fun p => (VStr (fst p), snd p)) <$> parse_string_body r
          else if Ascii.eqb c "[" then
            match skip_ws r with
            | String c1 r1 =>
                if Ascii.eqb c1 "]" then Some (VArr [], r1)
                else (fun p => (VArr (fst p), snd p)) <$> parse_elements n' r
            | EmptyString => None
            end
          else if Ascii.eqb c "{" then
            match skip_ws r with
            | String c1 r1 =>
                if Ascii.eqb c1 "}" then Some (VObj [], r1)
                else (fun p => (build_object (fst p), snd p)) <$> parse_members n' r
            | EmptyString => None
            end
          else parse_number (String c r)
      end
  end
with parse_elements (n : nat) (s : string) : option (list jsval * string) :=
  match n with
  | O => None
  | S n' =>
      match parse_value n' s with
      | Some (v, r) =>
          match skip_ws r with
          | String c r1 =>
              if Ascii.eqb c "," then
                (fun p => (v :: fst p, snd p)) <$> parse_elements n' r1
              else if Ascii.eqb c "]" then Some ([v], r1)
              else None
          | EmptyString => None
          end
      | None => None
      end
  end
with parse_members (n : nat) (s : string) : option (list (string * jsval) * string) :=
  match n with
  | O => None
  | S n' =>
      match skip_ws s with
      | String c r =>
          if Ascii.eqb c dquote then
            match parse_string_body r with
            | Some (k, r1) =>
                match skip_ws r1 with
                | String c1 r2 =>
                    if Ascii.eqb c1 ":" then
                      match parse_value n' r2 with
                      | Some (v, r3) =>
                          match skip_ws r3 with
                          | String c3 r4 =>
                              if Ascii.eqb c3 "," then
                                (fun p => ((k, v) :: fst p, snd p)) <$> parse_members n' r4
                              else if Ascii.eqb c3 "}" then Some ([(k, v)], r4)
                              else None
                          | EmptyString => None
                          end
                      | None => None
                      end
                    else None
                | EmptyString => None
                end
            | None => None
            end
          else None
      | EmptyString => None
      end
  end.

(** The order in which an object lists its own keys: the array indices
    ascending, then the other keys.  [lower] is the least index that may
    come next, [None] once a key that is no index has been seen. *)
Fixpoint keys_from (lower : option N) (ks : list string) : bool :=
  match ks with
  | [] => true
  | k :: rest =>
      match array_index k, lower with
      | Some j, Some i => (i <=? j)%N && keys_from (Some (j + 1)%N) rest
      | Some _, None => false
      | None, _ => keys_from None rest
      end
  end.

Definition own_keys (props : list (string * jsval)) : bool :=
  bool_decide (NoDup (fst <$> props)) && keys_from (Some 0%N) (fst <$> props).

(** Values for which carrying them through JSON unchanged is proved
    below: [null], booleans, the finite numbers, strings, and arrays and
    objects of such values, the keys of an object being distinct and in
    the order of own keys. *)
Fixpoint json_safe (v : jsval) : bool :=
  match v with
  | VNull | VBool _ | VStr _ => true
  | VNum n => is_double n
  | VArr elems => forallb json_safe elems
  | VObj props => forallb (fun p => json_safe (snd p)) props && own_keys props
  | VUndefined | VError _ => false
  end.

(** What may follow a numeral: not a digit, and no fraction or exponent. *)
Definition ends_numeral (rest : string) : Prop :=
  match rest with
  | EmptyString => True
  | String c _ => digit_of c = None ∧ starts_fraction rest = false
  end.

(** [JSON.parse(text)]: one value, then only white space. *)
Definition parse (text : string) : option jsval :=
  match parse_value (2 * String.length text + 1) text with
  | Some (v, r) =>
      match skip_ws r with
      | EmptyString => Some v
      | String _ _ => None
      end
  | None => None
  end.

(** The text [t] is read as the value [v], whatever follows it, by a
    parser that may nest deeply enough. *)
Definition reads_as (t : string) (v : jsval) : Prop :=
  ∀ rest n, ends_numeral rest → (2 * String.length t + 1 <= n)%nat →
            parse_value n (t +:+ rest) = Some (v, rest).

(** The first character of a text that starts a value. *)
Definition starts_value (t : string) : Prop :=
  ∃ c r, t = String c r ∧ is_ws c = false ∧ Ascii.eqb c "]" = false.

(** A value whose JSON text is read as that value again. *)
Definition round_trips (v : jsval) : Prop :=
  ∃ t, stringify v = Some t ∧ starts_value t ∧ reads_as t v.

End JS.



(** ** The storage area ([window.localStorage])

    A [Storage] maps keys to strings.  [setItem] throws
    [QuotaExceededError] (here [None]) when the area would grow past its
    quota, counted in code units of keys and values. *)

Module WebStorage.

Record Storage : Type := { items : gmap string string; quota : nat }.

Definition used (m : gmap string string) : nat :=
  map_fold (fun k v acc => String.length k + String.length v + acc)%nat 0%nat m.

Definition getItem (k : string) (st : Storage) : option string := items st !! k.

Definition setItem (k v : string) (st : Storage) : option Storage :=
  let m := <[k := v]> (items st) in
  if decide (used m <= quota st)%nat
  then Some {| items := m; quota := quota st |}
  else None.

Definition removeItem (k : string) (st : Storage) : Storage :=
  {| items := delete k (items st); quota := quota st |}.

(** An argument of type [DOMString]: [undefined] is converted to the
    string "undefined". *)
Definition DOMString (s : option string) : string := default "undefined" s.

End WebStorage.

(** ** useLocalStorage (src/hooks/useLocalStorage.ts) *)

Module LocalStorage.
Import JS WebStorage.

(** The global [window]: [None] where [typeof window === 'undefined']. *)
Definition Window : Type := option Storage.

(** One mounted instance of the hook: its arguments and its state cell. *)
Record Hook : Type := {
  key : string;
  initialValue : jsval;
  storedValue : jsval;
}.

(** The initializer of [useState]: the stored item, parsed, when there is a
    non-empty one; [initialValue] when there is none, and when reading or
    parsing throws. *)
Definition initial_state (key : string) (initialValue : jsval) (w : Window) : jsval :=
  let item :=
    match w with
    | Some st => getItem key st
    | None => None
    end in
  match item with
  | Some text =>
      if truthy_string text then
        match JS.parse text with
        | Some v => v
        | None => initialValue
        end
      else initialValue
  | None => initialValue
  end.

Definition useLocalStorage (key : string) (initialValue : jsval) (w : Window) : Hook :=
  {| key := key; initialValue := initialValue;
     storedValue := initial_state key initialValue w |}.

(** The argument of [setValue]: a value, or a function of the previous
    value ([value instanceof Function]); the function may throw ([None]). *)
Inductive SetArg : Type :=
  | Plain (value : jsval)
  | Updater (f : jsval -> option jsval).

(** [setValue(value)]: the state cell is set first, then the item is
    written; whatever throws inside is caught and only logged. *)
Definition setValue (value : SetArg) (h : Hook) (w : Window) : Hook * Window :=
  let computed :=
    match value with
    | Updater f => f (storedValue h)
    | Plain v => Some v
    end in
  match computed with
  | None => (h, w)
  | Some valueToStore =>
      let h' := {| key := key h; initialValue := initialValue h;
                   storedValue := valueToStore |} in
      match w with
      | Some st =>
          match setItem (key h) (DOMString (JS.stringify valueToStore)) st with
          | Some st' => (h', Some st')
          | None => (h', w)
          end
      | None => (h', w)
      end
  end.

(** [removeValue()] *)
Definition removeValue (h : Hook) (w : Window) : Hook * Window :=
  ({| key := key h; initialValue := initialValue h; storedValue := initialValue h |},
   removeItem (key h) <$> w).

End LocalStorage.

(** ** useThrottle (src/hooks/useDebounce.ts)

    The ref [lastRunRef] is the only state.  [calls] records the calls of
    [callback] that were made, with the clock reading of each: it is how
    the model observes that an invocation was executed. *)

Module Throttle.

Section Throttle.
Context {Args : Type}.

Record Hook : Type := {
  lastRunRef : Z;
  calls : list (Z * Args);
}.

(** Mounting the hook: [useRef<number>(Date.now())]. *)
Definition useThrottle (now : Z) : Hook := {| lastRunRef := now; calls := [] |}.

(** One invocation of the returned function; [now] is what [Date.now()]
    returns in it. *)
Definition throttled (delay : Z) (now : Z) (args : Args) (h : Hook) : Hook :=
  if bool_decide (now - lastRunRef h >= delay)
  then {| lastRunRef := now; calls := calls h ++ [(now, args)] |}
  else h.

(** A sequence of invocations, oldest first. *)
Definition run (delay : Z) (invocations : list (Z * Args)) (h : Hook) : Hook :=
  foldl (fun h i => throttled delay (fst i) (snd i) h) h invocations.

(** The clock reading of the last execution, if there was one. *)
Definition last_execution (h : Hook) : option Z := fst <$> last (calls h).

(** An execution whose clock reading lies in the window [a, a + w]. *)
Definition in_window (a w : Z) (c : Z * Args) : Prop := a <= fst c <= a + w.

#[export] Instance in_window_dec a w c : Decision (in_window a w c).
Proof. unfold in_window. apply _. Defined.

(** Two executions at least [delay] apart, the earlier one first. *)
Definition apart (delay : Z) (c1 c2 : Z * Args) : Prop := delay <= fst c2 - fst c1.

End Throttle.

Arguments Hook : clear implicits.

End Throttle.

(** ** useAsync (src/hooks/useAsync.ts)

    A call of [execute] is split at its [await]: [execute_begin] is what
    runs at once, [execute_settle] what runs when the awaited promise is
    settled.  Between the two the host may run anything else: another call
    of [execute] (the one the effect makes when [immediate] is set is one
    of them), another settlement, or the cleanup of the effect. *)

Module Async.
Import JS.

Inductive Status : Type := st_idle | st_loading | st_success | st_error.

Record AsyncState : Type := {
  status : Status;
  data : jsval;
  error : option ErrorObj;
  isLoading : bool;
}.

(** The hook: its state cell and the ref [isMountedRef]. *)
Record Hook : Type := { state : AsyncState; isMountedRef : bool }.

Definition setState (s : AsyncState) (h : Hook) : Hook :=
  {| state := s; isMountedRef := isMountedRef h |}.

(** The first render. *)
Definition mount : Hook :=
  {| state := {| status := st_idle; data := VNull; error := None; isLoading := false |};
     isMountedRef := true |}.

(** How [await asyncFunction()] ends: the promise is fulfilled, or it is
    rejected (or [asyncFunction] throws) with a value. *)
Inductive Outcome : Type :=
  | Resolved (response : jsval)
  | Rejected (e : jsval).

(** How a call of [execute] ends. *)
Inductive Completion : Type :=
  | Returned
  | Threw (e : jsval).

(** [execute()] up to the [await]. *)
Definition execute_begin (h : Hook) : Hook :=
  setState {| status := st_loading; data := VNull; error := None; isLoading := true |} h.

(** [error instanceof Error ? error : new Error(String(error))]; [None]
    when [String(error)] throws. *)
Definition normalize (e : jsval) : option ErrorObj :=
  match e with
  | VError err => Some err
  | _ => new_Error <$> to_String e
  end.

(** [execute()] from the [await] on: the rest of the [try] block, or the
    [catch] block.  Nothing surrounds the [catch] block: when the
    conversion of the rejection value throws there, [setState] is not
    reached and the promise of [execute()] is rejected with that
    [TypeError]. *)
Definition execute_settle (o : Outcome) (h : Hook) : Hook * Completion :=
  match o with
  | Resolved response =>
      (if isMountedRef h
       then setState {| status := st_success; data := response; error := None;
                        isLoading := false |} h
       else h,
       Returned)
  | Rejected e =>
      if isMountedRef h then
        match normalize e with
        | Some err =>
            (setState {| status := st_error; data := VNull; error := Some err;
                         isLoading := false |} h,
             Returned)
        | None => (h, Threw (VError (new_TypeError no_primitive_value)))
        end
      else (h, Returned)
  end.

(** The cleanup of the effect.  React runs it when the component is
    unmounted and also before every re-run of the effect, that is whenever
    [execute] (so [asyncFunction]) or [immediate] has changed between two
    renders; the effect never sets the flag again. *)
Definition cleanup (h : Hook) : Hook :=
  {| state := state h; isMountedRef := false |}.

(** The effect after a render in which [execute] or [immediate] has
    changed: the cleanup of the previous effect, then the new effect. *)
Definition effect_rerun (immediate : bool) (h : Hook) : Hook :=
  let h := cleanup h in
  if immediate then execute_begin h else h.

(** What can happen to a mounted hook, and a trace of it. *)
Inductive Event : Type :=
  | Execute
  | Settle (o : Outcome)
  | Cleanup.

Definition step (h : Hook) (ev : Event) : Hook :=
  match ev with
  | Execute => execute_begin h
  | Settle o => fst (execute_settle o h)
  | Cleanup => cleanup h
  end.

Definition run (evs : list Event) (h : Hook) : Hook := foldl step h evs.

(** A field that is not [null]. *)
Definition data_set (s : AsyncState) : bool :=
  match data s with
  | VNull => false
  | _ => true
  end.

Definition error_set (s : AsyncState) : bool :=
  match error s with
  | None => false
  | Some _ => true
  end.

(** Exactly one of [data] and [error] is not [null]. *)
Definition exactly_one (s : AsyncState) : bool := xorb (data_set s) (error_set s).

(** The events that are not the settlement of an operation in flight. *)
Definition not_settle (ev : Event) : Prop :=
  match ev with
  | Settle _ => False
  | _ => True
  end.

#[export] Instance not_settle_dec ev : Decision (not_settle ev).
Proof. destruct ev; simpl; apply _. Defined.

End Async.

(** ** NotificationProvider (src/contexts/NotificationContext.tsx) *)

Module Notification.

Inductive NotificationType : Type := success | error | warning | info.

Record Notification : Type := {
  id : string;
  message : string;
  type : NotificationType;
  duration : option Z;
  timestamp : Z;
}.

#[export] Instance NotificationType_eq_dec : EqDecision NotificationType.
Proof. solve_decision. Defined.

#[export] Instance Notification_eq_dec : EqDecision Notification.
Proof. solve_decision. Defined.

(** What one call of [addNotification] reads from the host: [Date.now()]
    inside [generateId], the text [Math.random().toString(36)], and
    [Date.now()] for the time stamp. *)
Record Host : Type := {
  now_id : Z;
  random36 : string;
  now_stamp : Z;
}.

(** [`${Date.now()}-${Math.random().toString(36).substr(2, 9)}`] *)
Definition generateId (now : Z) (random36 : string) : string :=
  pretty now +:+ "-" +:+ String.substring 2 9 random36.

(** A pending [setTimeout(() => removeNotification(id), duration)]:
    the time left until it is due (at first the delay the host makes of
    [duration]), and the id it will remove. *)
Record Timer : Type := { remaining : Z; target : string }.

(** The provider: the state cell [notifications] and the host's queue of
    timers set by [addNotification]. *)
Record Provider : Type := {
  notifications : list Notification;
  timers : list Timer;
}.

Definition initial : Provider := {| notifications := []; timers := [] |}.

(** [prev => prev.filter(notification => notification.id !== id)] *)
Definition removeNotification (i : string) (p : Provider) : Provider :=
  {| notifications := filter (fun n => id n ≠ i) (notifications p);
     timers := timers p |}.

(** The delay the host makes of the second argument of [setTimeout]: the
    argument is converted to a signed 32-bit integer (it wraps around
    modulo 2^32), and a negative delay counts as 0. *)
Definition timer_delay (timeout : Z) : Z :=
  Z.max 0 ((timeout + 2 ^ 31) mod 2 ^ 32 - 2 ^ 31).

(** [addNotification(message, type = 'info', duration = 5000)] *)
Definition addNotification (host : Host) (message : string)
    (type : option NotificationType) (duration : option Z) (p : Provider) :
    Provider * string :=
  let type := default info type in
  let duration := default 5000 duration in
  let i := generateId (now_id host) (random36 host) in
  let notification :=
    {| id := i; message := message; type := type; duration := Some duration;
       timestamp := now_stamp host |} in
  ({| notifications := notifications p ++ [notification];
      timers := if bool_decide (duration > 0)
                then timers p ++ [{| remaining := timer_delay duration; target := i |}]
                else timers p |},
   i).

Definition clearNotifications (p : Provider) : Provider :=
  {| notifications := []; timers := timers p |}.

(** The event loop lets [dt] milliseconds pass: every timer that is due
    runs its callback and leaves the queue. *)
Definition tick (dt : Z) (t : Timer) : Timer :=
  {| remaining := remaining t - dt; target := target t |}.

Definition due (t : Timer) : Prop := remaining t <= 0.

#[export] Instance due_dec t : Decision (due t).
Proof. unfold due. apply _. Defined.

Definition elapse (dt : Z) (p : Provider) : Provider :=
  let ts := tick dt <$> timers p in
  let fired := filter due ts in
  {| notifications :=
       notifications (foldl (fun q t => removeNotification (target t) q) p fired);
     timers := filter (fun t => ¬ due t) ts |}.

(** What happens to a provider, and a trace of it. *)
Inductive Op : Type :=
  | Add (host : Host) (message : string) (type : option NotificationType)
      (duration : option Z)
  | Remove (i : string)
  | Clear
  | Elapse (dt : Z).

Definition step (p : Provider) (op : Op) : Provider :=
  match op with
  | Add host message type duration => fst (addNotification host message type duration p)
  | Remove i => removeNotification i p
  | Clear => clearNotifications p
  | Elapse dt => elapse dt p
  end.

Definition run (ops : list Op) (p : Provider) : Provider := foldl step p ops.

(** The time that passes in a trace. *)
Definition elapsed (ops : list Op) : Z :=
  foldr (fun op acc => match op with Elapse dt => dt + acc | _ => acc end) 0 ops.

Definition ids (p : Provider) : list string := id <$> notifications p.

(** An operation that lets time move forward only, and that is not a call
    of [addNotification] generating the id [i] again. *)
Definition no_reuse (i : string) (op : Op) : Prop :=
  match op with
  | Add host _ _ _ => generateId (now_id host) (random36 host) ≠ i
  | Elapse dt => 0 <= dt
  | Remove _ | Clear => True
  end.

(** An operation that does not remove the id [i] explicitly. *)
Definition not_removing (i : string) (op : Op) : Prop :=
  match op with
  | Remove j => j ≠ i
  | Clear => False
  | Add _ _ _ _ | Elapse _ => True
  end.

(** The time an operation lets pass. *)
Definition op_time (op : Op) : Z :=
  match op with
  | Elapse dt => dt
  | _ => 0
  end.

(** Either no queued notification carries [i], or a timer for [i] is
    pending that is due within [r]; a timer with no time left has not yet
    had its turn. *)
Definition expiring (i : string) (r : Z) (p : Provider) : Prop :=
  i ∉ ids p ∨
  ∃ t, t ∈ timers p ∧ target t = i ∧ remaining t <= r ∧ (0 < remaining t ∨ 0 < r).

(** The notification [n] is queued, and every pending timer for its id
    still has [r] to go. *)
Definition kept (n : Notification) (r : Z) (p : Provider) : Prop :=
  n ∈ notifications p ∧ ∀ t, t ∈ timers p → target t = id n → r <= remaining t.

End Notification.

(** ** FormProvider (src/contexts/FormContext.tsx) *)

Module Form.
Import JS.

(** [FormData] and [FormErrors] are objects used as maps; a key of
    [FormErrors] may hold [undefined] ([None]). *)
Record FormState : Type := {
  formData : gmap string jsval;
  errors : gmap string (option string);
  touched : gset string;
  isSubmitting : bool;
}.

(** The first render of a provider with the prop [initialData]. *)
Definition mount (initialData : gmap string jsval) : FormState :=
  {| formData := initialData; errors := ∅; touched := ∅; isSubmitting := false |}.

Definition updateField (name : string) (value : jsval) (s : FormState) : FormState :=
  {| formData := <[name := value]> (formData s); errors := errors s;
     touched := touched s; isSubmitting := isSubmitting s |}.

(** [{...prev, ...updates}] *)
Definition updateFields (updates : gmap string jsval) (s : FormState) : FormState :=
  {| formData := updates ∪ formData s; errors := errors s;
     touched := touched s; isSubmitting := isSubmitting s |}.

Definition setErrors (newErrors : gmap string (option string)) (s : FormState) : FormState :=
  {| formData := formData s; errors := newErrors;
     touched := touched s; isSubmitting := isSubmitting s |}.

Definition setFieldError (name : string) (err : option string) (s : FormState) : FormState :=
  {| formData := formData s; errors := <[name := err]> (errors s);
     touched := touched s; isSubmitting := isSubmitting s |}.

Definition markAsTouched (name : string) (s : FormState) : FormState :=
  {| formData := formData s; errors := errors s;
     touched := touched s ∪ {[ name ]}; isSubmitting := isSubmitting s |}.

Definition markAsUntouched (name : string) (s : FormState) : FormState :=
  {| formData := formData s; errors := errors s;
     touched := touched s ∖ {[ name ]}; isSubmitting := isSubmitting s |}.

Definition setIsSubmitting (value : bool) (s : FormState) : FormState :=
  {| formData := formData s; errors := errors s;
     touched := touched s; isSubmitting := value |}.

(** [newInitialData || initialData]: the argument is an object, which is
    truthy, or [undefined]. *)
Definition or_initial (newInitialData : option (gmap string jsval))
    (initialData : gmap string jsval) : gmap string jsval :=
  match newInitialData with
  | Some d => d
  | None => initialData
  end.

(** [resetForm(newInitialData?)], in a provider whose prop is
    [initialData]. *)
Definition resetForm (initialData : gmap string jsval)
    (newInitialData : option (gmap string jsval)) (s : FormState) : FormState :=
  let s1 := {| formData := or_initial newInitialData initialData; errors := errors s;
               touched := touched s; isSubmitting := isSubmitting s |} in
  let s2 := setErrors ∅ s1 in
  let s3 := {| formData := formData s2; errors := errors s2; touched := ∅;
               isSubmitting := isSubmitting s2 |} in
  setIsSubmitting false s3.

Definition getFieldError (name : string) (s : FormState) : option string :=
  mjoin (errors s !! name).

Definition isTouched (name : string) (s : FormState) : bool :=
  bool_decide (name ∈ touched s).

(** The operations a consumer can apply, and a trace of them. *)
Inductive Op : Type :=
  | UpdateField (name : string) (value : jsval)
  | UpdateFields (updates : gmap string jsval)
  | SetErrors (newErrors : gmap string (option string))
  | SetFieldError (name : string) (err : option string)
  | MarkAsTouched (name : string)
  | MarkAsUntouched (name : string)
  | SetIsSubmitting (value : bool)
  | ResetForm (newInitialData : option (gmap string jsval)).

Definition step (initialData : gmap string jsval) (s : FormState) (op : Op) : FormState :=
  match op with
  | UpdateField name value => updateField name value s
  | UpdateFields updates => updateFields updates s
  | SetErrors newErrors => setErrors newErrors s
  | SetFieldError name err => setFieldError name err s
  | MarkAsTouched name => markAsTouched name s
  | MarkAsUntouched name => markAsUntouched name s
  | SetIsSubmitting value => setIsSubmitting value s
  | ResetForm newInitialData => resetForm initialData newInitialData s
  end.

Definition run (initialData : gmap string jsval) (ops : list Op) : FormState :=
  foldl (step initialData) (mount initialData) ops.

End Form.

(** ** useLocalStorage: the callback of one render; useSessionStorage *)

Module StorageHooks.
Import JS WebStorage LocalStorage.

(** The [setValue] a render hands out is memoized on [[key, storedValue]]:
    it closes over the [storedValue] of that render, and a function
    argument is applied to that captured value.  [seen] is the captured
    value; [h] and [w] are the state cell and the storage area at the time
    of the call. *)
Definition setValue_seen (seen : jsval) (value : SetArg) (h : Hook) (w : Window) :
    Hook * Window :=
  let computed :=
    match value with
    | Updater f => f seen
    | Plain v => Some v
    end in
  match computed with
  | None => (h, w)
  | Some valueToStore =>
      let h' := {| key := key h; initialValue := initialValue h;
                   storedValue := valueToStore |} in
      match w with
      | Some st =>
          match setItem (key h) (DOMString (JS.stringify valueToStore)) st with
          | Some st' => (h', Some st')
          | None => (h', w)
          end
      | None => (h', w)
      end
  end.

(** The item a window holds under a key, if there is a window. *)
Definition item (k : string) (w : Window) : option string := w ≫= getItem k.

(** The two storage areas of a window. *)
Record Areas : Type := { localStorage : Storage; sessionStorage : Storage }.

(** [useSessionStorage] is [useLocalStorage] word for word, with
    [window.sessionStorage] in the place of [window.localStorage]. *)
Definition useSessionStorage (key : string) (initialValue : jsval) (a : option Areas) : Hook :=
  useLocalStorage key initialValue (sessionStorage <$> a).

Definition with_session (a : option Areas) (w : Window) : option Areas :=
  match a, w with
  | Some areas, Some s => Some {| localStorage := localStorage areas; sessionStorage := s |}
  | _, _ => a
  end.

Definition session_setValue (value : SetArg) (h : Hook) (a : option Areas) :
    Hook * option Areas :=
  let r := setValue value h (sessionStorage <$> a) in
  (fst r, with_session a (snd r)).

Definition session_removeValue (h : Hook) (a : option Areas) : Hook * option Areas :=
  let r := removeValue h (sessionStorage <$> a) in
  (fst r, with_session a (snd r)).

End StorageHooks.

(** ** useDebounce and useDebouncedCallback (src/hooks/useDebounce.ts) *)

Module Debounce.

Section DebouncedValue.
Context {T : Type} `{EqDecision T}.

(** [useDebounce]: the arguments of the last render, the state cell, and
    the timer the effect has pending (the time left, and the value its
    callback will set).  Equality on [T] stands for [Object.is], with which
    the dependencies [[value, delay]] of the effect are compared. *)
Record Hook : Type := {
  value : T;
  delay : Z;
  debouncedValue : T;
  handler : option (Z * T);
}.



(** [dt] milliseconds pass: a timer that is due runs
    [setDebouncedValue(value)]. *)
Definition elapse (dt : Z) (h : Hook) : Hook :=
  match handler h with
  | Some (time_left, v) =>
      if decide (time_left - dt <= 0)
      then {| value := value h; delay := delay h; debouncedValue := v; handler := None |}
      else {| value := value h; delay := delay h; debouncedValue := debouncedValue h;
              handler := Some (time_left - dt, v) |}
  | None => h
  end.




End DebouncedValue.

Arguments Hook : clear implicits.

Section DebouncedCallback.
Context {Args : Type}.

(** [useDebouncedCallback]: the timer [timeoutRef] refers to while it is
    pending (the time left and the arguments its callback will pass on),
    and the calls of [callback] made so far. *)
Record Callback : Type := {
  pending : option (Z * Args);
  calls : list Args;
}.


(** One invocation of the returned function with [delay] in force: the
    previous timer is cleared, a new one is set. *)
Definition invoke (delay : Z) (args : Args) (c : Callback) : Callback :=
  {| pending := Some (delay, args); calls := calls c |}.

Definition pass (dt : Z) (c : Callback) : Callback :=
  match pending c with
  | Some (time_left, args) =>
      if decide (time_left - dt <= 0)
      then {| pending := None; calls := calls c ++ [args] |}
      else {| pending := Some (time_left - dt, args); calls := calls c |}
  | None => c
  end.

(** A burst of invocations, each followed by some time. *)
Definition invocations (delay : Z) (ivs : list (Args * Z)) (c : Callback) : Callback :=
  foldl (fun c i => pass (snd i) (invoke delay (fst i) c)) c ivs.

End DebouncedCallback.

Arguments Callback : clear implicits.

End Debounce.

(** ** useFetch (src/hooks/useAsync.ts) and useApi (src/hooks/useToggle.ts) *)

Module Fetch.
Import JS Async.

(** What the state is set to when an outcome arrives at a hook whose
    flag is set; [None] when the conversion of the rejection value throws
    and nothing is set. *)
Definition settled (o : Outcome) : option AsyncState :=
  match o with
  | Resolved response =>
      Some {| status := st_success; data := response; error := None; isLoading := false |}
  | Rejected e =>
      err ← normalize e;
      Some {| status := st_error; data := VNull; error := Some err; isLoading := false |}
  end.

(** A [Response]: its status and the text its body decodes to.
    [response.ok] holds for the statuses 200 to 299. *)
Record Response : Type := { status_code : Z; body : string }.

Definition ok (r : Response) : bool := bool_decide (200 <= status_code r <= 299).

(** How [fetch(url, options)] ends: it rejects (a network failure), or it
    resolves with a response. *)
Inductive Fetched : Type :=
  | Failed (e : ErrorObj)
  | Responded (r : Response).

Section Engine.

(** The [SyntaxError] with which [response.json()] rejects a body that is
    not JSON; its message is the engine's. *)
Variable syntax_error : string -> ErrorObj.

(** [response.json()] *)
Definition json (r : Response) : Outcome :=
  match JS.parse (body r) with
  | Some v => Resolved v
  | None => Rejected (VError (syntax_error (body r)))
  end.


(** [useApi]: the entry [cacheRef] holds. *)
Record Cache : Type := { cached : jsval; timestamp : Z }.

(** [fetchData] of [useApi]: [now] is the clock when the cache is
    checked, [later] the clock when a response has been read. *)
Definition fetchData (cacheTime : Z) (now : Z) (f : Fetched) (later : Z)
    (cacheRef : option Cache) : Outcome * option Cache :=
  let request :=
    match f with
    | Failed e => (Rejected (VError e), cacheRef)
    | Responded r =>
        if ok r then
          match json r with
          | Resolved data => (Resolved data, Some {| cached := data; timestamp := later |})
          | Rejected e => (Rejected e, cacheRef)
          end
        else (Rejected (VError (new_Error ("HTTP " +:+ number_to_string (Fin (status_code r))))), cacheRef)
    end in
  match cacheRef with
  | Some entry =>
      if bool_decide (now - timestamp entry < cacheTime)
      then (Resolved (cached entry), cacheRef)
      else request
  | None => request
  end.

End Engine.

End Fetch.

(** ** The notification queue as a log of its operations *)

Module NotificationLog.
Import Notification.

(** The notification a call of [addNotification] builds. *)
Definition created (host : Host) (message : string) (type : option NotificationType)
    (duration : option Z) : Notification :=
  {| id := generateId (now_id host) (random36 host); message := message;
     type := default info type; duration := Some (default 5000 duration);
     timestamp := now_stamp host |}.

(** The notifications a trace adds, in the order of the calls. *)
Definition added (ops : list Op) : list Notification :=
  ops ≫= fun op =>
    match op with
    | Add host message type duration => [created host message type duration]
    | _ => []
    end.

(** Time does not run backwards. *)
Definition forward (op : Op) : Prop :=
  match op with
  | Elapse dt => 0 <= dt
  | _ => True
  end.

(** A notification with a positive duration has a pending timer that
    removes it within that duration.  The timer has time left, unless the
    duration is past the largest delay of [setTimeout]. *)
Definition has_timer (p : Provider) (n : Notification) : Prop :=
  ∀ d, duration n = Some d → 0 < d →
    ∃ t, t ∈ timers p ∧ target t = id n ∧ 0 <= remaining t <= d ∧
         (d <= 2147483647 → 0 < remaining t).

(** After [clearNotifications] the timers of the cleared notifications
    are still pending.  The relation between a provider with such stale
    timers (targets in [stale]) and one without. *)
Definition fresh_like (stale : list string) (q q' : Provider) : Prop :=
  notifications q = notifications q' ∧
  timers q' = filter (fun t => target t ∉ stale) (timers q) ∧
  Forall (fun n => id n ∉ stale) (notifications q).

End NotificationLog.

(** ** useFormField (FormContext) *)

Module FormField.
Import JS Form.

(** What [useFormField(name)] reads from the context.  A name that is
    no key of [formData] reads as [undefined]. *)
Record Field : Type := {
  value : jsval;
  error : option string;
  isTouched : bool;
}.

Definition useFormField (name : string) (s : FormState) : Field :=
  {| value := default VUndefined (formData s !! name);
     error := mjoin (errors s !! name);
     isTouched := bool_decide (name ∈ touched s) |}.

(** The three setters [useFormField(name)] returns. *)
Definition setValue (name : string) (val : jsval) : FormState -> FormState :=
  updateField name val.

Definition setTouched (name : string) : FormState -> FormState := markAsTouched name.

Definition setUntouched (name : string) : FormState -> FormState := markAsUntouched name.

End FormField.

(** ** ThemeProvider (ThemeContext) *)

Module Theme.
Import WebStorage.

Inductive Theme : Type := light | dark.

#[export] Instance Theme_eq_dec : EqDecision Theme.
Proof. solve_decision. Defined.

Definition THEME_STORAGE_KEY : string := "app-theme".

(** The string a theme is. *)
Definition theme_name (t : Theme) : string :=
  match t with
  | light => "light"
  | dark => "dark"
  end.

(** [getInitialTheme()].  [prefers_dark] is what
    [window.matchMedia('(prefers-color-scheme: dark)').matches] gives,
    [None] where there is no [window.matchMedia]. *)
Definition getInitialTheme (localStorage : Storage) (prefers_dark : option bool) : Theme :=
  let system :=
    match prefers_dark with
    | Some true => dark
    | Some false => light
    | None => light
    end in
  match getItem THEME_STORAGE_KEY localStorage with
  | Some stored =>
      if String.eqb stored "light" then light
      else if String.eqb stored "dark" then dark
      else system
  | None => system
  end.

(** The provider: its state cell, the storage area it writes and the
    class list of the document element. *)
Record Provider : Type := {
  theme : Theme;
  localStorage : Storage;
  classList : gset string;
}.

(** The effect that runs after a render in which [theme] changed:
    [None] when [setItem] throws. *)
Definition effect (p : Provider) : option Provider :=
  st ← setItem THEME_STORAGE_KEY (theme_name (theme p)) (localStorage p);
  Some {| theme := theme p; localStorage := st;
          classList := match theme p with
                       | dark => classList p ∪ {[ "dark" ]}
                       | light => classList p ∖ {[ "dark" ]}
                       end |}.

(** The first render and its effect. *)
Definition mount (st : Storage) (prefers_dark : option bool) (classes : gset string) :
    option Provider :=
  effect {| theme := getInitialTheme st prefers_dark; localStorage := st;
            classList := classes |}.

(** [setThemeState]: a render, and the effect, only when the theme
    changes. *)
Definition setThemeState (t : Theme) (p : Provider) : option Provider :=
  if decide (t = theme p) then Some p
  else effect {| theme := t; localStorage := localStorage p; classList := classList p |}.

Definition toggleTheme (p : Provider) : option Provider :=
  setThemeState (match theme p with light => dark | dark => light end) p.

Definition setTheme (newTheme : Theme) (p : Provider) : option Provider :=
  setThemeState newTheme p.

Inductive Op : Type :=
  | ToggleTheme
  | SetTheme (newTheme : Theme).

Definition step (op : Op) (p : Provider) : option Provider :=
  match op with
  | ToggleTheme => toggleTheme p
  | SetTheme t => setTheme t p
  end.

Fixpoint run (ops : list Op) (p : Provider) : option Provider :=
  match ops with
  | [] => Some p
  | op :: rest => step op p ≫= run rest
  end.

(** The stored item and the class of the document element agree with
    the state. *)
Definition synced (p : Provider) : Prop :=
  getItem THEME_STORAGE_KEY (localStorage p) = Some (theme_name (theme p)) ∧
  ("dark" ∈ classList p ↔ theme p = dark).

End Theme.

(** ** useCountdown (src/hooks/useToggle.ts) *)

Module Countdown.
Import JS.

Record Hook : Type := {
  initialSeconds : jsnum;
  seconds : jsnum;
  isActive : bool;
}.


Definition start (h : Hook) : Hook :=
  {| initialSeconds := initialSeconds h; seconds := seconds h; isActive := true |}.


Definition reset (h : Hook) : Hook :=
  {| initialSeconds := initialSeconds h; seconds := initialSeconds h; isActive := false |}.

(** [prev <= 1] *)
Definition at_most_one (n : jsnum) : bool :=
  match n with
  | Fin z => bool_decide (z <= 1)
  | Frac m e => bool_decide (m <= 2 ^ Zpos e)
  | NegInfinity => true
  | PosInfinity | NaN => false
  end.

(** [prev - 1] *)
Definition minus_one (n : jsnum) : jsnum :=
  match n with
  | Fin z => Fin (z - 1)
  | Frac m e => number_of_rational (m - 2 ^ Zpos e) (2 ^ Zpos e)
  | other => other
  end.

(** One run of the interval's callback.  The interval exists only while
    [isActive] holds. *)
Definition tick (h : Hook) : Hook :=
  if isActive h then
    if at_most_one (seconds h)
    then {| initialSeconds := initialSeconds h; seconds := Fin 0; isActive := false |}
    else {| initialSeconds := initialSeconds h; seconds := minus_one (seconds h);
            isActive := true |}
  else h.



End Countdown.

(** ** useToggle and useBoolean (src/hooks/useToggle.ts) *)

Module Toggle.

Definition useToggle (initialValue : option bool) : bool := default false initialValue.

Definition toggle (value : bool) : bool := negb value.

Definition setTrue (value : bool) : bool := true.

Definition setFalse (value : bool) : bool := false.

Inductive Op : Type := DoToggle | DoSetTrue | DoSetFalse.

Definition step (value : bool) (op : Op) : bool :=
  match op with
  | DoToggle => toggle value
  | DoSetTrue => setTrue value
  | DoSetFalse => setFalse value
  end.

Definition run (ops : list Op) (value : bool) : bool := foldl step value ops.

(** The value the last call of [setTrue] or [setFalse] set ([start]
    when there is none), and the number of toggles after it. *)
Definition trailing (ops : list Op) (start : bool) : bool * nat :=
  foldl (fun acc op =>
           match op with
           | DoToggle => (fst acc, S (snd acc))
           | DoSetTrue => (true, 0%nat)
           | DoSetFalse => (false, 0%nat)
           end) (start, 0%nat) ops.

End Toggle.

(** ** usePaginatedData (src/hooks/useToggle.ts) *)

Module Pagination.
Import JS.

(** The arithmetic of the hook.  Between integers it is that of the
    integers (as it is for doubles while the results stay below [2^53] in
    size); a result with a fraction in it is rounded to the nearest
    double. *)
Definition num_sign (a : jsnum) : Z :=
  match a with
  | NaN => 0
  | PosInfinity => 1
  | NegInfinity => -1
  | Fin z => Z.sgn z
  | Frac m _ => Z.sgn m
  end.

Definition num_add (a b : jsnum) : jsnum :=
  match a, b with
  | NaN, _ | _, NaN => NaN
  | Fin x, Fin y => Fin (x + y)
  | PosInfinity, NegInfinity | NegInfinity, PosInfinity => NaN
  | PosInfinity, _ | _, PosInfinity => PosInfinity
  | NegInfinity, _ | _, NegInfinity => NegInfinity
  | _, _ =>
      let '(p, q) := rational_of a in
      let '(r, s) := rational_of b in
      number_of_rational (p * s + r * q) (q * s)
  end.

Definition num_mul (a b : jsnum) : jsnum :=
  match a, b with
  | NaN, _ | _, NaN => NaN
  | Fin x, Fin y => Fin (x * y)
  | Frac _ _, Fin _ | Fin _, Frac _ _ | Frac _ _, Frac _ _ =>
      let '(p, q) := rational_of a in
      let '(r, s) := rational_of b in
      number_of_rational (p * r) (q * s)
  | _, _ =>
      let s := num_sign a * num_sign b in
      if bool_decide (s = 0) then NaN
      else if bool_decide (0 < s) then PosInfinity else NegInfinity
  end.

(** [a < b] *)
Definition num_lt (a b : jsnum) : bool :=
  match a, b with
  | NaN, _ | _, NaN => false
  | Fin x, Fin y => bool_decide (x < y)
  | NegInfinity, NegInfinity => false
  | NegInfinity, _ => true
  | _, NegInfinity => false
  | PosInfinity, _ => false
  | _, PosInfinity => true
  | _, _ =>
      let '(p, q) := rational_of a in
      let '(r, s) := rational_of b in
      bool_decide (p * s < r * q)
  end.

(** [Math.min(a, b)] and [Math.max(a, b)] *)
Definition num_min (a b : jsnum) : jsnum :=
  match a, b with
  | NaN, _ | _, NaN => NaN
  | _, _ => if num_lt b a then b else a
  end.

Definition num_max (a b : jsnum) : jsnum :=
  match a, b with
  | NaN, _ | _, NaN => NaN
  | _, _ => if num_lt a b then b else a
  end.

(** [Math.ceil(n / d)] for integers [n] and [d]. *)
Definition ceil_div (n d : Z) : jsnum :=
  if bool_decide (d = 0) then
    if bool_decide (n = 0) then NaN
    else if bool_decide (0 < n) then PosInfinity else NegInfinity
  else Fin (- ((- n) / d)).

(** An argument of [Array.prototype.slice] as an index into an
    array of [len] elements; a fraction is dropped first. *)
Definition relative_index (len : Z) (i : jsnum) : Z :=
  match i with
  | NaN => 0
  | NegInfinity => 0
  | PosInfinity => len
  | Fin z => if bool_decide (z < 0) then Z.max (len + z) 0 else Z.min z len
  | Frac m e =>
      let z := Z.quot m (2 ^ Zpos e) in
      if bool_decide (z < 0) then Z.max (len + z) 0 else Z.min z len
  end.

(** [l.slice(first, last)] *)
Definition slice {T} (l : list T) (first last : jsnum) : list T :=
  let len := Z.of_nat (length l) in
  let k := relative_index len first in
  let final := relative_index len last in
  take (Z.to_nat (final - k)) (drop (Z.to_nat k) l).

Section Paginated.
Context {T : Type}.

(** The hook: its arguments and its state cell. *)
Record Hook : Type := {
  items : list T;
  itemsPerPage : Z;
  currentPage : jsnum;
}.

Definition usePaginatedData (items : list T) (itemsPerPage : option Z) : Hook :=
  {| items := items; itemsPerPage := default 10 itemsPerPage; currentPage := Fin 1 |}.

(** A render with another array. *)
Definition rerender (items' : list T) (h : Hook) : Hook :=
  {| items := items'; itemsPerPage := itemsPerPage h; currentPage := currentPage h |}.

Definition totalPages (h : Hook) : jsnum :=
  ceil_div (Z.of_nat (length (items h))) (itemsPerPage h).

Definition startIndex (h : Hook) : jsnum :=
  num_mul (num_add (currentPage h) (Fin (-1))) (Fin (itemsPerPage h)).

Definition endIndex (h : Hook) : jsnum := num_add (startIndex h) (Fin (itemsPerPage h)).

Definition currentItems (h : Hook) : list T := slice (items h) (startIndex h) (endIndex h).

Definition goToPage (page : jsnum) (h : Hook) : Hook :=
  let validPage := num_max (Fin 1) (num_min page (totalPages h)) in
  {| items := items h; itemsPerPage := itemsPerPage h; currentPage := validPage |}.

Definition nextPage (h : Hook) : Hook := goToPage (num_add (currentPage h) (Fin 1)) h.

Definition prevPage (h : Hook) : Hook := goToPage (num_add (currentPage h) (Fin (-1))) h.

Definition hasNextPage (h : Hook) : bool := num_lt (currentPage h) (totalPages h).

Definition hasPrevPage (h : Hook) : bool := num_lt (Fin 1) (currentPage h).

Inductive Op : Type :=
  | GoToPage (page : jsnum)
  | NextPage
  | PrevPage.

Definition step (h : Hook) (op : Op) : Hook :=
  match op with
  | GoToPage page => goToPage page h
  | NextPage => nextPage h
  | PrevPage => prevPage h
  end.

Definition run (ops : list Op) (h : Hook) : Hook := foldl step h ops.

(** A call that passes an integer or an infinity, if it passes a
    page at all. *)
Definition a_number (op : Op) : Prop :=
  match op with
  | GoToPage NaN | GoToPage (Frac _ _) => False
  | _ => True
  end.

End Paginated.

Arguments Hook : clear implicits.

End Pagination.

(** ** useLocalCache (src/hooks/useToggle.ts) *)

Module LocalCache.
Import JS WebStorage.
Import Async (Outcome, Resolved, Rejected).

(** [parseInt(s)] without a radix: leading white space is skipped, a
    sign is read, a prefix [0x] or [0X] selects base 16, and the longest
    run of digits that follows is the number, rounded to a double; NaN
    when there is none.  (Past the 20th significant digit the language
    leaves the rounding to the engine; here every digit counts.)

    The white space and the line terminators of the language, in the
    bytes of the string: U+0009 to U+000D and U+0020; U+00A0; U+1680,
    U+2000 to U+200A, U+2028, U+2029, U+202F, U+205F, U+3000 and U+FEFF. *)
Definition is_str_ws (c : ascii) : bool :=
  let n := N_of_ascii c in
  ((n =? 9) || (n =? 10) || (n =? 11) || (n =? 12) || (n =? 13) || (n =? 32))%N.

Definition is_str_ws2 (a b : ascii) : bool :=
  ((N_of_ascii a =? 194) && (N_of_ascii b =? 160))%N.

Definition is_str_ws3 (a b c : ascii) : bool :=
  let x := N_of_ascii a in
  let y := N_of_ascii b in
  let z := N_of_ascii c in
  (((x =? 225) && (y =? 154) && (z =? 128))
   || ((x =? 226) && (y =? 128) &&
       (((128 <=? z) && (z <=? 138)) || (z =? 168) || (z =? 169) || (z =? 175)))
   || ((x =? 226) && (y =? 129) && (z =? 159))
   || ((x =? 227) && (y =? 128) && (z =? 128))
   || ((x =? 239) && (y =? 187) && (z =? 191)))%N.

Fixpoint trim_start (s : string) : string :=
  match s with
  | String a r =>
      if is_str_ws a then trim_start r
      else
        match r with
        | String b r2 =>
            if is_str_ws2 a b then trim_start r2
            else
              match r2 with
              | String c r3 => if is_str_ws3 a b c then trim_start r3 else s
              | EmptyString => s
              end
        | EmptyString => s
        end
  | EmptyString => s
  end.

Fixpoint parse_hex (acc : N) (s : string) : N :=
  match s with
  | String c r =>
      match hex_of c with
      | Some d => parse_hex (acc * 16 + d) r
      | None => acc
      end
  | EmptyString => acc
  end.

(** The digits at the start of [s] in base 10 or 16; [None] when [s]
    does not start with a digit. *)
Definition leading_digits (hex : bool) (s : string) : option N :=
  match s with
  | String c _ =>
      if hex then
        match hex_of c with
        | Some _ => Some (parse_hex 0 s)
        | None => None
        end
      else
        match digit_of c with
        | Some _ => Some (fst (parse_digits 0 s))
        | None => None
        end
  | EmptyString => None
  end.

Definition parseInt (s : string) : jsnum :=
  let s := trim_start s in
  let signed :=
    match s with
    | String c r =>
        if Ascii.eqb c "-" then (true, r)
        else if Ascii.eqb c "+" then (false, r)
        else (false, s)
    | EmptyString => (false, s)
    end in
  let magnitude :=
    match snd signed with
    | String z (String x r) =>
        if (Ascii.eqb z "0" && (Ascii.eqb x "x" || Ascii.eqb x "X"))%bool
        then leading_digits true r
        else leading_digits false (snd signed)
    | other => leading_digits false other
    end in
  match magnitude with
  | Some n => number_of_rational (if fst signed then - Z.of_N n else Z.of_N n) 1
  | None => NaN
  end.

Section Engine.

(** The [QuotaExceededError] that [setItem] throws; it is an instance
    of [Error]. *)
Variable quota_error : ErrorObj.

(** The hook: its arguments and its three state cells. *)
Record Hook : Type := {
  key : string;
  ttl : Z;
  data : jsval;
  isLoading : bool;
  error : option ErrorObj;
}.

Definition useLocalCache (key : string) (ttl : option Z) : Hook :=
  {| key := key; ttl := default (5 * 60 * 1000) ttl; data := VNull; isLoading := true;
     error := None |}.

Definition cacheKey (h : Hook) : string := "cache_" +:+ key h.

Definition timestampKey (h : Hook) : string := "cache_" +:+ key h +:+ "_ts".

(** [Date.now() - stamp < ttl] for the clock reading [now]; between
    integers the arithmetic is that of the integers, as it is for doubles
    below [2^53] in size. *)
Definition younger (now : Z) (stamp : jsnum) (ttl : Z) : bool :=
  match stamp with
  | Fin t => bool_decide (now - t < ttl)
  | Frac m e => bool_decide ((now - ttl) * 2 ^ Zpos e < m)
  | PosInfinity => true
  | NegInfinity | NaN => false
  end.

(** The cached value [loadData] returns with: both items are there and
    not empty, the age is below [ttl], and the cached text parses. *)
Definition cache_hit (now : Z) (h : Hook) (st : Storage) : option jsval :=
  match getItem (cacheKey h) st, getItem (timestampKey h) st with
  | Some cached, Some timestamp =>
      if (truthy_string cached && truthy_string timestamp)%bool then
        if younger now (parseInt timestamp) (ttl h) then JS.parse cached else None
      else None
  | _, _ => None
  end.

(** [loadData()]: [now] is the clock when the cache is checked,
    [fetched] how [fetcher()] ends if it is called, and [later] the clock
    when the time stamp is written. *)
Definition loadData (now : Z) (fetched : Outcome) (later : Z) (h : Hook) (st : Storage) :
    Hook * Storage :=
  match cache_hit now h st with
  | Some value =>
      ({| key := key h; ttl := ttl h; data := value; isLoading := false; error := error h |},
       st)
  | None =>
      match fetched with
      | Resolved freshData =>
          let failed st' :=
            ({| key := key h; ttl := ttl h; data := freshData; isLoading := false;
                error := Some quota_error |}, st') in
          match setItem (cacheKey h) (DOMString (stringify freshData)) st with
          | Some st1 =>
              match setItem (timestampKey h) (number_to_string (Fin later)) st1 with
              | Some st2 =>
                  ({| key := key h; ttl := ttl h; data := freshData; isLoading := false;
                      error := None |}, st2)
              | None => failed st1
              end
          | None => failed st
          end
      | Rejected err =>
          ({| key := key h; ttl := ttl h; data := data h; isLoading := false;
              error := Some match err with
                            | VError e => e
                            | _ => new_Error "Unknown error"
                            end |}, st)
      end
  end.

(** [invalidate()] *)
Definition invalidate (now : Z) (fetched : Outcome) (later : Z) (h : Hook) (st : Storage) :
    Hook * Storage :=
  loadData now fetched later h (removeItem (timestampKey h) (removeItem (cacheKey h) st)).

End Engine.

End LocalCache.

(** ** useSimpleFormField and useLocalFilter (src/hooks/useToggle.ts) *)

Module SimpleFormField.
Import JS.

Section Field.
Context {T : Type}.

(** The hook: its arguments and its three state cells.  A validator
    returns a message or [null] ([None]). *)
Record Hook : Type := {
  initialValue : T;
  validator : option (T -> option string);
  value : T;
  error : option string;
  isTouched : bool;
}.

Definition useSimpleFormField (initialValue : T) (validator : option (T -> option string)) :
    Hook :=
  {| initialValue := initialValue; validator := validator; value := initialValue;
     error := None; isTouched := false |}.

Definition setValue (v : T) (h : Hook) : Hook :=
  {| initialValue := initialValue h; validator := validator h; value := v;
     error := error h; isTouched := isTouched h |}.

Definition setIsTouched (b : bool) (h : Hook) : Hook :=
  {| initialValue := initialValue h; validator := validator h; value := value h;
     error := error h; isTouched := b |}.

(** [!validationError] *)
Definition no_message (e : option string) : bool :=
  match e with
  | None => true
  | Some s => negb (truthy_string s)
  end.

Definition validate (h : Hook) : Hook * bool :=
  match validator h with
  | Some f =>
      let validationError := f (value h) in
      ({| initialValue := initialValue h; validator := validator h; value := value h;
          error := validationError; isTouched := isTouched h |},
       no_message validationError)
  | None => (h, true)
  end.

Definition handleBlur (h : Hook) : Hook := fst (validate (setIsTouched true h)).

Definition reset (h : Hook) : Hook :=
  {| initialValue := initialValue h; validator := validator h; value := initialValue h;
     error := None; isTouched := false |}.

(** The [error] the hook returns: [isTouched ? error : null]. *)
Definition shown_error (h : Hook) : option string :=
  if isTouched h then error h else None.

End Field.

Arguments Hook : clear implicits.

End SimpleFormField.

Module LocalFilter.
Import JS WebStorage LocalStorage.

Section Filter.
Context {T : Type}.

(** [useLocalFilter(items, filterKey, filterFunction)]: the storage
    hook behind [filterValue], and [filteredItems]. *)
Definition useLocalFilter (items : list T) (filterKey : string)
    (filterFunction : list T -> jsval -> list T) (w : Window) : Hook * list T :=
  let h := useLocalStorage filterKey (VStr EmptyString) w in
  (h, filterFunction items (storedValue h)).

End Filter.

End LocalFilter.

(** ** The demo page (src/pages/StateManagementDemo.tsx) *)

Module DemoPage.
Import Notification.
Import Async (Outcome, Resolved, Rejected).

(** The methods of [useNotificationActions]. *)
Definition notify (type : NotificationType) (host : Host) (message : string)
    (duration : option Z) (p : Provider) : Provider * string :=
  addNotification host message (Some type) duration p.

(** The page: the queue of the provider around it and its
    [useAsync(mockFetchData, false)]. *)
Record Page : Type := { provider : Provider; fetch : Async.Hook }.

Definition initial_page : Page := {| provider := initial; fetch := Async.mount |}.

(** A render of the component after its first.  [mockFetchData] is
    declared in the body of the component: every render passes another
    function to [useAsync], so [execute] changes and the effect of
    [useAsync] runs again. *)
Definition rerender (pg : Page) : Page :=
  {| provider := provider pg; fetch := Async.effect_rerun false (fetch pg) |}.

(** [handleFetchClick], up to its [await]: the notification, then
    [execute()] up to its [await]. *)
Definition handleFetchClick (host : Host) (pg : Page) : Page :=
  {| provider := fst (notify info host "Fetching data..." (Some 0) (provider pg));
     fetch := Async.execute_begin (fetch pg) |}.

(** A click on the fetch button.  The button is rendered with
    [disabled={isLoading}], and a disabled button dispatches no click.
    The state updates of the handler make React render the component
    again, before the promise of [mockFetchData] can settle. *)
Definition click (host : Host) (pg : Page) : Page :=
  if Async.isLoading (Async.state (fetch pg)) then pg
  else rerender (handleFetchClick host pg).

(** What happens on the page: the fetch button is clicked, time passes,
    the promise of [mockFetchData] settles, or the component renders again
    for another reason. *)
Inductive PageEvent : Type :=
  | FetchClick (host : Host)
  | TimePasses (dt : Z)
  | Settles (o : Outcome)
  | Rerender.

Definition page_step (pg : Page) (ev : PageEvent) : Page :=
  match ev with
  | FetchClick host => click host pg
  | TimePasses dt => {| provider := elapse dt (provider pg); fetch := fetch pg |}
  | Settles o => {| provider := provider pg; fetch := fst (Async.execute_settle o (fetch pg)) |}
  | Rerender => rerender pg
  end.

Definition page_run (evs : list PageEvent) (pg : Page) : Page :=
  foldl page_step pg evs.

(** Whether a trace has a click in it. *)
Definition clicked (evs : list PageEvent) : bool :=
  existsb (fun ev => match ev with FetchClick _ => true | _ => false end) evs.

End DemoPage.
(** * Properties *)

(** ** Two facts about [filter] *)

Lemma filter_none {A} (P : A → Prop) `{!∀ x, Decision (P x)} (l : list A) :
  Forall (fun x => ¬ P x) l → filter P l = [].
Proof.
  induction 1 as [|x l Hx _ IH]; [done|]. by rewrite filter_cons_False.
Qed.

Lemma filter_all {A} (P : A → Prop) `{!∀ x, Decision (P x)} (l : list A) :
  Forall P l → filter P l = l.
Proof.
  induction 1 as [|x l Hx _ IH]; [done|]. rewrite filter_cons_True by done. by rewrite IH.
Qed.

(** ** Decimal numerals *)

Section Decimal.
Import JS.

Lemma pretty_N_char_digit (x : N) : is_digit (pretty_N_char x).
Proof.
  unfold pretty_N_char. repeat case_match; vm_compute; eauto.
Qed.

Lemma pretty_N_go_digits (x : N) (s : string) :
  all_digits s → all_digits (pretty_N_go x s).
Proof.
  revert s. induction (N.lt_wf_0 x) as [x _ IH]; intros s Hs.
  destruct (decide (x = 0)%N) as [->|Hx]; [by rewrite pretty_N_go_0|].
  rewrite pretty_N_go_step by lia. apply IH.
  - apply N.div_lt; lia.
  - split; [apply pretty_N_char_digit|done].
Qed.

Lemma pretty_N_digits (x : N) : all_digits (pretty x).
Proof.
  unfold pretty, pretty_N. case_decide; [by vm_compute; eauto|].
  by apply pretty_N_go_digits.
Qed.

Lemma pretty_N_go_nonempty (x : N) (s : string) :
  (0 < x)%N → pretty_N_go x s ≠ EmptyString.
Proof.
  revert s. induction (N.lt_wf_0 x) as [x _ IH]; intros s Hx.
  rewrite pretty_N_go_step by done.
  destruct (decide (x `div` 10 = 0)%N) as [->|Hq]; [by rewrite pretty_N_go_0|].
  apply IH.
  - apply N.div_lt; lia.
  - apply N.neq_0_lt_0. done.
Qed.

Lemma pretty_N_nonempty (x : N) : pretty x ≠ EmptyString.
Proof.
  unfold pretty, pretty_N. case_decide; [done|]. apply pretty_N_go_nonempty. lia.
Qed.

(** A run of digits ends where the first other character stands. *)
Lemma digits_then_dash (a b s1 s2 : string) :
  all_digits a → all_digits b →
  a +:+ "-" +:+ s1 = b +:+ "-" +:+ s2 → a = b ∧ s1 = s2.
Proof.
  revert b. induction a as [|c a IH]; intros [|d b] Ha Hb Heq; simpl in *.
  - by injection Heq.
  - injection Heq as <- _. destruct Hb as [[? Hd] _]. by vm_compute in Hd.
  - injection Heq as -> _. destruct Ha as [[? Hd] _]. by vm_compute in Hd.
  - injection Heq as -> Heq. destruct Ha as [_ Ha], Hb as [_ Hb].
    destruct (IH b Ha Hb Heq) as [-> ->]. done.
Qed.

Lemma pretty_Z_then_dash (x y : Z) (s1 s2 : string) :
  pretty x +:+ "-" +:+ s1 = pretty y +:+ "-" +:+ s2 → x = y ∧ s1 = s2.
Proof.
  assert (Hhead : ∀ (n : N) t, ∃ c r, pretty n +:+ t = String c r ∧ is_digit c).
  { intros n t. pose proof (pretty_N_digits n) as Hn.
    pose proof (pretty_N_nonempty n) as Hne.
    destruct (pretty n) as [|c r]; [done|]. exists c, (r +:+ t). by destruct Hn. }
  assert (Hnat : ∀ (n m : N) t1 t2,
    pretty n +:+ "-" +:+ t1 = pretty m +:+ "-" +:+ t2 → n = m ∧ t1 = t2).
  { intros n m t1 t2 Heq.
    apply digits_then_dash in Heq as [Heq ->]; [|apply pretty_N_digits..].
    by apply (inj pretty) in Heq as ->. }
  assert (Hmix : ∀ (n m : N) t1 t2,
    pretty n +:+ t1 ≠ "-" +:+ pretty m +:+ t2).
  { intros n m t1 t2 Heq. destruct (Hhead n t1) as (c & r & Hc & [? Hd]).
    rewrite Hc in Heq. simpl in Heq. injection Heq as -> _. by vm_compute in Hd. }
  intros Heq. unfold pretty, pretty_Z in Heq.
  destruct x as [|p|p], y as [|q|q]; simpl in Heq;
    change (pretty_positive ?r) with (pretty (N.pos r)) in Heq;
    change "0" with (pretty 0%N) in Heq.
  - by injection Heq.
  - apply Hnat in Heq as [? ->]. done.
  - by apply Hmix in Heq.
  - apply Hnat in Heq as [? ->]. done.
  - apply Hnat in Heq as [[= ->] ->]. done.
  - by apply Hmix in Heq.
  - symmetry in Heq. by apply Hmix in Heq.
  - symmetry in Heq. by apply Hmix in Heq.
  - injection Heq as Heq. apply Hnat in Heq as [[= ->] ->]. done.
Qed.

End Decimal.

(** ** JSON: what is written is read back *)

Section JsonRoundTrip.
Import JS.

Lemma string_app_cons (c : ascii) (a b : string) : String c a +:+ b = String c (a +:+ b).
Proof. reflexivity. Qed.

Lemma string_app_assoc (a b c : string) : (a +:+ b) +:+ c = a +:+ (b +:+ c).
Proof. induction a as [|x a IH]; [done|]. by rewrite !string_app_cons, IH. Qed.

Lemma string_app_nil_r (a : string) : a +:+ EmptyString = a.
Proof. induction a as [|x a IH]; [done|]. by rewrite string_app_cons, IH. Qed.

Lemma string_length_app (a b : string) :
  String.length (a +:+ b) = (String.length a + String.length b)%nat.
Proof. induction a as [|x a IH]; [done|]. rewrite string_app_cons. simpl. by rewrite IH. Qed.

(** Induction on values, with the hypothesis for every element. *)
Lemma jsval_ind (P : jsval → Prop) :
  P VUndefined → P VNull → (∀ b, P (VBool b)) → (∀ n, P (VNum n)) → (∀ s, P (VStr s)) →
  (∀ elems, Forall P elems → P (VArr elems)) →
  (∀ props, Forall (fun p => P (snd p)) props → P (VObj props)) →
  (∀ e, P (VError e)) →
  ∀ v, P v.
Proof.
  intros Hu Hn Hb Hnum Hs Ha Ho He. fix IH 1. intros [| |b|n|s|elems|props|e].
  - exact Hu.
  - exact Hn.
  - apply Hb.
  - apply Hnum.
  - apply Hs.
  - apply Ha. induction elems as [|x elems IHl]; constructor; [apply IH|exact IHl].
  - apply Ho. induction props as [|[k x] props IHl]; constructor; [apply IH|exact IHl].
  - apply He.
Qed.

(** *** Strings *)

Lemma escape_char_parses (c : ascii) (t : string) :
  parse_string_body (escape_char c +:+ t)
  = match parse_string_body t with
    | Some (u, r) => Some (String c u, r)
    | None => None
    end.
Proof. destruct c as [[] [] [] [] [] [] [] []]; reflexivity. Qed.

Lemma trail_escape_raw (c : ascii) (t : string) :
  Ascii.eqb c backslash = false → trail_escape (String c t) = None.
Proof.
  intros Hc. unfold trail_escape.
  do 5 (destruct t as [|? t]; [done|]). by rewrite Hc.
Qed.

Lemma escape_char_no_trail (c : ascii) (t : string) :
  trail_escape (escape_char c +:+ t) = None.
Proof.
  destruct c as [[] [] [] [] [] [] [] []];
    try (apply trail_escape_raw; reflexivity);
    try reflexivity;
    by do 4 (destruct t as [|? t]; [done|]).
Qed.

Lemma raw_byte_parses (c : ascii) (t : string) :
  (128 <= N_of_ascii c)%N →
  parse_string_body (String c t)
  = match parse_string_body t with
    | Some (u, r) => Some (String c u, r)
    | None => None
    end.
Proof.
  destruct c as [[] [] [] [] [] [] [] []]; vm_compute N_of_ascii; intros Hc;
    first [reflexivity | exfalso; lia].
Qed.

Lemma hex_of_hex_digit (d : N) : (d < 16)%N → hex_of (hex_digit d) = Some d.
Proof.
  intros Hd.
  assert (d = 0 ∨ d = 1 ∨ d = 2 ∨ d = 3 ∨ d = 4 ∨ d = 5 ∨ d = 6 ∨ d = 7 ∨ d = 8 ∨ d = 9 ∨
          d = 10 ∨ d = 11 ∨ d = 12 ∨ d = 13 ∨ d = 14 ∨ d = 15)%N as Hcases by lia.
  repeat (destruct Hcases as [->|Hcases]; [reflexivity|]). by subst.
Qed.

Lemma code_unit_escape (u : N) :
  (u < 65536)%N →
  code_unit (hex_digit (u / 4096)) (hex_digit ((u / 256) mod 16))
    (hex_digit ((u / 16) mod 16)) (hex_digit (u mod 16)) = Some u.
Proof.
  intros Hu. unfold code_unit.
  rewrite !hex_of_hex_digit;
    [|apply N.mod_lt; lia|apply N.mod_lt; lia|apply N.mod_lt; lia|
     apply N.Div0.div_lt_upper_bound; lia].
  f_equal.
  pose proof (N.div_mod u 16 ltac:(lia)) as H1.
  pose proof (N.div_mod (u / 16) 16 ltac:(lia)) as H2.
  pose proof (N.div_mod (u / 256) 16 ltac:(lia)) as H3.
  rewrite !N.Div0.div_div in *.
  change (16 * 16)%N with 256%N in *. change (256 * 16)%N with 4096%N in *.
  lia.
Qed.

(** A surrogate is three bytes; [utf8] gives these bytes back. *)
Lemma surrogate_unit_bytes (b1 b2 b3 : ascii) (u : N) :
  surrogate_unit b1 b2 b3 = Some u →
  (55296 <= u < 57344)%N ∧ (128 <= N_of_ascii b1)%N ∧ (128 <= N_of_ascii b2)%N ∧
  (128 <= N_of_ascii b3)%N ∧
  utf8 u = String b1 (String b2 (String b3 EmptyString)).
Proof.
  unfold surrogate_unit.
  destruct (_ && _)%bool eqn:Hcond; [|done]. intros [= <-].
  repeat (apply andb_true_iff in Hcond as [Hcond ?]).
  apply N.eqb_eq in Hcond.
  repeat match goal with
         | H : (_ <=? _)%N = true |- _ => apply N.leb_le in H
         end.
  set (n2 := N_of_ascii b2) in *. set (n3 := N_of_ascii b3) in *.
  assert (∃ x y, n2 = 128 + x ∧ n3 = 128 + y ∧ 32 <= x < 64 ∧ y < 64)%N
    as (x & y & Hx & Hy & Hxr & Hyr) by (exists (n2 - 128)%N, (n3 - 128)%N; lia).
  split; [lia|]. split; [lia|]. split; [lia|]. split; [lia|].
  replace (53248 + (n2 - 128) * 64 + (n3 - 128))%N with (53248 + x * 64 + y)%N by lia.
  unfold utf8.
  rewrite (proj2 (N.ltb_ge _ _)) by lia. rewrite (proj2 (N.ltb_ge _ _)) by lia.
  rewrite (proj2 (N.ltb_lt _ _)) by lia.
  assert ((53248 + x * 64 + y) / 64 = 832 + x)%N as Hq.
  { symmetry. apply (N.div_unique _ 64 _ y); lia. }
  assert ((53248 + x * 64 + y) mod 64 = y)%N as Hr.
  { symmetry. apply (N.mod_unique _ 64 (832 + x) y); lia. }
  assert ((53248 + x * 64 + y) / 4096 = 13)%N as Hq2.
  { symmetry. apply (N.div_unique _ 4096 _ (x * 64 + y)); lia. }
  assert ((832 + x) mod 64 = x)%N as Hr2.
  { symmetry. apply (N.mod_unique _ 64 13 x); lia. }
  rewrite Hq, Hr, Hq2, Hr2.
  replace (224 + 13)%N with (N_of_ascii b1) by lia.
  replace (128 + x)%N with n2 by lia. replace (128 + y)%N with n3 by lia.
  unfold n2, n3. by rewrite !ascii_N_embedding.
Qed.

Lemma lead_or_trail (u : N) :
  (55296 <= u < 57344)%N → is_trail u = negb (is_lead u).
Proof.
  intros Hu. unfold is_trail, is_lead.
  destruct (decide (u < 56320)%N).
  - rewrite (proj2 (N.leb_le 55296 u)), (proj2 (N.ltb_lt u 56320)) by lia.
    by rewrite (proj2 (N.leb_gt 56320 u)) by lia.
  - rewrite (proj2 (N.ltb_ge u 56320)) by lia. rewrite andb_false_r.
    by rewrite (proj2 (N.leb_le 56320 u)), (proj2 (N.ltb_lt u 57344)) by lia.
Qed.

(** The parser at a [\u] escape. *)
Lemma parse_unicode_escape (h1 h2 h3 h4 : ascii) (r2 : string) :
  parse_string_body
    (String backslash (String "u" (String h1 (String h2 (String h3 (String h4 r2))))))
  = match code_unit h1 h2 h3 h4 with
    | Some n =>
        match (if is_lead n then
                 match trail_escape r2 with
                 | Some (l, r3) =>
                     Some (65536 + (n - 55296) * 1024 + (l - 56320), parse_string_body r3)%N
                 | None => None
                 end
               else None)
        with
        | Some (point, Some (t, rest)) => Some (utf8 point +:+ t, rest)
        | Some (_, None) => None
        | None =>
            match parse_string_body r2 with
            | Some (t, rest) => Some (utf8 n +:+ t, rest)
            | None => None
            end
        end
    | None => None
    end.
Proof.
  change (parse_string_body
            (String backslash (String "u" (String h1 (String h2 (String h3 (String h4 r2)))))))
    with (match code_unit h1 h2 h3 h4 with
          | Some n =>
              match
                (if is_lead n then
                   match r2 with
                   | String b (String u0 (String k1 (String k2 (String k3
                       (String k4 r3))))) =>
                       if (Ascii.eqb b backslash && Ascii.eqb u0 "u")%bool then
                         match code_unit k1 k2 k3 k4 with
                         | Some l =>
                             if is_trail l
                             then Some (65536 + (n - 55296) * 1024 + (l - 56320),
                                        parse_string_body r3)%N
                             else None
                         | None => None
                         end
                       else None
                   | _ => None
                   end
                 else None)
              with
              | Some (point, Some (t, rest)) => Some (utf8 point +:+ t, rest)
              | Some (_, None) => None
              | None =>
                  match parse_string_body r2 with
                  | Some (t, rest) => Some (utf8 n +:+ t, rest)
                  | None => None
                  end
              end
          | None => None
          end).
  destruct (code_unit h1 h2 h3 h4) as [n|]; [|done].
  destruct (is_lead n); [|done]. unfold trail_escape.
  destruct r2 as [|b [|u0 [|k1 [|k2 [|k3 [|k4 r3]]]]]]; try done.
  destruct (Ascii.eqb b backslash && Ascii.eqb u0 "u")%bool; [|done].
  destruct (code_unit k1 k2 k3 k4) as [l|]; [|done].
  by destruct (is_trail l).
Qed.

(** What the parser does with an escaped surrogate. *)
Lemma escape_unit_parses (u : N) (t : string) :
  (55296 <= u < 57344)%N → (is_lead u = true → trail_escape t = None) →
  parse_string_body (escape_unit u +:+ t)
  = match parse_string_body t with
    | Some (x, r) => Some (utf8 u +:+ x, r)
    | None => None
    end.
Proof.
  intros Hu Ht. unfold escape_unit. rewrite !string_app_cons.
  rewrite parse_unicode_escape, code_unit_escape by lia.
  change (EmptyString +:+ t) with t.
  destruct (is_lead u); [|done]. by rewrite Ht.
Qed.

Lemma escape_unit_trail (u : N) (t : string) :
  (u < 65536)%N → is_trail u = false → trail_escape (escape_unit u +:+ t) = None.
Proof.
  intros Hu Htrail. unfold escape_unit, trail_escape. rewrite !string_app_cons.
  change (Ascii.eqb backslash backslash && Ascii.eqb "u" "u")%bool with true. cbv iota.
  by rewrite code_unit_escape, Htrail.
Qed.

(** The start of a string that is not a trail surrogate. *)
Lemma quote_body_3 (b1 b2 b3 : ascii) (r3 : string) :
  quote_body (String b1 (String b2 (String b3 r3)))
  = match surrogate_unit b1 b2 b3 with
    | Some u =>
        match r3 with
        | String c1 (String c2 (String c3 r6)) =>
            match surrogate_unit c1 c2 c3 with
            | Some l =>
                if is_lead u && is_trail l
                then String b1 (String b2 (String b3
                       (String c1 (String c2 (String c3 (quote_body r6))))))
                else escape_unit u +:+ quote_body r3
            | None => escape_unit u +:+ quote_body r3
            end
        | _ => escape_unit u +:+ quote_body r3
        end
    | None => escape_char b1 +:+ quote_body (String b2 (String b3 r3))
    end.
Proof. reflexivity. Qed.

Lemma quote_body_parses_bounded (n : nat) (s rest : string) :
  (String.length s <= n)%nat →
  parse_string_body (quote_body s +:+ String dquote rest) = Some (s, rest) ∧
  (match s with
   | String b1 (String b2 (String b3 _)) =>
       match surrogate_unit b1 b2 b3 with
       | Some u => is_trail u = false
       | None => True
       end
   | _ => True
   end → trail_escape (quote_body s +:+ String dquote rest) = None).
Proof.
  revert s. induction n as [n IH] using lt_wf_ind. intros s Hlen.
  destruct s as [|b1 r1].
  { split; [done|]. intros _. by apply trail_escape_raw. }
  assert (Hplain : ∀ r, (String.length r < n)%nat →
            quote_body (String b1 r) = escape_char b1 +:+ quote_body r →
            parse_string_body (quote_body (String b1 r) +:+ String dquote rest)
              = Some (String b1 r, rest) ∧
            trail_escape (quote_body (String b1 r) +:+ String dquote rest) = None).
  { intros r Hr ->. rewrite string_app_assoc. split; [|apply escape_char_no_trail].
    rewrite escape_char_parses.
    by destruct (IH (String.length r) Hr r (Nat.le_refl _)) as [-> _]. }
  simpl in Hlen.
  destruct r1 as [|b2 [|b3 r3]].
  - destruct (Hplain EmptyString) as [? ?]; [simpl in *; lia|done|]. by split.
  - destruct (Hplain (String b2 EmptyString)) as [? ?]; [simpl in *; lia|done|]. by split.
  - rewrite quote_body_3. simpl in Hlen.
    destruct (surrogate_unit b1 b2 b3) as [u|] eqn:Hu.
    2:{ destruct (Hplain (String b2 (String b3 r3))) as [? ?]; [simpl in *; lia| |].
        - by rewrite quote_body_3, Hu.
        - rewrite quote_body_3, Hu in *. by split. }
    destruct (surrogate_unit_bytes _ _ _ _ Hu) as (Hrange & H1 & H2 & H3 & Hbytes).
    assert (Hescaped : (is_lead u = true →
                match r3 with
                | String c1 (String c2 (String c3 _)) =>
                    match surrogate_unit c1 c2 c3 with
                    | Some l => is_trail l = false
                    | None => True
                    end
                | _ => True
                end) →
              parse_string_body ((escape_unit u +:+ quote_body r3) +:+ String dquote rest)
                = Some (String b1 (String b2 (String b3 r3)), rest) ∧
              (is_trail u = false →
               trail_escape ((escape_unit u +:+ quote_body r3) +:+ String dquote rest) = None)).
    { intros Hnext. rewrite string_app_assoc.
      destruct (IH (String.length r3) ltac:(lia) r3 (Nat.le_refl _)) as [Hparse Htrail].
      split.
      - rewrite escape_unit_parses; [|done|intros Hlead; by apply Htrail, Hnext].
        by rewrite Hparse, Hbytes.
      - intros Hnot. apply escape_unit_trail; [lia|done]. }
    destruct r3 as [|c1 [|c2 [|c3 r6]]]; try (by apply Hescaped).
    destruct (surrogate_unit c1 c2 c3) as [l|] eqn:Hl; [|by apply Hescaped].
    destruct (is_lead u && is_trail l) eqn:Hpair.
    + destruct (surrogate_unit_bytes _ _ _ _ Hl) as (_ & G1 & G2 & G3 & _).
      simpl in Hlen. rewrite !string_app_cons. split.
      * rewrite !raw_byte_parses by done.
        by destruct (IH (String.length r6) ltac:(lia) r6 (Nat.le_refl _)) as [-> _].
      * intros _. apply trail_escape_raw.
        destruct b1 as [[] [] [] [] [] [] [] []]; try reflexivity; exfalso;
          vm_compute in H1; by apply H1.
    + apply Hescaped. intros Hlead. by rewrite Hlead in Hpair.
Qed.

Lemma quote_body_parses (s rest : string) :
  parse_string_body (quote_body s +:+ String dquote rest) = Some (s, rest).
Proof. by destruct (quote_body_parses_bounded (String.length s) s rest (Nat.le_refl _)). Qed.

(** *** Numerals *)

Lemma digit_of_pretty_N_char (m : N) : (m < 10)%N → digit_of (pretty_N_char m) = Some m.
Proof.
  intros Hm.
  assert (m = 0 ∨ m = 1 ∨ m = 2 ∨ m = 3 ∨ m = 4 ∨ m = 5 ∨ m = 6 ∨ m = 7 ∨ m = 8 ∨ m = 9)%N
    as Hcases by lia.
  repeat (destruct Hcases as [->|Hcases]; [reflexivity|]). by subst.
Qed.

Lemma parse_digits_pretty_N_go (x : N) (s : string) :
  parse_digits 0 (pretty_N_go x s) = parse_digits x s.
Proof.
  revert s. induction (N.lt_wf_0 x) as [x _ IH]; intros s.
  destruct (decide (x = 0)%N) as [->|Hx]; [by rewrite pretty_N_go_0|].
  rewrite pretty_N_go_step by lia. rewrite IH by (apply N.div_lt; lia).
  simpl. rewrite digit_of_pretty_N_char by (apply N.mod_lt; lia).
  f_equal. pose proof (N.div_mod x 10). lia.
Qed.

Lemma pretty_N_go_head (x : N) (s : string) :
  (0 < x)%N → ∃ c r d, pretty_N_go x s = String c r ∧ digit_of c = Some d ∧ d ≠ 0%N.
Proof.
  revert s. induction (N.lt_wf_0 x) as [x _ IH]; intros s Hx.
  rewrite pretty_N_go_step by done.
  destruct (decide (x `div` 10 = 0)%N) as [Hq|Hq].
  - rewrite Hq, pretty_N_go_0. eexists _, _, (x `mod` 10)%N. split; [done|].
    assert (x < 10)%N by (apply N.div_small_iff in Hq; lia).
    split; [apply digit_of_pretty_N_char; by apply N.mod_lt|].
    rewrite N.mod_small by done. lia.
  - apply IH; [apply N.div_lt; lia|]. by apply N.neq_0_lt_0.
Qed.

Lemma pretty_N_go_app (x : N) (s t : string) :
  pretty_N_go x s +:+ t = pretty_N_go x (s +:+ t).
Proof.
  revert s. induction (N.lt_wf_0 x) as [x _ IH]; intros s.
  destruct (decide (x = 0)%N) as [->|Hx]; [by rewrite !pretty_N_go_0|].
  rewrite (pretty_N_go_step x s), (pretty_N_go_step x (s +:+ t)) by lia.
  rewrite IH by (apply N.div_lt; lia). done.
Qed.

Lemma parse_digits_end (acc : N) (rest : string) :
  ends_numeral rest → parse_digits acc rest = (acc, rest).
Proof. destruct rest as [|c r]; [done|]. simpl. by intros [-> _]. Qed.

Lemma starts_fraction_end (rest : string) : ends_numeral rest → starts_fraction rest = false.
Proof. destruct rest as [|c r]; [done|]. by intros [_ ?]. Qed.

Lemma parse_int_positive (p : positive) (rest : string) :
  ends_numeral rest →
  ∃ c r, pretty (N.pos p) +:+ rest = String c r ∧ Ascii.eqb c "-" = false ∧
         is_ws c = false ∧ is_digit c ∧
         parse_int (String c r) = Some (N.pos p, rest).
Proof.
  intros Hrest. unfold pretty, pretty_N. rewrite decide_False by done.
  rewrite pretty_N_go_app. simpl.
  destruct (pretty_N_go_head (N.pos p) rest) as (c & r & d & Hgo & Hc & Hd); [done|].
  exists c, r. split; [done|].
  assert (parse_digits d r = (N.pos p, rest)) as Hdigits.
  { rewrite <- (parse_digits_end (N.pos p) rest Hrest).
    rewrite <- (parse_digits_pretty_N_go (N.pos p) rest), Hgo.
    simpl. by rewrite Hc. }
  unfold parse_int. rewrite Hc.
  split; [|split; [|split; [by exists d|]]].
  - destruct c as [[] [] [] [] [] [] [] []]; done.
  - destruct c as [[] [] [] [] [] [] [] []]; done.
  - destruct d; [done|]. by rewrite Hdigits.
Qed.

Lemma parse_fraction_end (rest : string) :
  ends_numeral rest → parse_fraction rest = Some (0%N, 0, rest).
Proof.
  destruct rest as [|c r]; [done|]. intros [_ Hc]. unfold parse_fraction.
  simpl in Hc. by destruct (Ascii.eqb c ".").
Qed.

Lemma parse_exponent_end (rest : string) :
  ends_numeral rest → parse_exponent rest = Some (0, rest).
Proof.
  destruct rest as [|c r]; [done|]. intros [_ Hc]. unfold parse_exponent.
  simpl in Hc. destruct (Ascii.eqb c "."); [done|]. simpl in Hc. by rewrite Hc.
Qed.

Lemma number_of_rational_integer (z : Z) :
  Z.abs z <= exact_limit → number_of_rational z 1 = Fin z.
Proof.
  intros Hz. unfold number_of_rational. rewrite Z.div_1_r, Z.mod_1_r.
  by rewrite bool_decide_eq_true_2.
Qed.

(** The number a numeral without fraction and exponent stands for. *)
Lemma numeral_value (negative : bool) (n : N) :
  Z.of_N n <= exact_limit →
  (let significand := Z.of_N n * 10 ^ 0 + Z.of_N 0 in
   let a := if negative then - significand else significand in
   let p := 0 - 0 in
   decimal_value a p)
  = Fin (if negative then - Z.of_N n else Z.of_N n).
Proof.
  intros Hn. cbv zeta. change (0 - 0) with 0. unfold decimal_value.
  rewrite bool_decide_eq_true_2 by done.
  rewrite Z.pow_0_r, !Z.mul_1_r, Z.add_0_r.
  apply number_of_rational_integer. destruct negative; lia.
Qed.

Lemma parse_number_pretty (z : Z) (rest : string) :
  Z.abs z <= exact_limit → ends_numeral rest →
  ∃ c r, pretty z +:+ rest = String c r ∧ is_ws c = false ∧
         (is_digit c ∨ c = "-"%char) ∧
         parse_number (String c r) = Some (VNum (Fin z), rest).
Proof.
  intros Hz Hrest. destruct z as [|p|p].
  - exists "0"%char, rest. split; [done|]. split; [done|]. split; [left; by eexists|].
    unfold parse_number. change (Ascii.eqb "0" "-") with false. cbn [fst snd].
    change (parse_int (String "0" rest)) with (Some (0%N, rest)). cbv iota beta.
    rewrite (parse_fraction_end rest Hrest), (parse_exponent_end rest Hrest).
    by do 2 f_equal.
  - destruct (parse_int_positive p rest Hrest) as (c & r & Htext & Hminus & Hws & Hdigit & Hint).
    exists c, r. split; [done|]. split; [done|]. split; [by left|].
    unfold parse_number. rewrite Hminus. cbn [fst snd]. rewrite Hint.
    rewrite (parse_fraction_end rest Hrest), (parse_exponent_end rest Hrest).
    refine (f_equal (fun x => Some (VNum x, rest)) (numeral_value false (N.pos p) _)).
    simpl. lia.
  - destruct (parse_int_positive p rest Hrest) as (c & r & Htext & Hminus & Hws & Hdigit & Hint).
    exists "-"%char, (String c r). split.
    { change (pretty (Z.neg p)) with ("-" +:+ pretty (N.pos p)).
      by rewrite string_app_assoc, Htext. }
    split; [done|]. split; [by right|].
    unfold parse_number. change (Ascii.eqb "-" "-") with true. cbn [fst snd].
    rewrite Hint. rewrite (parse_fraction_end rest Hrest), (parse_exponent_end rest Hrest).
    refine (f_equal (fun x => Some (VNum x, rest)) (numeral_value true (N.pos p) _)).
    simpl. lia.
Qed.

(** *** Doubles: the nearest double does not depend on how the
    fraction is written *)

Lemma from_pow2_shift (a b n K : Z) :
  0 < a → 0 < b → 0 <= K → 0 <= n + K →
  from_pow2 a b n = true ↔ b * 2 ^ (n + K) <= a * 2 ^ K.
Proof.
  intros Ha Hb HK HnK. unfold from_pow2.
  assert (0 < 2 ^ K) by (apply Z.pow_pos_nonneg; lia).
  case_bool_decide as Hn; rewrite bool_decide_eq_true.
  - rewrite Z.pow_add_r, Z.mul_assoc by lia. by apply Z.mul_le_mono_pos_r.
  - assert (0 < 2 ^ (n + K)) by (apply Z.pow_pos_nonneg; lia).
    replace K with (- n + (n + K)) at 2 by lia.
    rewrite (Z.pow_add_r 2 (- n) (n + K)), Z.mul_assoc by lia.
    by apply Z.mul_le_mono_pos_r.
Qed.

Lemma from_pow2_mono (a b n n' : Z) :
  0 < a → 0 < b → n' <= n → from_pow2 a b n = true → from_pow2 a b n' = true.
Proof.
  intros Ha Hb Hle Hn.
  set (K := Z.max 0 (- n')).
  apply (from_pow2_shift a b n K) in Hn; [|lia..].
  apply (from_pow2_shift a b n' K); [lia..|].
  etrans; [|exact Hn]. apply Z.mul_le_mono_nonneg_l; [lia|].
  apply Z.pow_le_mono_r; lia.
Qed.

Lemma from_pow2_scale (a b c n : Z) :
  0 < c → from_pow2 (a * c) (b * c) n = from_pow2 a b n.
Proof.
  intros Hc. unfold from_pow2. case_bool_decide; apply bool_decide_ext; nia.
Qed.

Lemma binary_exponent_spec (a b : Z) :
  0 < a → 0 < b →
  from_pow2 a b (binary_exponent a b) = true ∧
  from_pow2 a b (binary_exponent a b + 1) = false.
Proof.
  intros Ha Hb. unfold binary_exponent.
  pose proof (Z.log2_spec a Ha) as [Ha1 Ha2].
  pose proof (Z.log2_spec b Hb) as [Hb1 Hb2].
  pose proof (Z.log2_nonneg a) as Hla. pose proof (Z.log2_nonneg b) as Hlb.
  set (la := Z.log2 a) in *. set (lb := Z.log2 b) in *.
  rewrite <- Z.add_1_r in Ha2, Hb2.
  destruct (from_pow2 a b (la - lb)) eqn:Htest.
  - split; [done|]. apply not_true_is_false. intros Hup.
    set (K := Z.max 0 (lb - la)).
    apply (from_pow2_shift a b (la - lb + 1) K) in Hup; [|lia..].
    assert (0 < 2 ^ K) by (apply Z.pow_pos_nonneg; lia).
    assert (2 ^ lb * 2 ^ (la - lb + 1 + K) <= b * 2 ^ (la - lb + 1 + K)).
    { apply Z.mul_le_mono_nonneg_r; [|done]. apply Z.pow_nonneg. lia. }
    assert (a * 2 ^ K < 2 ^ (la + 1) * 2 ^ K) by nia.
    rewrite <- !Z.pow_add_r in * by lia.
    replace (lb + (la - lb + 1 + K)) with (la + 1 + K) in * by lia. lia.
  - split; [|by replace (la - lb - 1 + 1) with (la - lb) by lia].
    set (K := Z.max 0 (lb - la + 1)).
    apply (from_pow2_shift a b (la - lb - 1) K); [lia..|].
    assert (0 < 2 ^ K) by (apply Z.pow_pos_nonneg; lia).
    assert (0 < 2 ^ (la - lb - 1 + K)) by (apply Z.pow_pos_nonneg; lia).
    assert (b * 2 ^ (la - lb - 1 + K) < 2 ^ (lb + 1) * 2 ^ (la - lb - 1 + K)) by nia.
    assert (2 ^ la * 2 ^ K <= a * 2 ^ K) by nia.
    rewrite <- !Z.pow_add_r in * by lia.
    replace (lb + 1 + (la - lb - 1 + K)) with (la + K) in * by lia. lia.
Qed.

Lemma binary_exponent_unique (a b E : Z) :
  0 < a → 0 < b →
  from_pow2 a b E = true → from_pow2 a b (E + 1) = false → binary_exponent a b = E.
Proof.
  intros Ha Hb H1 H2. destruct (binary_exponent_spec a b Ha Hb) as [H3 H4].
  destruct (Z.lt_trichotomy (binary_exponent a b) E) as [Hlt|[?|Hgt]]; [|done|].
  - rewrite (from_pow2_mono a b E (binary_exponent a b + 1)) in H4; [done|done..|lia|done].
  - rewrite (from_pow2_mono a b (binary_exponent a b) (E + 1)) in H2; [done|done..|lia|done].
Qed.

Lemma binary_exponent_scale (a b c : Z) :
  0 < a → 0 < b → 0 < c → binary_exponent (a * c) (b * c) = binary_exponent a b.
Proof.
  intros Ha Hb Hc. destruct (binary_exponent_spec a b Ha Hb) as [H1 H2].
  apply binary_exponent_unique; [nia|nia|..]; by rewrite from_pow2_scale.
Qed.

Lemma round_half_even_scale (n d c : Z) :
  0 < d → 0 < c → round_half_even (n * c) (d * c) = round_half_even n d.
Proof.
  intros Hd Hc. unfold round_half_even.
  rewrite Z.div_mul_cancel_r by lia. rewrite Z.mul_mod_distr_r by lia.
  rewrite (bool_decide_ext (2 * (n mod d * c) < d * c) (2 * (n mod d) < d)) by nia.
  by rewrite (bool_decide_ext (d * c < 2 * (n mod d * c)) (d < 2 * (n mod d))) by nia.
Qed.

Lemma nearest_scale (a b c : Z) :
  0 < a → 0 < b → 0 < c → nearest (a * c) (b * c) = nearest a b.
Proof.
  intros Ha Hb Hc. unfold nearest. rewrite binary_exponent_scale by done.
  set (e := Z.max (binary_exponent a b - 52) (-1074)). f_equal.
  case_bool_decide.
  - replace (b * c * 2 ^ e) with (b * 2 ^ e * c) by lia.
    apply round_half_even_scale; [|done]. assert (0 < 2 ^ e) by (apply Z.pow_pos_nonneg; lia).
    nia.
  - replace (a * c * 2 ^ (- e)) with (a * 2 ^ (- e) * c) by lia.
    by apply round_half_even_scale.
Qed.

Lemma number_of_rational_scale (a b c : Z) :
  0 < b → 0 < c → number_of_rational (a * c) (b * c) = number_of_rational a b.
Proof.
  intros Hb Hc. unfold number_of_rational.
  rewrite Z.div_mul_cancel_r by lia. rewrite Z.mul_mod_distr_r by lia.
  rewrite (bool_decide_ext (a mod b * c = 0 ∧ Z.abs (a / b) <= exact_limit)
             (a mod b = 0 ∧ Z.abs (a / b) <= exact_limit)) by nia.
  case_bool_decide as Hexact; [done|].
  assert (a ≠ 0) as Ha.
  { intros ->. apply Hexact. rewrite Z.mod_0_l, Z.div_0_l by lia. by split. }
  rewrite Z.abs_mul, (Z.abs_eq c) by lia.
  rewrite nearest_scale by lia.
  by rewrite (bool_decide_ext (a * c < 0) (a < 0)) by nia.
Qed.

(** *** Doubles: a double is the double nearest to its own value *)

Lemma pos_iter_xO (a : positive) (j : nat) :
  Zpos (Nat.iter j xO a) = Zpos a * 2 ^ Z.of_nat j.
Proof.
  induction j as [|j IH]; [simpl; lia|].
  rewrite Nat2Z.inj_succ, Z.pow_succ_r by lia. simpl Nat.iter.
  rewrite Pos2Z.inj_xO, IH. lia.
Qed.

Lemma reduce_shift (a : positive) (j : nat) (k : positive) :
  (∀ q, a ≠ xO q) → Z.of_nat j < Zpos k →
  reduce (Nat.iter j xO a) k = (a, Npos (Z.to_pos (Zpos k - Z.of_nat j))).
Proof.
  intros Hodd. revert k. induction j as [|j IH]; intros k Hk.
  - simpl. destruct a; try done. by destruct (Hodd a).
  - simpl Nat.iter. simpl reduce. destruct k as [k|k|]; [..|lia].
    + rewrite IH by lia. do 2 f_equal. lia.
    + rewrite IH by lia. do 2 f_equal. lia.
Qed.

Lemma odd_abs (m : Z) : Z.odd (Z.abs m) = Z.odd m.
Proof. by destruct m as [|[]|[]]. Qed.

Lemma odd_not_multiple (m : Z) (e : positive) : Z.odd m = true → m mod 2 ^ Zpos e ≠ 0.
Proof.
  intros Hodd Hmod.
  assert ((2 | 2 ^ Z.pos e)) as Hdiv.
  { exists (2 ^ (Z.pos e - 1)). replace (Z.pos e) with (Z.succ (Z.pos e - 1)) at 1 by lia.
    rewrite Z.pow_succ_r by lia. lia. }
  assert (0 < 2 ^ Z.pos e) by (apply Z.pow_pos_nonneg; lia).
  apply Z.mod_divide in Hmod; [|lia].
  destruct (Z.divide_trans _ _ _ Hdiv Hmod) as [k ->].
  rewrite Z.odd_mul in Hodd. simpl in Hodd. by rewrite andb_false_r in Hodd.
Qed.

Lemma binary_exponent_pow2 (a e : Z) :
  0 < a → 0 <= e → binary_exponent a (2 ^ e) = Z.log2 a - e.
Proof.
  intros Ha He. pose proof (Z.log2_spec a Ha) as [Ha1 Ha2].
  pose proof (Z.log2_nonneg a) as Hla.
  assert (0 < 2 ^ e) by (apply Z.pow_pos_nonneg; lia).
  apply binary_exponent_unique; [done|done|..].
  - apply (from_pow2_shift a (2 ^ e) (Z.log2 a - e) e); [lia..|].
    replace (Z.log2 a - e + e) with (Z.log2 a) by lia. nia.
  - apply not_true_is_false. intros Hup.
    apply (from_pow2_shift a (2 ^ e) (Z.log2 a - e + 1) e) in Hup; [|lia..].
    replace (Z.log2 a - e + 1 + e) with (Z.succ (Z.log2 a)) in Hup by lia. nia.
Qed.

Lemma round_half_even_exact (q d : Z) : 0 < d → round_half_even (q * d) d = q.
Proof.
  intros Hd. unfold round_half_even. rewrite Z.div_mul, Z.mod_mul by lia.
  by rewrite bool_decide_eq_true_2 by lia.
Qed.

Lemma log2_below (a n : Z) : 0 < a → 0 <= n → a < 2 ^ n → Z.log2 a < n.
Proof. intros Ha Hn Hlt. by apply Z.log2_lt_pow2. Qed.

(** A number with a fraction. *)
Lemma number_of_fraction (m : Z) (e : positive) :
  Z.odd m = true → Z.abs m < exact_limit → Zpos e <= 1074 →
  number_of_rational m (2 ^ Zpos e) = Frac m e.
Proof.
  intros Hodd Hm He. unfold number_of_rational.
  rewrite bool_decide_eq_false_2 by (intros [Hmod _]; by apply (odd_not_multiple m e)).
  assert (m ≠ 0) as Hm0 by (by intros ->).
  assert (0 < Z.abs m) as Ha by lia.
  unfold nearest. rewrite binary_exponent_pow2 by lia.
  pose proof (log2_below (Z.abs m) 53 Ha ltac:(lia) Hm) as Hlog.
  pose proof (Z.log2_nonneg (Z.abs m)) as Hlog0.
  set (e' := Z.max (Z.log2 (Z.abs m) - Z.pos e - 52) (-1074)).
  assert (e' <= - Zpos e) as He' by lia.
  rewrite (bool_decide_eq_false_2 (0 <= e')) by lia.
  set (j := - e' - Zpos e).
  assert (Z.abs m * 2 ^ (- e') = Z.abs m * 2 ^ j * 2 ^ Zpos e) as ->.
  { rewrite <- Z.mul_assoc, <- Z.pow_add_r by lia. do 2 f_equal. lia. }
  rewrite round_half_even_exact by (apply Z.pow_pos_nonneg; lia).
  unfold dyadic. rewrite (bool_decide_eq_false_2 (0 <= e')) by lia.
  destruct (Z.abs m) as [|a|a] eqn:Habs; [lia| |lia].
  assert (∀ q, a ≠ xO q) as Hodd'.
  { intros q ->. assert (Z.odd (Z.abs m) = true) as Hab by (by rewrite odd_abs).
    rewrite Habs in Hab. done. }
  assert (Z.pos a * 2 ^ j = Zpos (Nat.iter (Z.to_nat j) xO a)) as ->.
  { rewrite pos_iter_xO, Z2Nat.id by lia. done. }
  rewrite reduce_shift by (try done; rewrite Z2Nat.id, Z2Pos.id by lia; lia).
  rewrite Z2Nat.id, Z2Pos.id by lia.
  replace (Z.to_pos (- e' - j)) with e by lia.
  f_equal. case_bool_decide; lia.
Qed.

(** An integer past [2^53]. *)
Lemma number_of_big_integer (z : Z) :
  exact_limit < Z.abs z → Z.abs z < 2 ^ 1024 →
  Z.abs z mod 2 ^ (Z.log2 (Z.abs z) - 52) = 0 →
  number_of_rational z 1 = Fin z.
Proof.
  intros Hbig Hmax Hbits. unfold number_of_rational.
  rewrite Z.div_1_r, bool_decide_eq_false_2 by lia.
  assert (0 < Z.abs z) as Ha by (unfold exact_limit in Hbig; lia).
  unfold nearest.
  change (binary_exponent (Z.abs z) 1) with (binary_exponent (Z.abs z) (2 ^ 0)).
  rewrite binary_exponent_pow2 by lia.
  rewrite Z.sub_0_r.
  assert (53 <= Z.log2 (Z.abs z)) as Hlog.
  { apply (proj1 (Z.log2_le_pow2 (Z.abs z) 53 Ha)). unfold exact_limit in Hbig. lia. }
  rewrite Z.max_l by lia. set (e := Z.log2 (Z.abs z) - 52) in *.
  rewrite (bool_decide_eq_true_2 (0 <= e)) by lia. rewrite Z.mul_1_l.
  assert (0 < 2 ^ e) as Hpow by (apply Z.pow_pos_nonneg; lia).
  apply Z.div_exact in Hbits; [|lia].
  set (q := Z.abs z / 2 ^ e) in *.
  rewrite Hbits at 1. rewrite (Z.mul_comm (2 ^ e) q), round_half_even_exact by done.
  unfold dyadic. rewrite (bool_decide_eq_true_2 (0 <= e)) by lia.
  rewrite (Z.mul_comm q), <- Hbits.
  rewrite (bool_decide_eq_false_2 (2 ^ 1024 <= Z.abs z)) by lia.
  f_equal. case_bool_decide; lia.
Qed.

(** A double is the Number value of its own value. *)
Lemma number_of_double (x : jsnum) :
  is_double x = true →
  number_of_rational (fst (rational_of x)) (snd (rational_of x)) = x.
Proof.
  destruct x as [| | |z|m e]; try done; simpl.
  - intros [Hsmall|[Hmax Hbits]%andb_true_iff]%orb_true_iff.
    + apply number_of_rational_integer. by apply bool_decide_eq_true in Hsmall.
    + apply bool_decide_eq_true in Hmax, Hbits.
      destruct (decide (Z.abs z <= exact_limit)); [by apply number_of_rational_integer|].
      apply number_of_big_integer; [lia|done..].
  - intros [[Hodd Hm%bool_decide_eq_true]%andb_true_iff He%bool_decide_eq_true]%andb_true_iff.
    by apply number_of_fraction.
Qed.

Lemma is_double_negate (x : jsnum) : is_double (negate x) = is_double x.
Proof.
  destruct x as [| | |z|m e]; try done; simpl.
  - by rewrite Z.abs_opp.
  - by rewrite Z.abs_opp, Z.odd_opp.
Qed.

Lemma negate_involutive (x : jsnum) : negate (negate x) = x.
Proof. destruct x; simpl; by rewrite ?Z.opp_involutive. Qed.

Lemma dyadic_negative (m e : Z) : dyadic true m e = negate (dyadic false m e).
Proof.
  unfold dyadic. case_bool_decide.
  - by case_bool_decide.
  - destruct m as [|p|p]; [done| |done]. by destruct (reduce p (Z.to_pos (- e))) as [p' [|k]].
Qed.

Lemma number_of_rational_opp (a b : Z) :
  0 < b → a ≠ 0 → number_of_rational (- a) b = negate (number_of_rational a b).
Proof.
  intros Hb Ha. unfold number_of_rational.
  assert ((- a) mod b = 0 ↔ a mod b = 0) as Hmod.
  { rewrite !Z.mod_divide by lia. split; intros [k Hk]; exists (- k); lia. }
  destruct (decide (a mod b = 0)) as [Hdiv|Hdiv].
  - rewrite Z.div_opp_l_z by lia. rewrite Z.abs_opp.
    rewrite (bool_decide_ext ((- a) mod b = 0 ∧ Z.abs (a / b) <= exact_limit)
               (a mod b = 0 ∧ Z.abs (a / b) <= exact_limit)) by tauto.
    case_bool_decide; [done|]. rewrite Z.abs_opp.
    destruct (nearest (Z.abs a) b) as [m e].
    destruct (decide (a < 0)).
    + rewrite (bool_decide_eq_false_2 (- a < 0)), (bool_decide_eq_true_2 (a < 0)) by lia.
      by rewrite dyadic_negative, negate_involutive.
    + rewrite (bool_decide_eq_true_2 (- a < 0)), (bool_decide_eq_false_2 (a < 0)) by lia.
      apply dyadic_negative.
  - rewrite (bool_decide_eq_false_2 ((- a) mod b = 0 ∧ _)) by tauto.
    rewrite (bool_decide_eq_false_2 (a mod b = 0 ∧ _)) by tauto. rewrite Z.abs_opp.
    destruct (nearest (Z.abs a) b) as [m e].
    destruct (decide (a < 0)).
    + rewrite (bool_decide_eq_false_2 (- a < 0)), (bool_decide_eq_true_2 (a < 0)) by lia.
      by rewrite dyadic_negative, negate_involutive.
    + rewrite (bool_decide_eq_true_2 (- a < 0)), (bool_decide_eq_false_2 (a < 0)) by lia.
      apply dyadic_negative.
Qed.

(** *** Number::toString: the digits are read back as the number *)

Lemma all_digits_value (a e : Z) :
  0 < a → 0 <= e →
  decimal_value (a * 5 ^ e) (- e) = number_of_rational a (2 ^ e).
Proof.
  intros Ha He. unfold decimal_value. case_bool_decide as Hsign.
  - assert (e = 0) as -> by lia. simpl. by rewrite !Z.mul_1_r.
  - rewrite Z.opp_involutive. replace 10 with (2 * 5) by done.
    rewrite Z.pow_mul_l. apply number_of_rational_scale; apply Z.pow_pos_nonneg; lia.
Qed.

Lemma shortest_from_reads (fuel : nat) (k n a e : Z) :
  0 < a → 0 <= e →
  0 < fst (shortest_from fuel k n a (2 ^ e)) ∧
  decimal_value (fst (shortest_from fuel k n a (2 ^ e))) (snd (shortest_from fuel k n a (2 ^ e)))
  = number_of_rational a (2 ^ e).
Proof.
  intros Ha He. assert (0 < 2 ^ e) as Hb by (apply Z.pow_pos_nonneg; lia).
  revert k. induction fuel as [|fuel IH]; intros k.
  - simpl.
    set (lo := if bool_decide (0 <= n - k) then a / (2 ^ e * 10 ^ (n - k))
               else a * 10 ^ (- (n - k)) / 2 ^ e).
    assert (0 <= lo) as Hlo0.
    { subst lo. case_bool_decide.
      - apply Z.div_pos; [lia|]. assert (0 < 10 ^ (n - k)) by (apply Z.pow_pos_nonneg; lia). nia.
      - apply Z.div_pos; [|done]. assert (0 < 10 ^ (- (n - k))) by (apply Z.pow_pos_nonneg; lia).
        nia. }
    destruct (bool_decide (0 < lo) && reads_back lo (n - k) a (2 ^ e)) eqn:Hlo;
      destruct (reads_back (lo + 1) (n - k) a (2 ^ e)) eqn:Hhi; simpl.
    + apply andb_true_iff in Hlo as [Hpos%bool_decide_eq_true Hlo%bool_decide_eq_true].
      apply bool_decide_eq_true in Hhi.
      destruct (if bool_decide (0 <= n - k)
                then 2 * a ?= (lo + (lo + 1)) * 10 ^ (n - k) * 2 ^ e
                else 2 * a * 10 ^ (- (n - k)) ?= (lo + (lo + 1)) * 2 ^ e);
        [destruct (Z.even lo)|..]; simpl; (split; [lia|done]).
    + apply andb_true_iff in Hlo as [Hpos%bool_decide_eq_true Hlo%bool_decide_eq_true].
      by split.
    + apply bool_decide_eq_true in Hhi. split; [lia|done].
    + rewrite Z.log2_pow2 by done. split.
      * assert (0 < 5 ^ e) by (apply Z.pow_pos_nonneg; lia). nia.
      * by apply all_digits_value.
  - simpl.
    set (lo := if bool_decide (0 <= n - k) then a / (2 ^ e * 10 ^ (n - k))
               else a * 10 ^ (- (n - k)) / 2 ^ e).
    assert (0 <= lo) as Hlo0.
    { subst lo. case_bool_decide.
      - apply Z.div_pos; [lia|]. assert (0 < 10 ^ (n - k)) by (apply Z.pow_pos_nonneg; lia). nia.
      - apply Z.div_pos; [|done]. assert (0 < 10 ^ (- (n - k))) by (apply Z.pow_pos_nonneg; lia).
        nia. }
    destruct (bool_decide (0 < lo) && reads_back lo (n - k) a (2 ^ e)) eqn:Hlo;
      destruct (reads_back (lo + 1) (n - k) a (2 ^ e)) eqn:Hhi; simpl.
    + apply andb_true_iff in Hlo as [Hpos%bool_decide_eq_true Hlo%bool_decide_eq_true].
      apply bool_decide_eq_true in Hhi.
      destruct (if bool_decide (0 <= n - k)
                then 2 * a ?= (lo + (lo + 1)) * 10 ^ (n - k) * 2 ^ e
                else 2 * a * 10 ^ (- (n - k)) ?= (lo + (lo + 1)) * 2 ^ e);
        [destruct (Z.even lo)|..]; simpl; (split; [lia|done]).
    + apply andb_true_iff in Hlo as [Hpos%bool_decide_eq_true Hlo%bool_decide_eq_true].
      by split.
    + apply bool_decide_eq_true in Hhi. split; [lia|done].
    + apply IH.
Qed.

Lemma strip_zeros_reads (fuel : nat) (s p : Z) :
  0 < s →
  0 < fst (strip_zeros fuel s p) ∧
  decimal_value (fst (strip_zeros fuel s p)) (snd (strip_zeros fuel s p)) = decimal_value s p.
Proof.
  revert s p. induction fuel as [|fuel IH]; intros s p Hs; [done|].
  simpl. case_bool_decide as Hten; [|done]. destruct Hten as [_ Hten].
  apply Z.div_exact in Hten; [|lia].
  assert (0 < s / 10) as Hq by lia.
  destruct (IH (s / 10) (p + 1) Hq) as [Hpos Hval]. split; [done|]. rewrite Hval.
  unfold decimal_value. set (q := s / 10) in *.
  destruct (decide (0 <= p)) as [Hp|Hp].
  - rewrite !bool_decide_eq_true_2 by lia. f_equal.
    rewrite Z.pow_add_r by lia. lia.
  - rewrite (bool_decide_eq_false_2 (0 <= p)) by lia.
    destruct (decide (p = -1)) as [->|Hp1].
    + rewrite (bool_decide_eq_true_2 (0 <= -1 + 1)) by lia.
      change (q * 10 ^ (-1 + 1)) with (q * 1). rewrite Z.mul_1_r.
      change (10 ^ (- -1)) with (1 * 10).
      assert (s = q * 10) as Hs10 by lia. rewrite Hs10 at 1.
      by rewrite number_of_rational_scale.
    + rewrite bool_decide_eq_false_2 by lia.
      assert (s = q * 10) as Hs10 by lia. rewrite Hs10 at 1.
      replace (- p) with (- (p + 1) + 1) by lia. rewrite Z.pow_add_r by lia.
      rewrite Z.pow_1_r. rewrite number_of_rational_scale; [done| |lia].
      apply Z.pow_pos_nonneg; lia.
Qed.

(** The digits [Number::toString] works with are a decimal that is read
    as the number. *)
Lemma shortest_digits_read (a e : Z) :
  0 < a → 0 <= e →
  let '(s0, p0) := shortest_decimal a (2 ^ e) in
  let '(s, p) := strip_zeros 800 s0 p0 in
  0 < s ∧ decimal_value s p = number_of_rational a (2 ^ e).
Proof.
  intros Ha He. unfold shortest_decimal.
  pose proof (shortest_from_reads 800 1 (decimal_exponent a (2 ^ e)) a e Ha He) as [Hs Hv].
  destruct (shortest_from 800 1 (decimal_exponent a (2 ^ e)) a (2 ^ e)) as [s0 p0].
  pose proof (strip_zeros_reads 800 s0 p0 Hs) as [Hs' Hv'].
  destruct (strip_zeros 800 s0 p0) as [s p]. simpl in *. split; [done|]. by rewrite Hv'.
Qed.

(** *** Runs of digits *)

Lemma parse_digits_app (acc : N) (u rest : string) :
  all_digits u → parse_digits acc (u +:+ rest) = parse_digits (fst (parse_digits acc u)) rest.
Proof.
  revert acc. induction u as [|c u IH]; intros acc Hu; [done|].
  destruct Hu as [[d Hd] Hu]. rewrite string_app_cons. simpl. rewrite Hd. by apply IH.
Qed.

Lemma parse_digits_counted_app (acc : N) (len : Z) (u rest : string) :
  all_digits u →
  parse_digits_counted acc len (u +:+ rest)
  = parse_digits_counted (fst (parse_digits acc u)) (len + Z.of_nat (String.length u)) rest.
Proof.
  revert acc len. induction u as [|c u IH]; intros acc len Hu.
  - simpl. by rewrite Z.add_0_r.
  - destruct Hu as [[d Hd] Hu]. rewrite string_app_cons. simpl. rewrite Hd.
    rewrite IH by done. f_equal. lia.
Qed.

Lemma parse_digits_stop (acc : N) (c : ascii) (r : string) :
  digit_of c = None → parse_digits acc (String c r) = (acc, String c r).
Proof. intros Hc. simpl. by rewrite Hc. Qed.

Lemma parse_digits_counted_stop (acc : N) (len : Z) (c : ascii) (r : string) :
  digit_of c = None → parse_digits_counted acc len (String c r) = (acc, len, String c r).
Proof. intros Hc. simpl. by rewrite Hc. Qed.

Lemma parse_digits_counted_end (acc : N) (len : Z) (rest : string) :
  ends_numeral rest → parse_digits_counted acc len rest = (acc, len, rest).
Proof. destruct rest as [|c r]; [done|]. simpl. by intros [-> _]. Qed.

Lemma parse_digits_value (acc : N) (u : string) :
  all_digits u →
  fst (parse_digits acc u)
  = (acc * 10 ^ N.of_nat (String.length u) + fst (parse_digits 0 u))%N.
Proof.
  revert acc. induction u as [|c u IH]; intros acc Hu.
  - simpl. lia.
  - destruct Hu as [[d Hd] Hu]. simpl. rewrite Hd.
    rewrite (IH (acc * 10 + d)%N), (IH (0 * 10 + d)%N) by done.
    rewrite Nat2N.inj_succ, N.pow_succ_r by lia. lia.
Qed.

Lemma digits_value_app (u v : string) :
  all_digits u → all_digits v →
  fst (parse_digits 0 (u +:+ v))
  = (fst (parse_digits 0 u) * 10 ^ N.of_nat (String.length v) + fst (parse_digits 0 v))%N.
Proof.
  intros Hu Hv. rewrite parse_digits_app by done. by apply parse_digits_value.
Qed.

Lemma all_digits_app (u v : string) : all_digits u → all_digits v → all_digits (u +:+ v).
Proof.
  intros Hu Hv. induction u as [|c u IH]; [done|]. destruct Hu as [Hc Hu].
  rewrite string_app_cons. split; [done|]. by apply IH.
Qed.

Lemma take_drop_chars (n : nat) (s : string) : take_chars n s +:+ drop_chars n s = s.
Proof.
  revert s. induction n as [|n IH]; intros [|c s]; try done.
  simpl. rewrite string_app_cons. by rewrite IH.
Qed.

Lemma all_digits_take (n : nat) (s : string) : all_digits s → all_digits (take_chars n s).
Proof.
  revert s. induction n as [|n IH]; intros [|c s]; try done.
  intros [Hc Hs]. split; [done|]. by apply IH.
Qed.

Lemma all_digits_drop (n : nat) (s : string) : all_digits s → all_digits (drop_chars n s).
Proof.
  revert s. induction n as [|n IH]; intros [|c s]; try done.
  intros [Hc Hs]. by apply IH.
Qed.

Lemma length_drop_chars (n : nat) (s : string) :
  String.length (drop_chars n s) = (String.length s - n)%nat.
Proof. revert s. induction n as [|n IH]; intros [|c s]; try done. simpl. apply IH. Qed.

Lemma zeros_iter (j : nat) : zeros (Z.of_nat j) = Nat.iter j (String "0") EmptyString.
Proof.
  unfold zeros. rewrite Nat2Z.id. induction j as [|j IH]; [done|].
  simpl Nat.iter. rewrite <- IH. destruct j; done.
Qed.

Lemma zeros_digits (j : Z) : all_digits (zeros j).
Proof.
  destruct (decide (0 <= j)) as [Hj|Hj].
  - rewrite <- (Z2Nat.id j Hj), zeros_iter. induction (Z.to_nat j) as [|i IH]; [done|].
    split; [by exists 0%N|done].
  - unfold zeros. by replace (Z.to_nat j) with 0%nat by lia.
Qed.

Lemma zeros_length (j : Z) : 0 <= j → Z.of_nat (String.length (zeros j)) = j.
Proof.
  intros Hj. rewrite <- (Z2Nat.id j Hj) at 2. rewrite <- (Z2Nat.id j Hj), zeros_iter.
  rewrite Nat2Z.id. f_equal. induction (Z.to_nat j) as [|i IH]; [done|]. simpl. by rewrite IH.
Qed.

Lemma zeros_zero_value (j : Z) : fst (parse_digits 0 (zeros j)) = 0%N.
Proof.
  destruct (decide (0 <= j)) as [Hj|Hj].
  - rewrite <- (Z2Nat.id j Hj), zeros_iter. induction (Z.to_nat j) as [|i IH]; [done|].
    exact IH.
  - unfold zeros. by replace (Z.to_nat j) with 0%nat by lia.
Qed.

(** *** The parts of a numeral *)

Lemma pretty_pos_facts (q : positive) :
  ∃ c r d, pretty (N.pos q) = String c r ∧ digit_of c = Some d ∧ d ≠ 0%N ∧
           all_digits (String c r) ∧ fst (parse_digits 0 (String c r)) = N.pos q.
Proof.
  pose proof (pretty_N_digits (N.pos q)) as Hall.
  unfold pretty, pretty_N in *. rewrite decide_False in * by done.
  destruct (pretty_N_go_head (N.pos q) EmptyString ltac:(lia)) as (c & r & d & Hgo & Hc & Hd).
  exists c, r, d. rewrite <- Hgo. repeat (split; [done|]).
  by rewrite parse_digits_pretty_N_go.
Qed.

Lemma pretty_nonneg_facts (z : Z) :
  0 <= z →
  ∃ c r, pretty z = String c r ∧ is_digit c ∧ all_digits (String c r) ∧
         fst (parse_digits 0 (String c r)) = Z.to_N z.
Proof.
  intros Hz. destruct z as [|q|q]; [|..|lia].
  - exists "0"%char, EmptyString. split; [done|]. split; [by exists 0%N|].
    split; [|done]. split; [by exists 0%N|done].
  - change (pretty (Z.pos q)) with (pretty (N.pos q)).
    destruct (pretty_pos_facts q) as (c & r & d & Hp & Hc & Hd & Hall & Hval).
    exists c, r. split; [done|]. split; [by exists d|]. by split.
Qed.

Lemma parse_int_digits (c : ascii) (r X : string) (d : N) :
  digit_of c = Some d → d ≠ 0%N → all_digits (String c r) →
  (∀ acc, parse_digits acc X = (acc, X)) →
  parse_int (String c r +:+ X) = Some (fst (parse_digits 0 (String c r)), X).
Proof.
  intros Hc Hd Hall HX. rewrite string_app_cons. unfold parse_int. rewrite Hc.
  destruct d as [|d']; [done|]. f_equal.
  assert (parse_digits (N.pos d') (r +:+ X) = parse_digits 0 (String c r +:+ X)) as ->.
  { rewrite string_app_cons. simpl. by rewrite Hc. }
  rewrite parse_digits_app by done. apply HX.
Qed.

Lemma parse_fraction_digits (u X : string) :
  all_digits u → u ≠ EmptyString →
  (∀ acc len, parse_digits_counted acc len X = (acc, len, X)) →
  parse_fraction (String "." (u +:+ X))
  = Some (fst (parse_digits 0 u), Z.of_nat (String.length u), X).
Proof.
  intros Hall Hne HX. unfold parse_fraction. change (Ascii.eqb "." ".") with true.
  cbv iota. destruct u as [|c u]; [done|]. rewrite string_app_cons.
  destruct Hall as [[d Hd] Hall]. rewrite Hd. f_equal.
  rewrite <- string_app_cons. rewrite parse_digits_counted_app by (split; [by exists d|done]).
  by rewrite HX.
Qed.

Lemma parse_fraction_exponent (r : string) :
  parse_fraction (String "e" r) = Some (0%N, 0, String "e" r).
Proof. done. Qed.

Lemma stops_end (rest : string) :
  ends_numeral rest → ∀ acc, parse_digits acc rest = (acc, rest).
Proof. intros Hrest acc. by apply parse_digits_end. Qed.

Lemma parse_exponent_text (e : Z) (rest : string) :
  ends_numeral rest →
  parse_exponent (((if bool_decide (0 <= e) then "e+" else "e-") +:+ pretty (Z.abs e)) +:+ rest)
  = Some (e, rest).
Proof.
  intros Hrest.
  destruct (pretty_nonneg_facts (Z.abs e) ltac:(lia)) as (c & r & -> & [d Hc] & Hall & Hval).
  assert (parse_digits 0 (String c r +:+ rest) = (Z.to_N (Z.abs e), rest)) as Hdigits.
  { rewrite parse_digits_app by done. rewrite Hval. by apply parse_digits_end. }
  rewrite string_app_assoc. case_bool_decide as He.
  - change ("e+" +:+ ?t) with (String "e" (String "+" t)).
    unfold parse_exponent. change (Ascii.eqb "e" "e") with true.
    change (Ascii.eqb "+" "-") with false. change (Ascii.eqb "+" "+") with true.
    cbn [orb fst snd]. rewrite string_app_cons, Hc. rewrite <- string_app_cons, Hdigits.
    f_equal. f_equal. lia.
  - change ("e-" +:+ ?t) with (String "e" (String "-" t)).
    unfold parse_exponent. change (Ascii.eqb "e" "e") with true.
    change (Ascii.eqb "-" "-") with true.
    cbn [orb fst snd]. rewrite string_app_cons, Hc. rewrite <- string_app_cons, Hdigits.
    f_equal. f_equal. lia.
Qed.

Lemma decimal_value_shift (z p : Z) : 0 <= p → decimal_value (z * 10 ^ p) 0 = decimal_value z p.
Proof.
  intros Hp. unfold decimal_value. rewrite !bool_decide_eq_true_2 by lia.
  by rewrite Z.pow_0_r, Z.mul_1_r.
Qed.

Lemma stops_point (r : string) : ∀ acc, parse_digits acc (String "." r) = (acc, String "." r).
Proof. done. Qed.

Lemma stops_exponent (r : string) : ∀ acc, parse_digits acc (String "e" r) = (acc, String "e" r).
Proof. done. Qed.

Lemma counted_stops_end (rest : string) :
  ends_numeral rest → ∀ acc len, parse_digits_counted acc len rest = (acc, len, rest).
Proof. intros Hrest acc len. by apply parse_digits_counted_end. Qed.

Lemma counted_stops_exponent (r : string) :
  ∀ acc len, parse_digits_counted acc len (String "e" r) = (acc, len, String "e" r).
Proof. done. Qed.

Lemma exponent_text_head (e : Z) :
  ∃ r, (if bool_decide (0 <= e) then "e+" else "e-") +:+ pretty (Z.abs e) = String "e" r.
Proof. case_bool_decide; by eexists. Qed.

(** The text of a decimal is a numeral whose parts give the decimal
    back. *)
Lemma decimal_to_string_parses (negative : bool) (s p : Z) (rest : string) :
  0 < s → ends_numeral rest →
  ∃ c r n r0 f flen r1 x,
    decimal_to_string s p +:+ rest = String c r ∧ is_digit c ∧
    parse_int (String c r) = Some (n, r0) ∧
    parse_fraction r0 = Some (f, flen, r1) ∧
    parse_exponent r1 = Some (x, rest) ∧
    decimal_value (if negative then - (Z.of_N n * 10 ^ flen + Z.of_N f)
                   else Z.of_N n * 10 ^ flen + Z.of_N f) (x - flen)
    = decimal_value (if negative then - s else s) p.
Proof.
  intros Hs Hrest. destruct s as [|q|q]; [lia| |lia]. clear Hs.
  destruct (pretty_pos_facts q) as (c0 & r0' & d0 & Hdigits & Hc0 & Hd0 & Hall & Hval).
  unfold decimal_to_string. change (pretty (Z.pos q)) with (pretty (N.pos q)).
  rewrite Hdigits. cbv zeta.
  set (digits := String c0 r0') in *.
  set (k := Z.of_nat (String.length digits)).
  assert (1 <= k) as Hk by (subst k digits; simpl; lia).
  set (n := p + k).
  case_bool_decide as H1; [|case_bool_decide as H2; [|case_bool_decide as H3]].
  - (* the digits, then zeros *)
    assert (all_digits (digits +:+ zeros (n - k))) as Hall'
      by (apply all_digits_app; [done|apply zeros_digits]).
    assert (digits +:+ zeros (n - k) = String c0 (r0' +:+ zeros (n - k))) as Htext by done.
    exists c0, ((r0' +:+ zeros (n - k)) +:+ rest),
      (fst (parse_digits 0 (digits +:+ zeros (n - k)))), rest, 0%N, 0, rest, 0.
    split; [by rewrite Htext|]. split; [by exists d0|]. split.
    { rewrite <- string_app_cons, <- Htext. rewrite Htext at 1.
      rewrite (parse_int_digits c0 _ rest d0); [by rewrite <- Htext|done..| |by apply stops_end].
      by rewrite <- Htext. }
    split; [by apply parse_fraction_end|]. split; [by apply parse_exponent_end|].
    rewrite digits_value_app by (done || apply zeros_digits).
    rewrite zeros_zero_value, Hval.
    rewrite N.add_0_r, Z.pow_0_r, Z.mul_1_r, Z.add_0_r. change (0 - 0) with 0.
    rewrite N2Z.inj_mul, N2Z.inj_pow, nat_N_Z, zeros_length by lia.
    replace p with (n - k) by lia.
    change (Z.of_N 10) with 10. change (Z.of_N (N.pos q)) with (Z.pos q).
    rewrite <- (decimal_value_shift (if negative then - Z.pos q else Z.pos q) (n - k)) by lia.
    f_equal. destruct negative; lia.
  - (* some digits, the point, the other digits *)
    assert (0 < n < k) as Hn by lia.
    pose proof (take_drop_chars (Z.to_nat n) digits) as Hsplit.
    assert (take_chars (Z.to_nat n) digits
            = String c0 (take_chars (Z.to_nat n - 1) r0')) as Htake.
    { subst digits. destruct (Z.to_nat n) as [|i] eqn:Hi; [lia|]. simpl.
      by rewrite Nat.sub_0_r. }
    assert (all_digits (take_chars (Z.to_nat n) digits)) as Hall1 by (by apply all_digits_take).
    assert (all_digits (drop_chars (Z.to_nat n) digits)) as Hall2 by (by apply all_digits_drop).
    assert (Z.of_nat (String.length (drop_chars (Z.to_nat n) digits)) = k - n) as Hlen.
    { rewrite length_drop_chars. subst k. lia. }
    exists c0, ((take_chars (Z.to_nat n - 1) r0' +:+ "." +:+ drop_chars (Z.to_nat n) digits)
                +:+ rest),
      (fst (parse_digits 0 (take_chars (Z.to_nat n) digits))),
      (String "." (drop_chars (Z.to_nat n) digits +:+ rest)),
      (fst (parse_digits 0 (drop_chars (Z.to_nat n) digits))), (k - n), rest, 0.
    split; [by rewrite Htake, !string_app_assoc|]. split; [by exists d0|]. split.
    { rewrite Htake in Hall1 |- *.
      rewrite !string_app_assoc.
      change ("." +:+ ?t) with (String "." t). rewrite <- string_app_cons.
      apply (parse_int_digits c0 _ _ d0); [done..|]. apply stops_point. }
    split.
    { rewrite parse_fraction_digits; [by rewrite Hlen|done| |by apply counted_stops_end].
      intros Hempty. rewrite Hempty in Hlen. simpl in Hlen. lia. }
    split; [by apply parse_exponent_end|].
    rewrite <- Hlen, <- nat_N_Z, <- (N2Z.inj_pow 10), <- N2Z.inj_mul, <- N2Z.inj_add.
    rewrite <- digits_value_app, Hsplit, Hval by done.
    rewrite nat_N_Z, Hlen. by replace (0 - (k - n)) with p by lia.
  - (* a zero, the point, zeros, the digits *)
    assert (all_digits (zeros (- n) +:+ digits)) as Hall'
      by (apply all_digits_app; [apply zeros_digits|done]).
    exists "0"%char, (String "." ((zeros (- n) +:+ digits) +:+ rest)), 0%N,
      (String "." ((zeros (- n) +:+ digits) +:+ rest)),
      (fst (parse_digits 0 (zeros (- n) +:+ digits))),
      (Z.of_nat (String.length (zeros (- n) +:+ digits))), rest, 0.
    split; [by rewrite !string_app_assoc|]. split; [by exists 0%N|]. split; [done|].
    split.
    { apply parse_fraction_digits; [done| |by apply counted_stops_end].
      intros Hempty. apply (f_equal String.length) in Hempty.
      rewrite string_length_app in Hempty. subst digits. simpl in Hempty. lia. }
    split; [by apply parse_exponent_end|].
    rewrite digits_value_app, zeros_zero_value, Hval by (done || apply zeros_digits).
    rewrite string_length_app, Nat2Z.inj_add, zeros_length by lia. fold k.
    rewrite N.mul_0_l, N.add_0_l. change (Z.of_N 0) with 0. rewrite Z.mul_0_l, Z.add_0_l.
    by replace (0 - (- n + k)) with p by lia.
  - (* with an exponent *)
    set (ex := (if bool_decide (0 <= n - 1) then "e+" else "e-") +:+ pretty (Z.abs (n - 1))).
    destruct (exponent_text_head (n - 1)) as [rx Hrx]. fold ex in Hrx.
    assert (parse_exponent (ex +:+ rest) = Some (n - 1, rest)) as Hex
      by (by apply parse_exponent_text).
    destruct (decide (k = 1)) as [H4|H4].
    + rewrite (bool_decide_eq_true_2 (k = 1)) by done.
      assert (r0' = EmptyString) as Hone.
      { subst k digits. simpl in H4. destruct r0'; [done|]. simpl in H4. lia. }
      exists c0, (ex +:+ rest), (N.pos q), (ex +:+ rest), 0%N, 0, (ex +:+ rest), (n - 1).
      split; [subst digits; by rewrite Hone|]. split; [by exists d0|].
      split.
      { rewrite <- Hval. subst digits.
        replace (String c0 (ex +:+ rest)) with (String c0 r0' +:+ (ex +:+ rest))
          by (by rewrite Hone).
        apply (parse_int_digits c0 r0' _ d0); [done..|].
        rewrite Hrx, string_app_cons. apply stops_exponent. }
      split; [by rewrite Hrx, string_app_cons|].
      split; [done|].
      change (Z.of_N 0) with 0. rewrite Z.pow_0_r, Z.mul_1_r, Z.add_0_r, Z.sub_0_r.
      change (Z.of_N (N.pos q)) with (Z.pos q). by replace (n - 1) with p by lia.
    + rewrite (bool_decide_eq_false_2 (k = 1)) by done.
      assert (r0' ≠ EmptyString) as Hmore.
      { intros Hr. apply H4. subst k digits. by rewrite Hr. }
      assert (Z.of_nat (String.length r0') = k - 1) as Hlen by (subst k digits; simpl; lia).
      assert (all_digits r0') as Hall2 by (by destruct Hall).
      exists c0, (String "." (r0' +:+ (ex +:+ rest))), d0,
        (String "." (r0' +:+ (ex +:+ rest))), (fst (parse_digits 0 r0')), (k - 1),
        (ex +:+ rest), (n - 1).
      split; [subst digits; simpl; by rewrite !string_app_assoc|]. split; [by exists d0|].
      split.
      { change (String c0 (String "." ?t)) with (String c0 EmptyString +:+ String "." t).
        rewrite (parse_int_digits c0 EmptyString _ d0); [|done|done| |apply stops_point].
        - simpl. by rewrite Hc0.
        - split; [by exists d0|done]. }
      split.
      { rewrite parse_fraction_digits; [by rewrite Hlen|done|done|].
        rewrite Hrx, string_app_cons. apply counted_stops_exponent. }
      split; [done|].
      assert (Z.of_N d0 * 10 ^ (k - 1) + Z.of_N (fst (parse_digits 0 r0')) = Z.pos q) as ->.
      { rewrite <- Hlen, <- nat_N_Z, <- (N2Z.inj_pow 10), <- N2Z.inj_mul, <- N2Z.inj_add.
        change (Z.pos q) with (Z.of_N (N.pos q)). f_equal. rewrite <- Hval.
        subst digits. simpl. rewrite Hc0. simpl. by rewrite (parse_digits_value d0). }
      by replace (n - 1 - (k - 1)) with p by lia.
Qed.

(** *** Numbers: what [Number::toString] writes is read back *)

Lemma digit_plain (c : ascii) :
  is_digit c → is_ws c = false ∧ Ascii.eqb c "-" = false.
Proof.
  intros [d Hd].
  destruct c as [[] [] [] [] [] [] [] []]; vm_compute in Hd; try discriminate Hd; by split.
Qed.

Lemma decimal_value_opp (s p : Z) :
  s ≠ 0 → decimal_value (- s) p = negate (decimal_value s p).
Proof.
  intros Hs. unfold decimal_value. case_bool_decide.
  - rewrite Z.mul_opp_l. apply number_of_rational_opp; [lia|].
    assert (0 < 10 ^ p) by (apply Z.pow_pos_nonneg; lia). nia.
  - apply number_of_rational_opp; [|done]. apply Z.pow_pos_nonneg; lia.
Qed.

Lemma signed_decimal_parses (negative : bool) (s p : Z) (rest : string) :
  0 < s → ends_numeral rest →
  ∃ c r,
    ((if negative then "-" else EmptyString) +:+ decimal_to_string s p) +:+ rest = String c r ∧
    is_ws c = false ∧ (is_digit c ∨ c = "-"%char) ∧
    parse_number (String c r)
    = Some (VNum (decimal_value (if negative then - s else s) p), rest).
Proof.
  intros Hs Hrest.
  destruct (decimal_to_string_parses negative s p rest Hs Hrest)
    as (c & r & n & r0 & f & flen & r1 & x & Htext & Hc & Hint & Hfrac & Hexp & Hval).
  destruct (digit_plain c Hc) as [Hws Hminus].
  destruct negative.
  - exists "-"%char, (String c r). split.
    { rewrite string_app_assoc, Htext. done. }
    split; [done|]. split; [by right|].
    unfold parse_number. change (Ascii.eqb "-" "-") with true. cbn [fst snd].
    rewrite Hint, Hfrac, Hexp. cbv zeta. by rewrite Hval.
  - exists c, r. split; [done|]. split; [done|]. split; [by left|].
    unfold parse_number. rewrite Hminus. cbn [fst snd].
    rewrite Hint, Hfrac, Hexp. cbv zeta. by rewrite Hval.
Qed.

(** The text of a double that is no integer up to [2^53]. *)
Lemma rational_text_parses (x : jsnum) (c d e : Z) (rest : string) :
  is_double x = true → x ≠ Fin 0 → rational_of x = (c, d) → d = 2 ^ e → 0 <= e → c ≠ 0 →
  ends_numeral rest →
  ∃ a r, rational_to_string c d +:+ rest = String a r ∧ is_ws a = false ∧
         (is_digit a ∨ a = "-"%char) ∧ parse_number (String a r) = Some (VNum x, rest).
Proof.
  intros Hx Hx0 Hrat -> He Hc Hrest.
  assert (number_of_rational c (2 ^ e) = x) as Hnum.
  { pose proof (number_of_double x Hx) as H. by rewrite Hrat in H. }
  assert (number_of_rational (Z.abs c) (2 ^ e) = if bool_decide (c < 0) then negate x else x)
    as Habs.
  { case_bool_decide.
    - rewrite Z.abs_neq by lia. rewrite number_of_rational_opp, Hnum; [done| |done].
      apply Z.pow_pos_nonneg; lia.
    - by rewrite Z.abs_eq by lia. }
  assert (rational_to_string c (2 ^ e)
          = (if bool_decide (c < 0) then "-" else EmptyString) +:+
            positive_to_string (Z.abs c) (2 ^ e)) as ->.
  { unfold rational_to_string. rewrite Hnum.
    destruct x as [| | |[|z|z]|m k]; try done; simpl in Hrat; injection Hrat as Hc' Hd';
      cbn [rational_of]; cbv beta iota zeta; by rewrite <- Hc', <- Hd'. }
  unfold positive_to_string.
  pose proof (shortest_digits_read (Z.abs c) e ltac:(lia) He) as Hread.
  destruct (shortest_decimal (Z.abs c) (2 ^ e)) as [s0 p0].
  destruct (strip_zeros 800 s0 p0) as [s p]. destruct Hread as [Hs Hval].
  destruct (signed_decimal_parses (bool_decide (c < 0)) s p rest Hs Hrest)
    as (a & r & Htext & Hws & Ha & Hparse).
  exists a, r. split; [done|]. split; [done|]. split; [done|].
  rewrite Hparse. do 3 f_equal.
  case_bool_decide.
  - rewrite decimal_value_opp, Hval, Habs by lia. apply negate_involutive.
  - by rewrite Hval, Habs.
Qed.

(** Every finite double is written as a numeral that is read as that
    double. *)
Lemma number_text_parses (x : jsnum) (rest : string) :
  is_double x = true → ends_numeral rest →
  ∃ c r, number_to_string x +:+ rest = String c r ∧ is_ws c = false ∧
         (is_digit c ∨ c = "-"%char) ∧ parse_number (String c r) = Some (VNum x, rest).
Proof.
  intros Hx Hrest. destruct x as [| | |z|m e]; try done.
  - unfold number_to_string. case_bool_decide as Hsmall.
    + by apply parse_number_pretty.
    + apply (rational_text_parses (Fin z) z 1 0); try done.
      * intros [= ->]. by apply Hsmall.
      * intros ->. by apply Hsmall.
  - unfold number_to_string.
    apply (rational_text_parses (Frac m e) m (2 ^ Zpos e) (Zpos e)); try done.
    intros ->. done.
Qed.

(** *** Values *)

Lemma parse_value_numeral (n : nat) (c : ascii) (r : string) :
  is_ws c = false → is_digit c ∨ c = "-"%char →
  parse_value (S n) (String c r) = parse_number (String c r).
Proof.
  intros Hws Hnum.
  destruct c as [[] [] [] [] [] [] [] []]; try reflexivity;
    exfalso; destruct Hnum as [[? ?]|?]; discriminate.
Qed.

Lemma parse_value_string (n : nat) (r : string) :
  parse_value (S n) (String dquote r)
  = (fun p => (VStr (fst p), snd p)) <$> parse_string_body r.
Proof. reflexivity. Qed.

Lemma parse_value_array (n : nat) (r : string) :
  parse_value (S n) (String "[" r)
  = match skip_ws r with
    | String c1 r1 =>
        if Ascii.eqb c1 "]" then Some (VArr [], r1)
        else (fun p => (VArr (fst p), snd p)) <$> parse_elements n r
    | EmptyString => None
    end.
Proof. reflexivity. Qed.

Lemma parse_value_object (n : nat) (r : string) :
  parse_value (S n) (String "{" r)
  = match skip_ws r with
    | String c1 r1 =>
        if Ascii.eqb c1 "}" then Some (VObj [], r1)
        else (fun p => (build_object (fst p), snd p)) <$> parse_members n r
    | EmptyString => None
    end.
Proof. reflexivity. Qed.

Lemma parse_elements_step (n : nat) (s : string) :
  parse_elements (S n) s
  = match parse_value n s with
    | Some (v, r) =>
        match skip_ws r with
        | String c r1 =>
            if Ascii.eqb c "," then (fun p => (v :: fst p, snd p)) <$> parse_elements n r1
            else if Ascii.eqb c "]" then Some ([v], r1)
            else None
        | EmptyString => None
        end
    | None => None
    end.
Proof. reflexivity. Qed.

Lemma parse_members_step (n : nat) (k r : string) :
  parse_members (S n) (quote k +:+ ":" +:+ r)
  = match parse_value n r with
    | Some (v, r3) =>
        match skip_ws r3 with
        | String c3 r4 =>
            if Ascii.eqb c3 "," then (fun p => ((k, v) :: fst p, snd p)) <$> parse_members n r4
            else if Ascii.eqb c3 "}" then Some ([(k, v)], r4)
            else None
        | EmptyString => None
        end
    | None => None
    end.
Proof.
  unfold quote. rewrite string_app_cons, string_app_assoc, string_app_cons.
  change (parse_members (S n) (String dquote ?s)) with
    (match parse_string_body s with
     | Some (k, r1) =>
         match skip_ws r1 with
         | String c1 r2 =>
             if Ascii.eqb c1 ":" then
               match parse_value n r2 with
               | Some (v, r3) =>
                   match skip_ws r3 with
                   | String c3 r4 =>
                       if Ascii.eqb c3 "," then
                         (fun p => ((k, v) :: fst p, snd p)) <$> parse_members n r4
                       else if Ascii.eqb c3 "}" then Some ([(k, v)], r4)
                       else None
                   | EmptyString => None
                   end
               | None => None
               end
             else None
         | EmptyString => None
         end
     | None => None
     end).
  rewrite quote_body_parses. reflexivity.
Qed.

Lemma replace_prop_fresh (k : string) (v : jsval) (o : list (string * jsval)) :
  k ∉ fst <$> o → replace_prop k v o = o ++ [(k, v)].
Proof.
  induction o as [|[k' v'] o IH]; intros Hk; [done|].
  rewrite fmap_cons, not_elem_of_cons in Hk. destruct Hk as [Hne Hk]. simpl in *.
  destruct (String.eqb_spec k k') as [->|_]; [done|]. by rewrite IH.
Qed.

Lemma existsb_fresh (k : string) (o : list (string * jsval)) :
  k ∉ fst <$> o → existsb (fun p => String.eqb k (fst p)) o = false.
Proof.
  induction o as [|[k' v'] o IH]; intros Hk; [done|].
  rewrite fmap_cons, not_elem_of_cons in Hk. destruct Hk as [Hne Hk]. simpl in *.
  destruct (String.eqb_spec k k') as [->|_]; [done|]. by apply IH.
Qed.

Lemma keys_from_prefix (lower : option N) (ks1 ks2 : list string) :
  keys_from lower (ks1 ++ ks2) = true → keys_from lower ks1 = true.
Proof.
  revert lower. induction ks1 as [|k ks1 IH]; intros lower; [done|]. simpl.
  destruct (array_index k) as [j|], lower as [i|]; try done; try apply IH.
  intros [Hij Hrest]%andb_true_iff. rewrite Hij. by apply IH.
Qed.

Lemma keys_from_last (lower : option N) (ks : list string) (k : string) (i : N) :
  keys_from lower (ks ++ [k]) = true → array_index k = Some i →
  ∃ l, lower = Some l ∧ (l <= i)%N.
Proof.
  revert lower. induction ks as [|k' ks IH]; intros lower; simpl.
  - intros Hk Hi. rewrite Hi in Hk. destruct lower as [l|]; [|done].
    exists l. split; [done|]. apply andb_true_iff in Hk as [Hk%N.leb_le _]. lia.
  - intros Hk Hi. destruct (array_index k') as [j|], lower as [l|]; try done.
    + apply andb_true_iff in Hk as [Hlj%N.leb_le Hk].
      destruct (IH _ Hk Hi) as (l' & [= <-] & Hl'). exists l. split; [done|]. lia.
    + by destruct (IH _ Hk Hi) as (l' & ? & _).
    + by destruct (IH _ Hk Hi) as (l' & ? & _).
Qed.

Lemma insert_index_last (lower : option N) (i : N) (k : string) (v : jsval)
    (o : list (string * jsval)) :
  keys_from lower ((fst <$> o) ++ [k]) = true → array_index k = Some i →
  insert_index i k v o = o ++ [(k, v)].
Proof.
  revert lower. induction o as [|[k' v'] o IH]; intros lower Hk Hi; [done|].
  simpl in *. destruct (array_index k') as [j|], lower as [l|]; try done.
  - apply andb_true_iff in Hk as [Hlj Hk].
    destruct (keys_from_last _ _ _ _ Hk Hi) as (l' & [= <-] & Hl').
    replace (j <? i)%N with true by (symmetry; apply N.ltb_lt; lia).
    by rewrite (IH _ Hk Hi).
  - by destruct (keys_from_last _ _ _ _ Hk Hi) as (l' & ? & _).
  - by destruct (keys_from_last _ _ _ _ Hk Hi) as (l' & ? & _).
Qed.

(** A new key that comes last in the order of own keys goes to the end. *)
Lemma set_prop_fresh (k : string) (v : jsval) (o : list (string * jsval)) :
  k ∉ fst <$> o → keys_from (Some 0%N) ((fst <$> o) ++ [k]) = true →
  set_prop k v o = o ++ [(k, v)].
Proof.
  intros Hk Hord. unfold set_prop. destruct (array_index k) as [i|] eqn:Hi.
  - rewrite existsb_fresh by done. by apply (insert_index_last (Some 0%N)).
  - by apply replace_prop_fresh.
Qed.

Lemma build_object_distinct (props : list (string * jsval)) :
  own_keys props = true → build_object props = VObj props.
Proof.
  unfold build_object, own_keys. intros [Hnd Hord]%andb_true_iff.
  apply bool_decide_eq_true in Hnd. f_equal.
  enough (∀ acc, NoDup (fst <$> (acc ++ props)) →
            keys_from (Some 0%N) (fst <$> (acc ++ props)) = true →
            foldl (fun o p => set_prop (fst p) (snd p) o) acc props = acc ++ props) as Hgen.
  { by apply (Hgen []). }
  clear Hnd Hord. induction props as [|[k v] props IH]; intros acc Hnd Hord.
  - by rewrite app_nil_r.
  - simpl. rewrite set_prop_fresh.
    + rewrite IH; rewrite <- app_assoc; done.
    + rewrite fmap_app, fmap_cons in Hnd. apply NoDup_app in Hnd as (_ & Hdisj & _).
      intros Hin. apply (Hdisj k Hin). by left.
    + rewrite fmap_app, fmap_cons in Hord. simpl in Hord.
      rewrite (cons_middle k) , app_assoc in Hord. by apply keys_from_prefix in Hord.
Qed.

Lemma join_singleton (sep x : string) : join sep [x] = x.
Proof. reflexivity. Qed.

Lemma join_cons_cons (sep x y : string) (l : list string) :
  join sep (x :: y :: l) = x +:+ sep +:+ join sep (y :: l).
Proof. reflexivity. Qed.

Lemma stringify_array (elems : list jsval) :
  stringify (VArr elems) = Some ("[" +:+ join "," (map element_text elems) +:+ "]").
Proof. reflexivity. Qed.

Lemma stringify_object (props : list (string * jsval)) :
  stringify (VObj props) = Some ("{" +:+ join "," (omap property_text props) +:+ "}").
Proof. reflexivity. Qed.

Lemma reads_elements (elems : list jsval) :
  elems ≠ [] → Forall round_trips elems →
  ∀ rest n, (2 * String.length (join "," (map element_text elems)) + 2 <= n)%nat →
    parse_elements n (join "," (map element_text elems) +:+ "]" +:+ rest)
    = Some (elems, rest).
Proof.
  intros Hne Hall. induction Hall as [|x elems (t & Ht & _ & Hx) Hall IH]; [done|].
  intros rest n Hn. destruct n as [|n]; [lia|]. rewrite parse_elements_step.
  assert (element_text x = t) as Hxt by (unfold element_text; by rewrite Ht).
  cbn [map] in *. rewrite Hxt in *.
  destruct elems as [|y elems].
  - cbn [map] in *. rewrite join_singleton in *.
    rewrite (Hx ("]" +:+ rest) n); [done|done|lia].
  - cbn [map] in *. rewrite join_cons_cons in *.
    rewrite !string_length_app in Hn. cbn [String.length] in Hn.
    rewrite !string_app_assoc. rewrite (Hx _ n); [|done|lia].
    change (skip_ws ("," +:+ ?s)) with (String ","%char s).
    change (Ascii.eqb "," ",") with true. cbv iota.
    rewrite IH; [done|done|lia].
Qed.

Lemma omap_cons_Some {A B} (f : A → option B) (x : A) (y : B) (l : list A) :
  f x = Some y → omap f (x :: l) = y :: omap f l.
Proof. intros Hx. simpl. by rewrite Hx. Qed.

Lemma reads_members (props : list (string * jsval)) :
  props ≠ [] → Forall (fun p => round_trips (snd p)) props →
  ∀ rest n, (2 * String.length (join "," (omap property_text props)) + 2 <= n)%nat →
    parse_members n (join "," (omap property_text props) +:+ "}" +:+ rest)
    = Some (props, rest).
Proof.
  intros Hne Hall. induction Hall as [|[k x] props (t & Ht & _ & Hx) Hall IH]; [done|].
  intros rest n Hn. destruct n as [|n]; [lia|]. simpl in Ht, Hx.
  assert (property_text (k, x) = Some (member_text k t)) as Hkx
    by (unfold property_text; simpl; by rewrite Ht).
  rewrite (omap_cons_Some _ _ _ _ Hkx) in *. unfold member_text in *.
  destruct Hall as [|[k' y] props (t' & Ht' & _ & _) Hall].
  - change (omap property_text []) with (@nil string) in *. rewrite join_singleton in *.
    rewrite !string_length_app in Hn. rewrite !string_app_assoc.
    rewrite parse_members_step. rewrite (Hx ("}" +:+ rest) n); [done|done|lia].
  - simpl in Ht'.
    assert (property_text (k', y) = Some (member_text k' t')) as Hky
      by (unfold property_text; simpl; by rewrite Ht').
    specialize (IH ltac:(done)).
    rewrite (omap_cons_Some _ _ _ _ Hky) in *. rewrite join_cons_cons in *.
    rewrite !string_length_app in Hn. cbn [String.length] in Hn.
    rewrite !string_app_assoc. rewrite parse_members_step.
    rewrite (Hx _ n); [|done|lia].
    change (skip_ws ("," +:+ ?s)) with (String ","%char s).
    change (Ascii.eqb "," ",") with true. cbv iota.
    rewrite IH; [done|lia].
Qed.

Lemma join_starts (sep : string) (c : ascii) (r : string) (l : list string) (s : string) :
  ∃ r', join sep (String c r :: l) +:+ s = String c r'.
Proof. destruct l; eexists; reflexivity. Qed.

Lemma parse_value_array_nonempty (n : nat) (r : string) (c1 : ascii) (r1 : string) :
  r = String c1 r1 → is_ws c1 = false → Ascii.eqb c1 "]" = false →
  parse_value (S n) (String "[" r) = (fun p => (VArr (fst p), snd p)) <$> parse_elements n r.
Proof.
  intros -> Hws Hbr. rewrite parse_value_array. cbn [skip_ws]. by rewrite Hws, Hbr.
Qed.

Lemma parse_value_object_nonempty (n : nat) (r r1 : string) :
  r = String dquote r1 →
  parse_value (S n) (String "{" r)
  = (fun p => (build_object (fst p), snd p)) <$> parse_members n r.
Proof. intros ->. reflexivity. Qed.

Lemma numeral_head_not_bracket (c : ascii) :
  is_digit c ∨ c = "-"%char → Ascii.eqb c "]" = false.
Proof.
  intros Hc. destruct (Ascii.eqb_spec c "]") as [->|]; [|done].
  destruct Hc as [[? ?]|?]; discriminate.
Qed.

(** Every value that JSON carries is written as a text that is read as
    the same value. *)
Lemma json_safe_round_trips (v : jsval) : json_safe v = true → round_trips v.
Proof.
  induction v as [| |b|n|s|elems IH|props IH|e] using jsval_ind; intros Hsafe;
    try discriminate Hsafe.
  - exists "null". split; [done|]. split; [by exists "n"%char, "ull"|].
    intros rest [|n] _ Hn; [lia|]. reflexivity.
  - destruct b.
    + exists "true". split; [done|]. split; [by exists "t"%char, "rue"|].
      intros rest [|n] _ Hn; [lia|]. reflexivity.
    + exists "false". split; [done|]. split; [by exists "f"%char, "alse"|].
      intros rest [|n] _ Hn; [lia|]. reflexivity.
  - change (json_safe (VNum n)) with (is_double n) in Hsafe.
    exists (number_to_string n). split; [by destruct n|]. split.
    + destruct (number_text_parses n EmptyString Hsafe I) as (c & r & Ht & Hws & Hc & _).
      rewrite string_app_nil_r in Ht. exists c, r.
      split; [done|]. split; [done|]. by apply numeral_head_not_bracket.
    + intros rest [|k] Hrest Hk; [lia|].
      destruct (number_text_parses n rest Hsafe Hrest) as (c & r & -> & Hws & Hc & Hnum).
      by rewrite parse_value_numeral.
  - exists (quote s). split; [done|]. split; [by eexists _, _|].
    intros rest [|n] _ Hn; [lia|]. unfold quote.
    rewrite string_app_cons, parse_value_string, string_app_assoc, string_app_cons.
    by rewrite quote_body_parses.
  - simpl in Hsafe. rewrite forallb_forall in Hsafe.
    assert (Forall round_trips elems) as Hall.
    { apply Forall_forall. intros x Hx. rewrite Forall_forall in IH.
      apply (IH x Hx). apply Hsafe. by apply list_elem_of_In. }
    eexists. split; [apply stringify_array|]. split; [by eexists _, _|].
    intros rest [|n] _ Hn; [lia|]. rewrite !string_app_assoc.
    change ("[" +:+ ?s) with (String "["%char s) in *.
    cbn [String.length] in Hn. rewrite string_length_app in Hn.
    cbn [String.length] in Hn.
    destruct elems as [|x elems]; [reflexivity|].
    pose proof Hall as Hall'.
    apply Forall_cons in Hall' as [(t & Ht & (c & r & -> & Hws & Hbr) & _) _].
    assert (element_text x = String c r) as Hxt by (unfold element_text; by rewrite Ht).
    destruct (join_starts "," c r (map element_text elems) ("]" +:+ rest)) as [r' Hr'].
    cbn [map] in *. rewrite Hxt in *.
    rewrite (parse_value_array_nonempty n _ c r' Hr' Hws Hbr).
    rewrite <- Hxt at 1. rewrite <- Hxt in Hn.
    change (element_text x :: map element_text elems)
      with (map element_text (x :: elems)) in *.
    rewrite reads_elements; [done|done|done|lia].
  - simpl in Hsafe. apply andb_true_iff in Hsafe as [Hsafe Hnd].
    rewrite forallb_forall in Hsafe.
    assert (Forall (fun p => round_trips (snd p)) props) as Hall.
    { apply Forall_forall. intros x Hx. rewrite Forall_forall in IH.
      apply (IH x Hx). apply Hsafe. by apply list_elem_of_In. }
    eexists. split; [apply stringify_object|]. split; [by eexists _, _|].
    intros rest [|n] _ Hn; [lia|]. rewrite !string_app_assoc.
    change ("{" +:+ ?s) with (String "{"%char s) in *.
    cbn [String.length] in Hn. rewrite string_length_app in Hn.
    cbn [String.length] in Hn.
    destruct props as [|[k x] props]; [reflexivity|].
    pose proof Hall as Hall'.
    apply Forall_cons in Hall' as [(t & Ht & _ & _) _]. simpl in Ht.
    assert (property_text (k, x) = Some (member_text k t)) as Hkx
      by (unfold property_text; simpl; by rewrite Ht).
    destruct (join_starts "," dquote
                ((quote_body k +:+ String dquote EmptyString) +:+ ":" +:+ t)
                (omap property_text props) ("}" +:+ rest)) as [r' Hr'].
    rewrite (parse_value_object_nonempty n _ r').
    + rewrite reads_members.
      * simpl. by rewrite build_object_distinct.
      * done.
      * done.
      * lia.
    + rewrite <- Hr'. by rewrite (omap_cons_Some _ _ _ _ Hkx).
Qed.

Lemma json_safe_parse_stringify (v : jsval) :
  json_safe v = true → ∃ text, stringify v = Some text ∧ JS.parse text = Some v.
Proof.
  intros Hsafe. destruct (json_safe_round_trips v Hsafe) as (t & Ht & _ & Hreads).
  exists t. split; [done|]. unfold JS.parse.
  rewrite <- (string_app_nil_r t) at 2. by rewrite (Hreads EmptyString _ I (Nat.le_refl _)).
Qed.

End JsonRoundTrip.

(** ** Local storage: writing and reading back *)

Section LocalStorageRoundTrip.
Import JS WebStorage LocalStorage.

Lemma pretty_Z_nonempty (z : Z) : pretty z ≠ EmptyString.
Proof.
  destruct z as [|p|p]; [done| |done].
  change (pretty (Z.pos p)) with (pretty (N.pos p)). apply pretty_N_nonempty.
Qed.

Lemma append_nonempty_l (a b : string) : a ≠ EmptyString → a +:+ b ≠ EmptyString.
Proof. by destruct a. Qed.

Lemma append_nonempty_r (a b : string) : b ≠ EmptyString → a +:+ b ≠ EmptyString.
Proof. destruct a; [|done]. by destruct b. Qed.

Lemma decimal_to_string_nonempty (s p : Z) : decimal_to_string s p ≠ EmptyString.
Proof.
  unfold decimal_to_string. cbv zeta.
  repeat case_bool_decide;
    first [ apply append_nonempty_l, pretty_Z_nonempty
          | by apply append_nonempty_l
          | by apply append_nonempty_r, append_nonempty_l ].
Qed.

Lemma positive_to_string_nonempty (a b : Z) : positive_to_string a b ≠ EmptyString.
Proof.
  unfold positive_to_string. destruct (shortest_decimal a b) as [s0 p0].
  destruct (strip_zeros 800 s0 p0) as [s p]. apply decimal_to_string_nonempty.
Qed.

Lemma rational_to_string_nonempty (a b : Z) : rational_to_string a b ≠ EmptyString.
Proof.
  unfold rational_to_string.
  destruct (number_of_rational a b) as [| | |[|p|p]|m e]; try done;
    cbv beta iota zeta; destruct (rational_of _) as [c d];
    apply append_nonempty_r, positive_to_string_nonempty.
Qed.

Lemma number_to_string_nonempty (n : jsnum) : number_to_string n ≠ EmptyString.
Proof.
  destruct n as [| | |z|m e]; try done; unfold number_to_string.
  - case_bool_decide; [apply pretty_Z_nonempty|apply rational_to_string_nonempty].
  - apply rational_to_string_nonempty.
Qed.

(** A JSON text is never the empty string, so the test [if (item)] lets
    every item written by [setValue] through. *)
Lemma stringify_truthy (v : jsval) (text : string) :
  stringify v = Some text → truthy_string text = true.
Proof.
  assert (∀ n, truthy_string (number_to_string n) = true) as Hnum.
  { intros n. pose proof (number_to_string_nonempty n). by destruct (number_to_string n). }
  destruct v as [| |[|]|[| | |z|m e]|s|l|ps|e]; intros H; try discriminate H;
    try (by injection H as <-).
  - injection H as <-. apply (Hnum (Fin z)).
  - injection H as <-. apply (Hnum (Frac m e)).
Qed.

(** C1 (amended): after [setValue(V)] the instance holds [V] (for any
    value that is not a function).  When the storage area exists, the write
    succeeds and [V] survives JSON (parsing the text [JSON.stringify]
    gives for [V] yields [V] again), the item under the key is that text
    and a new instance with the same key over the same area starts with
    [V], whatever its own initial value.  The values that survive JSON
    include [null], the booleans, the finite numbers, the strings, and the
    arrays and objects built from them. *)
Theorem setValue_then_read (h : Hook) (w : Window) (V initial' : jsval) :
  let r := setValue (Plain V) h w in
  storedValue (fst r) = V ∧
  (∀ st text st',
     w = Some st →
     stringify V = Some text →
     JS.parse text = Some V →
     setItem (key h) text st = Some st' →
     snd r = Some st' ∧ getItem (key h) st' = Some text ∧
     storedValue (useLocalStorage (key h) initial' (snd r)) = V) ∧
  (json_safe V = true →
   ∀ st, w = Some st →
     is_Some (setItem (key h) (DOMString (stringify V)) st) →
     storedValue (useLocalStorage (key h) initial' (snd r)) = V).
Proof.
  assert (Hwritten : ∀ st text st',
     w = Some st → stringify V = Some text → JS.parse text = Some V →
     setItem (key h) text st = Some st' →
     snd (setValue (Plain V) h w) = Some st' ∧ getItem (key h) st' = Some text ∧
     storedValue (useLocalStorage (key h) initial' (snd (setValue (Plain V) h w))) = V).
  { intros st text st' -> Htext Hparse Hset. unfold setValue.
    rewrite Htext. simpl. rewrite Hset. simpl.
    assert (getItem (key h) st' = Some text) as Hget.
    { unfold setItem in Hset. case_decide; [|done]. injection Hset as <-.
      unfold getItem. simpl. apply lookup_insert_eq. }
    split; [done|]. split; [done|].
    unfold initial_state. by rewrite Hget, (stringify_truthy V text Htext), Hparse. }
  simpl. split; [|split].
  - unfold setValue. destruct w as [st|]; [|done].
    by destruct (setItem _ _ st).
  - exact Hwritten.
  - intros Hsafe st Hw [st' Hset].
    destruct (json_safe_parse_stringify V Hsafe) as (text & Htext & Hparse).
    rewrite Htext in Hset. by destruct (Hwritten st text st' Hw Htext Hparse Hset) as (_ & _ & ?).
Qed.

Lemma setValue_then_read_witness :
  let st := {| items := ∅; quota := 5000 |} in
  let h := useLocalStorage "n" (VNum (Fin 0)) (Some st) in
  let profile := VObj [("name", VStr "Ada"); ("tags", VArr [VNum (Frac 5 2); VNull])] in
  storedValue h = VNum (Fin 0) ∧
  storedValue (useLocalStorage "n" (VNum (Fin 0))
                 (snd (setValue (Plain (VNum (Fin 5))) h (Some st)))) = VNum (Fin 5) ∧
  storedValue (useLocalStorage "n" (VNum (Fin 0))
                 (snd (setValue (Plain (VNum (Frac 3 1))) h (Some st)))) = VNum (Frac 3 1) ∧
  storedValue (useLocalStorage "n" (VNum (Fin 0))
                 (snd (setValue (Plain profile) h (Some st)))) = profile.
Proof.
  intros st h profile. split; [reflexivity|]. split; [|split].
  - pose proof (setValue_then_read h (Some st) (VNum (Fin 5)) (VNum (Fin 0)))
      as (_ & Hread & _).
    destruct (Hread st "5" {| items := {[ "n" := "5" ]}; quota := 5000 |})
      as (_ & _ & Hfresh); [reflexivity..| |exact Hfresh].
    vm_compute. reflexivity.
  - pose proof (setValue_then_read h (Some st) (VNum (Frac 3 1)) (VNum (Fin 0)))
      as (_ & Hread & _).
    destruct (Hread st "1.5" {| items := {[ "n" := "1.5" ]}; quota := 5000 |})
      as (_ & _ & Hfresh); [by vm_compute..| |exact Hfresh].
    vm_compute. reflexivity.
  - pose proof (setValue_then_read h (Some st) profile (VNum (Fin 0))) as (_ & _ & Hsafe).
    apply (Hsafe eq_refl st eq_refl). vm_compute. eexists. reflexivity.
Defined.

(** C1 as stated fails.  [NaN] is written as the text null and read back
    as [null]; and when the write throws (the quota is exceeded) the area
    keeps its old content, so a new instance starts with its initial
    value. *)
Lemma setValue_read_counterexample :
  let st := {| items := ∅; quota := 5000 |} in
  let h := useLocalStorage "n" (VNum (Fin 0)) (Some st) in
  let full := {| items := ∅; quota := 4 |} in
  let k := useLocalStorage "name" (VStr "John") (Some full) in
  storedValue (useLocalStorage "n" (VNum (Fin 0))
                 (snd (setValue (Plain (VNum NaN)) h (Some st)))) = VNull ∧
  storedValue (useLocalStorage "name" (VStr "John")
                 (snd (setValue (Plain (VStr "Ada")) k (Some full)))) = VStr "John".
Proof. vm_compute. by split. Qed.

End LocalStorageRoundTrip.

(** ** Throttled callback *)

Section ThrottledCallback.
Import Throttle.
Context {Args : Type}.
Implicit Types (h : Hook Args) (pre : list (Z * Args)).

Lemma throttle_run_snoc delay pre now args h :
  run delay (pre ++ [(now, args)]) h = throttled delay now args (run delay pre h).
Proof. unfold run. by rewrite foldl_app. Qed.

(** The ref holds the time of the last execution, or the time of the
    first render while nothing was executed. *)
Lemma lastRunRef_is_last_execution delay t0 pre :
  let h := run delay pre (useThrottle t0) in
  lastRunRef h = default t0 (last_execution h).
Proof.
  induction pre as [|[now args] pre IH] using rev_ind; [done|].
  rewrite throttle_run_snoc. simpl in *. unfold throttled.
  case_bool_decide; [|done]. unfold last_execution. simpl. by rewrite last_snoc.
Qed.

Lemma executions_apart delay t0 pre :
  0 < delay →
  let h := run delay pre (useThrottle t0) in
  StronglySorted (apart delay) (calls h) ∧ Forall (fun c => fst c <= lastRunRef h) (calls h).
Proof.
  intros Hd. induction pre as [|[now args] pre IH] using rev_ind.
  { simpl. split; constructor. }
  rewrite throttle_run_snoc. simpl in *. destruct IH as [Hs Hle].
  unfold throttled. case_bool_decide as Hrun; [|done]. simpl. split.
  - apply StronglySorted_app_2; [|done|repeat constructor].
    intros c1 c2 H1 H2. apply list_elem_of_singleton in H2 as ->.
    rewrite Forall_forall in Hle. specialize (Hle c1 H1). unfold apart. simpl. lia.
  - apply Forall_app. split.
    + eapply Forall_impl; [exact Hle|]. simpl. intros c Hc. lia.
    + repeat constructor. simpl. lia.
Qed.

Lemma apart_one_per_window delay a w (l : list (Z * Args)) :
  w < delay → StronglySorted (apart delay) l →
  (length (filter (in_window a w) l) <= 1)%nat.
Proof.
  intros Hw. induction l as [|c l IH]; intros Hs; [simpl; lia|].
  apply StronglySorted_cons in Hs as [Hc Hs].
  rewrite filter_cons. destruct (decide (in_window a w c)) as [Hin|Hout]; [|by apply IH].
  assert (filter (in_window a w) l = []) as ->; [|simpl; lia].
  apply filter_none. eapply Forall_impl; [exact Hc|].
  unfold apart, in_window in *. intros c2 H2 H3. lia.
Qed.

(** C2 (amended): an invocation of the throttled function runs the
    callback, at once, exactly when at least [delay] milliseconds lie
    between its clock reading and the last execution, or the first render
    of the hook while nothing was executed yet; otherwise it is dropped
    and leaves no trace (the hook is unchanged, nothing is queued).  In any
    window shorter than [delay] at most one execution takes place. *)
Theorem throttled_runs_iff_delay_elapsed (delay t0 : Z) pre (now : Z) (args : Args) :
  let h := run delay pre (useThrottle t0) in
  let since := default t0 (last_execution h) in
  let h' := throttled delay now args h in
  (delay <= now - since →
     calls h' = (calls h ++ [(now, args)]) ∧ last_execution h' = Some now) ∧
  (now - since < delay → h' = h) ∧
  (∀ a w, w < delay → (length (filter (in_window a w) (calls h')) <= 1)%nat).
Proof.
  simpl. rewrite <- (lastRunRef_is_last_execution delay t0 pre). split; [|split].
  - intros Hrun. unfold throttled. rewrite bool_decide_eq_true_2 by lia.
    unfold last_execution. simpl. by rewrite last_snoc.
  - intros Hdrop. unfold throttled. by rewrite bool_decide_eq_false_2 by lia.
  - intros a w Hw. rewrite <- (throttle_run_snoc delay pre now args).
    destruct (decide (0 < delay)) as [Hd|Hd].
    + apply (apart_one_per_window delay); [done|]. by apply executions_apart.
    + assert (filter (in_window a w)
                (calls (run delay (pre ++ [(now, args)]) (useThrottle t0))) = [])
        as ->; [|simpl; lia].
      apply filter_none, Forall_forall. unfold in_window. intros c _ Hc. lia.
Qed.

End ThrottledCallback.

Lemma throttled_runs_iff_delay_elapsed_witness :
  let h := Throttle.run 500 [(700, "a"); (900, "b")] (Throttle.useThrottle 0) in
  Throttle.calls (Throttle.throttled 500 1200 "c" h) = [(700, "a"); (1200, "c")] ∧
  Throttle.throttled 500 1100 "c" h = h.
Proof.
  split.
  - apply (proj1 (throttled_runs_iff_delay_elapsed 500 0 [(700, "a"); (900, "b")] 1200 "c")).
    vm_compute. discriminate.
  - apply (proj1 (proj2 (throttled_runs_iff_delay_elapsed 500 0 [(700, "a"); (900, "b")] 1100 "c"))).
    vm_compute. reflexivity.
Defined.

(** C2 as stated fails before the first execution: 10 ms after the first
    render nothing has been executed, and the invocation is dropped all the
    same; at 600 ms, still with no execution behind it, it runs.  What
    decides is the time since the first render. *)
Lemma throttle_first_call_counterexample :
  let h := Throttle.useThrottle (Args := string) 0 in
  Throttle.last_execution h = None ∧
  Throttle.throttled 500 10 "scroll" h = h ∧
  Throttle.calls (Throttle.throttled 500 600 "scroll" h) = [(600, "scroll")].
Proof. vm_compute. by repeat split. Qed.

(** ** Async wrapper *)

Section AsyncWrapper.
Import JS Async.

Lemma run_snoc (evs : list Event) (ev : Event) (h : Hook) :
  run (evs ++ [ev]) h = step (run evs h) ev.
Proof. unfold run. by rewrite foldl_app. Qed.

Lemma cleanup_is_final (evs : list Event) (h : Hook) :
  isMountedRef h = false → isMountedRef (run evs h) = false.
Proof.
  revert h. induction evs as [|ev evs IH]; intros h Hh; [done|].
  apply IH. destruct ev as [|[r|e]|]; simpl; try done; by rewrite Hh.
Qed.

(** The shape of the state after any trace from the first render. *)
Lemma state_shape (evs : list Event) :
  let s := state (run evs mount) in
  match status s with
  | st_idle | st_loading => data s = VNull ∧ error s = None
  | st_success =>
      error s = None ∧ ∃ response, Settle (Resolved response) ∈ evs ∧ data s = response
  | st_error =>
      data s = VNull ∧
      ∃ e err, Settle (Rejected e) ∈ evs ∧ normalize e = Some err ∧ error s = Some err
  end.
Proof.
  induction evs as [|ev evs IH] using rev_ind; [done|].
  rewrite run_snoc. simpl in *.
  destruct ev as [|[r|e]|]; simpl.
  - done.
  - destruct (isMountedRef (run evs mount)); simpl.
    + split; [done|]. exists r. split; [|done]. apply elem_of_app. right. by left.
    + destruct (status (state (run evs mount))); try done.
      * destruct IH as [? (x & ? & ?)]. split; [done|]. exists x.
        split; [|done]. apply elem_of_app. by left.
      * destruct IH as [? (x & err & ? & ? & ?)]. split; [done|]. exists x, err.
        split; [|done]. apply elem_of_app. by left.
  - assert (match status (state (run evs mount)) with
            | st_idle | st_loading =>
                data (state (run evs mount)) = VNull ∧ error (state (run evs mount)) = None
            | st_success =>
                error (state (run evs mount)) = None ∧
                ∃ response, Settle (Resolved response) ∈ evs ++ [Settle (Rejected e)] ∧
                            data (state (run evs mount)) = response
            | st_error =>
                data (state (run evs mount)) = VNull ∧
                ∃ e0 err, Settle (Rejected e0) ∈ evs ++ [Settle (Rejected e)] ∧
                          normalize e0 = Some err ∧
                          error (state (run evs mount)) = Some err
            end) as Hkept.
    { destruct (status (state (run evs mount))); try done.
      - destruct IH as [? (x & ? & ?)]. split; [done|]. exists x.
        split; [|done]. apply elem_of_app. by left.
      - destruct IH as [? (x & err & ? & ? & ?)]. split; [done|]. exists x, err.
        split; [|done]. apply elem_of_app. by left. }
    destruct (isMountedRef (run evs mount)); simpl; [|done].
    destruct (normalize e) as [err|] eqn:Herr; simpl; [|done].
    split; [done|]. exists e, err. split; [|done]. apply elem_of_app. right. by left.
  - destruct (status (state (run evs mount))); try done.
    + destruct IH as [? (x & ? & ?)]. split; [done|]. exists x.
      split; [|done]. apply elem_of_app. by left.
    + destruct IH as [? (x & err & ? & ? & ?)]. split; [done|]. exists x, err.
      split; [|done]. apply elem_of_app. by left.
Qed.

(** C3 (amended): after any trace from the first render, [data] and
    [error] are never both set; in status [error] exactly one of them is
    set (the error); in status [success] the error is [null] and [data] is
    the value an operation resolved with, so exactly one of the two is set
    if and only if that value is not [null]. *)
Theorem async_state_fields (evs : list Event) :
  let s := state (run evs mount) in
  (status s = st_error → exactly_one s = true ∧ data s = VNull) ∧
  (status s = st_success →
     error s = None ∧
     (∃ response, Settle (Resolved response) ∈ evs ∧ data s = response) ∧
     (exactly_one s = true ↔ data s ≠ VNull)) ∧
  ¬ (data_set s = true ∧ error_set s = true).
Proof.
  pose proof (state_shape evs) as H. simpl in *.
  destruct (state (run evs mount)) as [st d er l]. simpl in *.
  unfold exactly_one, data_set, error_set. simpl.
  destruct st; simpl in H.
  - destruct H as [-> ->]. split; [done|]. split; [done|]. by intros [? ?].
  - destruct H as [-> ->]. split; [done|]. split; [done|]. by intros [? ?].
  - destruct H as [-> Hd]. split; [done|]. split; [|by intros [? ?]].
    intros _. split; [done|]. split; [done|].
    destruct d; simpl; split; try done; by intros H; exfalso; apply H.
  - destruct H as [-> (e & err & _ & _ & ->)]. split; [done|]. split; [done|].
    by intros [? ?].
Qed.

Lemma async_state_fields_witness :
  let s := state (run [Execute; Settle (Rejected (VStr "boom"))] mount) in
  status s = st_error ∧ exactly_one s = true ∧ data s = VNull.
Proof.
  split; [reflexivity|].
  apply (proj1 (async_state_fields [Execute; Settle (Rejected (VStr "boom"))])).
  reflexivity.
Defined.

(** C3 as stated fails: an operation that resolves with [null] (a fetch
    whose body is the JSON text null, say) leaves status [success] with
    neither field set. *)
Lemma async_null_result_counterexample :
  let s := state (run [Execute; Settle (Resolved VNull)] mount) in
  status s ≠ st_idle ∧ status s ≠ st_loading ∧
  data s = VNull ∧ error s = None ∧ exactly_one s = false.
Proof. simpl. by repeat split. Qed.

Lemma detached_settle_noop (o : Outcome) (h : Hook) :
  isMountedRef h = false → execute_settle o h = (h, Returned).
Proof. intros Hh. destruct o; simpl; by rewrite Hh. Qed.

Lemma detached_run_erases_settlements (evs : list Event) (h : Hook) :
  isMountedRef h = false → run evs h = run (filter not_settle evs) h.
Proof.
  revert h. induction evs as [|ev evs IH]; intros h Hh; [done|].
  destruct ev as [|o|].
  - rewrite filter_cons_True by done. simpl. by apply IH.
  - rewrite filter_cons_False by (by intros H). simpl.
    rewrite (detached_settle_noop o h Hh). simpl. by apply IH.
  - rewrite filter_cons_True by done. simpl. by apply IH.
Qed.

(** C6: once the cleanup has cleared the mounted flag, the settlement of
    an operation in flight writes nothing: each resolution or rejection
    leaves the hook as it is and returns normally, so after any number of
    them the state is the one at detachment; in any later trace the
    settlements can be erased without changing the result. *)
Theorem detached_settlement_discarded (h : Hook) (os : list Outcome)
    (evs : list Event) :
  (∀ o, execute_settle o (cleanup h) = (cleanup h, Returned)) ∧
  run (Settle <$> os) (cleanup h) = cleanup h ∧
  state (run (Settle <$> os) (cleanup h)) = state h ∧
  run evs (cleanup h) = run (filter not_settle evs) (cleanup h).
Proof.
  assert (Hos : run (Settle <$> os) (cleanup h) = cleanup h).
  { induction os as [|o os IH]; [done|]. simpl.
    by rewrite (detached_settle_noop o (cleanup h)). }
  split; [|split; [|split]].
  - intros o. by apply detached_settle_noop.
  - done.
  - by rewrite Hos.
  - by apply detached_run_erases_settlements.
Qed.

(** C7 (amended): a rejection (or a throw) with a value [e].  While the
    mounted flag is set: when [e] is an [Error], [execute] returns and the
    state is status [error] with [data] null and [error] that very object;
    when [e] is no [Error] and [String(e)] gives a string, [execute]
    returns and [error] is a new [Error] with that string as its message;
    when [String(e)] throws (an object that has no primitive value, such as
    one with an own property [toString] that is no function), the
    [TypeError] leaves [execute], whose promise is rejected with it, and
    the state stays what it was.  Once the flag is cleared the rejection is
    dropped: [execute] returns and the state stays what it was. *)
Theorem rejection_surfaces_in_state (h : Hook) (e : jsval) :
  let r := execute_settle (Rejected e) h in
  (isMountedRef h = true →
     (∀ err, e = VError err →
        snd r = Returned ∧
        state (fst r) = {| status := st_error; data := VNull; error := Some err;
                           isLoading := false |}) ∧
     (∀ s, (∀ err, e ≠ VError err) → to_String e = Some s →
        snd r = Returned ∧
        state (fst r) = {| status := st_error; data := VNull;
                           error := Some {| err_name := "Error"; err_message := s |};
                           isLoading := false |}) ∧
     (to_String e = None →
        fst r = h ∧
        snd r = Threw (VError {| err_name := "TypeError";
                                 err_message := no_primitive_value |}))) ∧
  (isMountedRef h = false → r = (h, Returned)).
Proof.
  cbv zeta. unfold execute_settle. split.
  - intros ->. split; [|split].
    + by intros err ->.
    + intros s Hne Hs. assert (normalize e = Some (new_Error s)) as ->; [|done].
      destruct e; try (by destruct (Hne e)); unfold normalize; by rewrite Hs.
    + intros Hs. assert (normalize e = None) as ->; [|done].
      destruct e; try done; unfold normalize; by rewrite Hs.
  - by intros ->.
Qed.

Lemma rejection_surfaces_in_state_witness :
  let h := run [Execute] mount in
  isMountedRef h = true ∧
  state (fst (execute_settle (Rejected (VNum (Fin 404))) h)) =
    {| status := st_error; data := VNull;
       error := Some {| err_name := "Error"; err_message := "404" |};
       isLoading := false |}.
Proof.
  split; [reflexivity|].
  destruct (rejection_surfaces_in_state (run [Execute] mount) (VNum (Fin 404)))
    as [Hmounted _].
  destruct (Hmounted eq_refl) as (_ & Hother & _).
  by destruct (Hother "404" ltac:(done) eq_refl).
Defined.

(** C7 as stated fails.  When the consumer detaches before the rejection
    arrives, [execute] does not end in status [error]: the state stays
    [loading] with no error recorded.  And when the rejection value is an
    object with an own property [toString] that is no function,
    [String(error)] throws inside the [catch] block: [execute] lets that
    [TypeError] out and the state stays [loading]. *)
Lemma detached_rejection_counterexample :
  let s := state (run [Execute; Cleanup; Settle (Rejected (VStr "boom"))] mount) in
  let e := VObj [("toString", VNum (Fin 5))] in
  let r := execute_settle (Rejected e) (run [Execute] mount) in
  (status s = st_loading ∧ status s ≠ st_error ∧ error s = None) ∧
  (isMountedRef (run [Execute] mount) = true ∧
   snd r = Threw (VError {| err_name := "TypeError"; err_message := no_primitive_value |}) ∧
   status (state (fst r)) = st_loading ∧ error (state (fst r)) = None).
Proof. simpl. by repeat split. Qed.

End AsyncWrapper.

(** ** Notification queue: ids, adding and expiry *)

Section NotificationIds.
Import Notification.

Lemma addNotification_id host message type duration p :
  snd (addNotification host message type duration p)
  = generateId (now_id host) (random36 host).
Proof. done. Qed.

(** C4 (amended): two calls of [addNotification] get the same id exactly
    when they read the same clock value and their random texts agree on
    the nine characters [substr(2, 9)] keeps; so the ids are distinct
    whenever the clock readings differ or those nine characters differ. *)
Theorem generated_ids_equal_iff (host1 host2 : Host) (m1 m2 : string)
    (t1 t2 : option NotificationType) (d1 d2 : option Z) (p1 p2 : Provider) :
  snd (addNotification host1 m1 t1 d1 p1) = snd (addNotification host2 m2 t2 d2 p2)
  ↔ now_id host1 = now_id host2 ∧
    String.substring 2 9 (random36 host1) = String.substring 2 9 (random36 host2).
Proof.
  rewrite !addNotification_id. unfold generateId. split.
  - apply pretty_Z_then_dash.
  - by intros [-> ->].
Qed.

Lemma generated_ids_equal_iff_witness :
  let host1 := {| now_id := 1700000000000; random36 := "0.4fzyo82mvyr";
                  now_stamp := 1700000000000 |} in
  let host2 := {| now_id := 1700000000001; random36 := "0.4fzyo82mvyr";
                  now_stamp := 1700000000001 |} in
  snd (addNotification host1 "a" None None initial)
  ≠ snd (addNotification host2 "b" None None initial).
Proof.
  intros host1 host2 Heq.
  apply (proj1 (generated_ids_equal_iff host1 host2 "a" "b" None None None None
                  initial initial)) in Heq.
  destruct Heq as [Heq _]. discriminate Heq.
Defined.

(** C4 as stated fails: two calls in the same millisecond whose random
    texts differ only after the eleventh character (the ninth digit) get the same id. *)
Lemma id_collision_counterexample :
  let host1 := {| now_id := 1700000000000; random36 := "0.4fzyo82mvyr";
                  now_stamp := 1700000000000 |} in
  let host2 := {| now_id := 1700000000000; random36 := "0.4fzyo82mvzz";
                  now_stamp := 1700000000000 |} in
  host1 ≠ host2 ∧
  ids (run [Add host1 "a" None None; Add host2 "b" None None] initial)
  = ["1700000000000-4fzyo82mv"; "1700000000000-4fzyo82mv"].
Proof. split; [discriminate|]. vm_compute. reflexivity. Qed.

End NotificationIds.

Section NotificationExpiry.
Import Notification.

(** The callbacks of the timers that fire together remove every
    notification whose id one of them targets, and nothing else. *)
Lemma fired_timers_remove (ts : list Timer) (p : Provider) :
  notifications (foldl (fun q t => removeNotification (target t) q) p ts)
  = filter (fun n => id n ∉ target <$> ts) (notifications p).
Proof.
  revert p. induction ts as [|t ts IH]; intros p.
  - simpl. symmetry. apply filter_all, Forall_forall. intros n _. apply not_elem_of_nil.
  - simpl. rewrite IH. simpl. rewrite list_filter_filter. apply list_filter_iff.
    intros n. rewrite not_elem_of_cons. tauto.
Qed.

Lemma elapse_notifications (dt : Z) (p : Provider) (n : Notification) :
  n ∈ notifications (elapse dt p) ↔
  n ∈ notifications p ∧ id n ∉ target <$> filter due (tick dt <$> timers p).
Proof. unfold elapse. simpl. rewrite fired_timers_remove, list_elem_of_filter. tauto. Qed.

Lemma elapse_timers (dt : Z) (p : Provider) (t : Timer) :
  t ∈ timers (elapse dt p) ↔ ∃ t0, t0 ∈ timers p ∧ t = tick dt t0 ∧ 0 < remaining t0 - dt.
Proof.
  unfold elapse. simpl. rewrite list_elem_of_filter, list_elem_of_fmap. unfold due. split.
  - intros [Hd (t0 & -> & Ht0)]. exists t0. simpl in Hd. repeat split; [done..|lia].
  - intros (t0 & Ht0 & -> & Hd). simpl. split; [lia|]. by exists t0.
Qed.

Lemma timer_delay_bounds (d : Z) : 0 <= timer_delay d <= 2147483647.
Proof.
  unfold timer_delay. change (2 ^ 31) with 2147483648. change (2 ^ 32) with 4294967296.
  pose proof (Z.mod_pos_bound (d + 2147483648) 4294967296). lia.
Qed.

Lemma timer_delay_small (d : Z) : 0 <= d <= 2147483647 → timer_delay d = d.
Proof.
  intros Hd. unfold timer_delay. change (2 ^ 31) with 2147483648.
  change (2 ^ 32) with 4294967296. rewrite Z.mod_small by lia. lia.
Qed.

Lemma timer_delay_le (d : Z) : 0 < d → timer_delay d <= d.
Proof.
  intros Hd. destruct (decide (d <= 2147483647)).
  - rewrite timer_delay_small; lia.
  - pose proof (timer_delay_bounds d). lia.
Qed.

Lemma expiring_step (i : string) (r : Z) (p : Provider) (op : Op) :
  expiring i r p → no_reuse i op → expiring i (r - op_time op) (step p op).
Proof.
  intros Hinv Hop. destruct op as [host m ty du|j| |dt]; simpl in *.
  - destruct Hinv as [Hout|(t & Ht & Hi & Hr)].
    + left. unfold ids in *. simpl. rewrite fmap_app. simpl.
      rewrite elem_of_app, list_elem_of_singleton. intros [?|?]; [done|]. by apply Hop.
    + right. exists t. split; [|split; [done|lia]].
      case_bool_decide; [apply elem_of_app; by left|done].
  - destruct Hinv as [Hout|(t & Ht & Hi & Hr)].
    + left. unfold ids in *. simpl. intros Hin. apply Hout.
      apply list_elem_of_fmap in Hin as (n & -> & Hn).
      apply list_elem_of_filter in Hn as [_ Hn]. apply list_elem_of_fmap. by exists n.
    + right. exists t. split; [done|split; [done|lia]].
  - left. unfold ids. simpl. apply not_elem_of_nil.
  - destruct Hinv as [Hout|(t & Ht & Hi & Hr)].
    + left. unfold ids in *. intros Hin. apply Hout.
      apply list_elem_of_fmap in Hin as (n & -> & Hn).
      apply elapse_notifications in Hn as [Hn _]. apply list_elem_of_fmap. by exists n.
    + destruct (decide (remaining t - dt <= 0)) as [Hdue|Hlater].
      * left. unfold ids. intros Hin.
        apply list_elem_of_fmap in Hin as (n & Hid & Hn).
        apply elapse_notifications in Hn as [_ Hn]. apply Hn.
        apply list_elem_of_fmap. exists (tick dt t). split; [by rewrite <- Hid|].
        apply list_elem_of_filter. split; [done|]. apply list_elem_of_fmap. by exists t.
      * right. exists (tick dt t). split; [|split; [done|simpl; lia]].
        apply elapse_timers. exists t. repeat split; [done|lia].
Qed.

Lemma expiring_run (i : string) (ops : list Op) (r : Z) (p : Provider) :
  expiring i r p → Forall (no_reuse i) ops → expiring i (r - elapsed ops) (run ops p).
Proof.
  revert r p. induction ops as [|op ops IH]; intros r p Hinv Hops.
  - simpl. by rewrite Z.sub_0_r.
  - apply Forall_cons in Hops as [Hop Hops].
    replace (r - elapsed (op :: ops)) with (r - op_time op - elapsed ops)
      by (destruct op; simpl; lia).
    apply IH; [|done]. by apply expiring_step.
Qed.

Lemma kept_step (n : Notification) (r : Z) (p : Provider) (op : Op) :
  kept n r p → no_reuse (id n) op → not_removing (id n) op → 0 < r - op_time op →
  kept n (r - op_time op) (step p op).
Proof.
  intros [Hn Hts] Hop Hrm Hr. destruct op as [host m ty du|j| |dt]; simpl in *.
  - split; [apply elem_of_app; by left|].
    intros t Ht Hi. rewrite Z.sub_0_r. case_bool_decide; [|by apply Hts].
    apply elem_of_app in Ht as [Ht|Ht]; [by apply Hts|].
    apply list_elem_of_singleton in Ht as ->. simpl in Hi. by destruct Hop.
  - split; [by apply list_elem_of_filter|]. intros t Ht Hi. rewrite Z.sub_0_r. by apply Hts.
  - done.
  - split.
    + apply elapse_notifications. split; [done|]. intros Hin.
      apply list_elem_of_fmap in Hin as (t & Hi & Ht).
      apply list_elem_of_filter in Ht as [Hdue Ht].
      apply list_elem_of_fmap in Ht as (t0 & -> & Ht0).
      unfold due in Hdue. simpl in *. specialize (Hts t0 Ht0 (eq_sym Hi)). lia.
    + intros t Ht Hi. apply elapse_timers in Ht as (t0 & Ht0 & -> & _).
      simpl in *. specialize (Hts t0 Ht0 Hi). lia.
Qed.

Lemma elapsed_nonneg (i : string) (ops : list Op) :
  Forall (no_reuse i) ops → 0 <= elapsed ops.
Proof.
  induction 1 as [|op ops Hop _ IH]; [done|]. destruct op; simpl in *; lia.
Qed.

Lemma kept_run (n : Notification) (ops : list Op) (r : Z) (p : Provider) :
  kept n r p → Forall (no_reuse (id n)) ops → Forall (not_removing (id n)) ops →
  0 < r - elapsed ops → kept n (r - elapsed ops) (run ops p).
Proof.
  revert r p. induction ops as [|op ops IH]; intros r p Hinv Hops Hrm Hr.
  - simpl. by rewrite Z.sub_0_r.
  - apply Forall_cons in Hops as [Hop Hops]. apply Forall_cons in Hrm as [Hrm1 Hrm].
    pose proof (elapsed_nonneg _ _ Hops) as Hpos.
    assert (elapsed (op :: ops) = op_time op + elapsed ops) as Hsplit
      by (destruct op; simpl; lia).
    replace (r - elapsed (op :: ops)) with (r - op_time op - elapsed ops) in * by lia.
    apply IH; [|done..]. apply kept_step; [done..|lia].
Qed.

(** C5 (amended): [addNotification] appends the new notification at the
    end of the queue.  With a positive duration it sets one timer for the
    new id, with the delay the host makes of the duration: exactly the
    duration up to 2147483647 ms, a shorter delay past that.  No
    notification with the id is queued once the duration has passed, and
    the notification is still there before the delay has passed.  With
    duration 0 (or less) it sets no timer and the notification stays as
    long as it is not removed explicitly.  This holds in every trace in
    which no other call generates the same id; staying in the queue also
    needs that no timer set earlier targets the id. *)
Theorem addNotification_appends_and_expires (host : Host) (message : string)
    (type : option NotificationType) (duration : option Z) (p : Provider) :
  let d := default 5000 duration in
  let i := generateId (now_id host) (random36 host) in
  let n := {| id := i; message := message; type := default info type;
              duration := Some d; timestamp := now_stamp host |} in
  let p1 := fst (addNotification host message type duration p) in
  snd (addNotification host message type duration p) = i ∧
  notifications p1 = (notifications p ++ [n]) ∧
  (0 < d →
     timers p1 = (timers p ++ [{| remaining := timer_delay d; target := i |}]) ∧
     (d <= 2147483647 → timer_delay d = d) ∧
     (2147483647 < d → 0 <= timer_delay d < d) ∧
     (∀ ops, Forall (no_reuse i) ops → d <= elapsed ops → i ∉ ids (run ops p1)) ∧
     (∀ ops, Forall (no_reuse i) ops → Forall (not_removing i) ops →
             Forall (fun t => target t ≠ i) (timers p) → elapsed ops < timer_delay d →
             n ∈ notifications (run ops p1))) ∧
  (d <= 0 →
     timers p1 = timers p ∧
     (∀ ops, Forall (no_reuse i) ops → Forall (not_removing i) ops →
             Forall (fun t => target t ≠ i) (timers p) →
             n ∈ notifications (run ops p1))).
Proof.
  intros d i n p1.
  assert (Hn : n ∈ notifications p1).
  { subst p1. simpl. apply elem_of_app. right. by apply list_elem_of_singleton. }
  split; [done|]. split; [done|]. split.
  - intros Hd.
    assert (Hts : timers p1 = (timers p ++ [{| remaining := timer_delay d; target := i |}])).
    { subst p1. simpl. fold d i. by rewrite bool_decide_eq_true_2 by lia. }
    pose proof (timer_delay_bounds d) as Hbounds.
    pose proof (timer_delay_le d Hd) as Hle.
    split; [done|]. split; [intros Hsmall; apply timer_delay_small; lia|].
    split; [lia|]. split.
    + intros ops Hops Hel.
      assert (expiring i d p1) as Hinv.
      { right. exists {| remaining := timer_delay d; target := i |}. rewrite Hts.
        split; [apply elem_of_app; right; by apply list_elem_of_singleton|].
        simpl. split; [done|]. split; [done|]. by right. }
      apply (expiring_run i ops) in Hinv; [|done].
      destruct Hinv as [Hout|(t & _ & _ & Hr & Hpos)]; [done|lia].
    + intros ops Hops Hrm Hold Hel.
      assert (kept n (timer_delay d) p1) as Hinv.
      { split; [done|]. intros t Ht Hi. rewrite Hts in Ht.
        apply elem_of_app in Ht as [Ht|Ht].
        - rewrite Forall_forall in Hold. by destruct (Hold t Ht).
        - apply list_elem_of_singleton in Ht as ->. simpl. lia. }
      apply (kept_run n ops) in Hinv; [by destruct Hinv|done..|lia].
  - intros Hd.
    assert (Hts : timers p1 = timers p).
    { subst p1. simpl. fold d. by rewrite bool_decide_eq_false_2 by lia. }
    split; [done|]. intros ops Hops Hrm Hold.
    assert (kept n (elapsed ops + 1) p1) as Hinv.
    { split; [done|]. intros t Ht Hi. rewrite Hts in Ht.
      rewrite Forall_forall in Hold. by destruct (Hold t Ht). }
    apply (kept_run n ops) in Hinv; [by destruct Hinv|done..|lia].
Qed.

Lemma addNotification_appends_and_expires_witness :
  let host := {| now_id := 1000; random36 := "0.4fzyo82mvyr"; now_stamp := 1000 |} in
  let later := {| now_id := 1040; random36 := "0.9k2b1xq07de"; now_stamp := 1040 |} in
  let p1 := fst (addNotification host "saved" (Some success) (Some 100) initial) in
  0 < 100 ∧
  "1000-4fzyo82mv" ∉ ids (run [Elapse 40; Add later "next" None (Some 0); Elapse 60] p1).
Proof.
  intros host later p1. split; [lia|].
  pose proof (addNotification_appends_and_expires host "saved" (Some success) (Some 100)
                initial) as (_ & _ & Hpositive & _).
  destruct Hpositive as (_ & _ & _ & Hexpires & _); [simpl; lia|].
  apply Hexpires.
  - repeat constructor; simpl; try lia. vm_compute. discriminate.
  - vm_compute. discriminate.
Defined.

(** C5 as stated fails when two calls generate the same id: the timer of
    the first notification also removes the second one, which was added
    with duration 0 and was never removed explicitly.  It also fails for a
    duration past 2147483647 ms: the host wraps the delay around, so the
    notification added for 3000000000 ms goes with the next turn of the
    timers. *)
Lemma persistent_notification_counterexample :
  let host := {| now_id := 1000; random36 := "0.4fzyo82mvyr"; now_stamp := 1000 |} in
  let ops := [Add host "a" (Some info) (Some 100); Add host "x" (Some success) (Some 0)] in
  let long := [Add host "y" (Some info) (Some 3000000000)] in
  (message <$> notifications (run ops initial) = ["a"; "x"] ∧
   Forall (not_removing "1000-4fzyo82mv") (ops ++ [Elapse 100]) ∧
   notifications (run (ops ++ [Elapse 100]) initial) = []) ∧
  (message <$> notifications (run long initial) = ["y"] ∧
   timers (run long initial) = [{| remaining := 0; target := "1000-4fzyo82mv" |}] ∧
   notifications (run (long ++ [Elapse 1]) initial) = []).
Proof.
  split.
  - split; [reflexivity|]. split; [by repeat constructor|]. vm_compute. reflexivity.
  - vm_compute. by repeat split.
Qed.

End NotificationExpiry.

(** ** Notification queue: removal *)

Section NotificationRemoval.
Import Notification.

Lemma filter_other_ids_noop (i : string) (l : list Notification) :
  i ∉ (id <$> l) → filter (fun n => id n ≠ i) l = l.
Proof.
  induction l as [|n l IH]; intros Hi; [done|].
  rewrite fmap_cons, not_elem_of_cons in Hi. destruct Hi as [Hn Hl].
  rewrite filter_cons_True by done. by rewrite IH.
Qed.

Lemma filter_split_length (i : string) (l : list Notification) :
  length l =
  (length (filter (fun n => id n ≠ i) l) + length (filter (fun n => id n = i) l))%nat.
Proof.
  induction l as [|n l IH]; [done|].
  rewrite !filter_cons. destruct (decide (id n = i)) as [Heq|Hne].
  - rewrite decide_False by (intros H; by apply H). simpl. lia.
  - rewrite decide_True by done. simpl. lia.
Qed.

(** C9: removing an id that no queued notification carries leaves the
    provider as it is, and removing the same id twice in a row is the same
    as removing it once. *)
Theorem removeNotification_absent_idempotent (p : Provider) (i : string) :
  (i ∉ ids p → removeNotification i p = p) ∧
  removeNotification i (removeNotification i p) = removeNotification i p.
Proof.
  destruct p as [q ts]. unfold removeNotification, ids. simpl. split.
  - intros Hi. by rewrite filter_other_ids_noop.
  - f_equal. rewrite filter_other_ids_noop; [done|].
    intros Hin. apply list_elem_of_fmap in Hin as (n & -> & Hn).
    by apply list_elem_of_filter in Hn as [Hne _].
Qed.

Lemma removeNotification_absent_idempotent_witness :
  let n := {| id := "17-a"; message := "saved"; type := success;
              duration := Some 0; timestamp := 17 |} in
  let p := {| notifications := [n]; timers := [] |} in
  ("18-b" ∉ ids p) ∧ removeNotification "18-b" p = p.
Proof.
  simpl. split.
  - unfold ids. simpl. intros H. apply list_elem_of_singleton in H. discriminate H.
  - apply (removeNotification_absent_idempotent _ "18-b").
    unfold ids. simpl. intros H. apply list_elem_of_singleton in H. discriminate H.
Defined.

(** C10: [removeNotification i] keeps exactly the notifications whose id
    is not [i]: what is left is a subsequence of the old queue (the same
    records, in their old order), a notification is left if and only if it
    was queued with another id, the ones that went are as many as carried
    the id [i], and the timers are not touched. *)
Theorem removeNotification_frame (p : Provider) (i : string) :
  let q := notifications (removeNotification i p) in
  q `sublist_of` notifications p ∧
  (∀ n, n ∈ q ↔ n ∈ notifications p ∧ id n ≠ i) ∧
  length (notifications p) =
    (length q + length (filter (fun n => id n = i) (notifications p)))%nat ∧
  timers (removeNotification i p) = timers p.
Proof.
  simpl. split; [|split; [|split]].
  - apply sublist_filter.
  - intros n. rewrite list_elem_of_filter. tauto.
  - apply filter_split_length.
  - done.
Qed.

End NotificationRemoval.

(** ** Form state: reset *)

Section FormReset.
Import JS Form.

(** C8: whatever the form state, [resetForm] empties the errors map and
    the touched set, clears the submitting flag, and replaces the fields
    map by the snapshot it is given, or else by the provider's
    [initialData], which is the fields map the provider was mounted with. *)
Theorem resetForm_restores_snapshot (initialData : gmap string jsval)
    (newInitialData : option (gmap string jsval)) (s : FormState) :
  let s' := resetForm initialData newInitialData s in
  errors s' = ∅ ∧ touched s' = ∅ ∧ isSubmitting s' = false ∧
  formData s' = default initialData newInitialData ∧
  formData (resetForm initialData None s) = formData (mount initialData).
Proof.
  simpl. split; [done|]. split; [done|]. split; [done|]. split.
  - by destruct newInitialData.
  - done.
Qed.

End FormReset.

(** ** Local storage: removal, other keys, fallbacks, function updates *)

Section LocalStorageMore.
Import JS WebStorage LocalStorage StorageHooks.

(** X1: [removeValue] puts the instance back to its initial value and
    deletes the item under its key, leaving every other item and the quota
    as they were; a new instance with that key then starts with its own
    initial value. *)
Theorem removeValue_resets_and_deletes (h : Hook) (w : Window) (initial' : jsval) :
  let r := removeValue h w in
  storedValue (fst r) = initialValue h ∧
  item (key h) (snd r) = None ∧
  (∀ k, k ≠ key h → item k (snd r) = item k w) ∧
  quota <$> snd r = quota <$> w ∧
  storedValue (useLocalStorage (key h) initial' (snd r)) = initial'.
Proof.
  simpl. split; [done|]. destruct w as [st|]; simpl.
  - split; [apply lookup_delete_eq|]. split; [|split; [done|]].
    + intros k Hk. unfold getItem. simpl. by apply lookup_delete_ne.
    + unfold initial_state, getItem. simpl. by rewrite lookup_delete_eq.
  - done.
Qed.

Lemma removeValue_resets_and_deletes_witness :
  let st := {| items := {[ "n" := "5"; "theme" := "1" ]}; quota := 5000 |} in
  let h := useLocalStorage "n" (VNum (Fin 0)) (Some st) in
  storedValue h = VNum (Fin 5) ∧ "theme" ≠ key h ∧
  item "theme" (snd (removeValue h (Some st))) = Some "1".
Proof.
  intros st h. split; [reflexivity|]. split; [discriminate|].
  pose proof (removeValue_resets_and_deletes h (Some st) VNull) as (_ & _ & Hother & _).
  rewrite (Hother "theme"); [reflexivity|discriminate].
Defined.

Lemma setItem_other_key (k k' v : string) (st st' : Storage) :
  setItem k v st = Some st' → k' ≠ k → getItem k' st' = getItem k' st.
Proof.
  unfold setItem. case_decide; [|done]. intros [= <-] Hne.
  unfold getItem. simpl. by apply lookup_insert_ne.
Qed.

Lemma setItem_same_key (k v : string) (st st' : Storage) :
  setItem k v st = Some st' → getItem k st' = Some v.
Proof.
  unfold setItem. case_decide; [|done]. intros [= <-].
  unfold getItem. simpl. apply lookup_insert_eq.
Qed.

Lemma setValue_keeps_key (value : SetArg) (h : Hook) (w : Window) :
  key (fst (setValue value h w)) = key h.
Proof.
  unfold setValue.
  destruct (match value with Updater f => f (storedValue h) | Plain v => Some v end); [|done].
  destruct w as [st|]; [|done]. by destruct (setItem _ _ st).
Qed.

(** X2: [setValue] touches no key but its own: every other item reads as
    before, whatever the argument and whether or not the write succeeds;
    the key and the initial value of the instance stay.  When the write
    throws, the storage area is left exactly as it was while the instance
    holds the new value. *)
Theorem setValue_touches_only_its_key (value : SetArg) (h : Hook) (w : Window) :
  let r := setValue value h w in
  key (fst r) = key h ∧ initialValue (fst r) = initialValue h ∧
  (∀ k, k ≠ key h → item k (snd r) = item k w) ∧
  (∀ V st, value = Plain V → w = Some st →
     setItem (key h) (DOMString (stringify V)) st = None →
     snd r = w ∧ storedValue (fst r) = V).
Proof.
  simpl. unfold setValue.
  destruct (match value with Updater f => f (storedValue h) | Plain v => Some v end)
    as [v|] eqn:Hv.
  - destruct w as [st|].
    + destruct (setItem (key h) (DOMString (stringify v)) st) as [st'|] eqn:Hset; simpl.
      * split; [done|]. split; [done|]. split.
        -- intros k Hk. by eapply setItem_other_key.
        -- intros V st0 -> [= <-] Hfail. injection Hv as <-. by rewrite Hfail in Hset.
      * split; [done|]. split; [done|]. split; [done|].
        intros V st0 -> [= <-] _. by injection Hv as <-.
    + simpl. split; [done|]. split; [done|]. split; [done|]. by intros V st0 _ [=].
  - simpl. split; [done|]. split; [done|]. split; [done|].
    intros V st0 -> _ _. discriminate Hv.
Qed.

Lemma setValue_touches_only_its_key_witness :
  let full := {| items := {[ "theme" := "1" ]}; quota := 6 |} in
  let h := useLocalStorage "name" (VStr "John") (Some full) in
  let r := setValue (Plain (VStr "Ada")) h (Some full) in
  snd r = Some full ∧ storedValue (fst r) = VStr "Ada".
Proof.
  intros full h r.
  pose proof (setValue_touches_only_its_key (Plain (VStr "Ada")) h (Some full))
    as (_ & _ & _ & Hfail).
  apply (Hfail (VStr "Ada") full eq_refl eq_refl). vm_compute. reflexivity.
Defined.

(** X3: the instance starts with [initialValue] when there is no window,
    no item under the key, an empty item, or the item [undefined];
    nothing is thrown.  In particular [undefined] is never read back: once
    [setValue(undefined)] has written its item, a new instance starts with
    its own initial value. *)
Theorem initial_value_fallback (k : string) (initial : jsval) (w : Window) :
  (item k w = None ∨ item k w = Some EmptyString ∨ item k w = Some "undefined" →
   storedValue (useLocalStorage k initial w) = initial) ∧
  (∀ h st st',
     w = Some st → key h = k →
     setItem k (DOMString (stringify VUndefined)) st = Some st' →
     snd (setValue (Plain VUndefined) h w) = Some st' ∧
     storedValue (useLocalStorage k initial (Some st')) = initial).
Proof.
  assert (Hfall : ∀ w', item k w' = None ∨ item k w' = Some EmptyString ∨
            item k w' = Some "undefined" →
            storedValue (useLocalStorage k initial w') = initial).
  { intros w' Hitem. simpl. unfold initial_state.
    replace (match w' with Some st => getItem k st | None => None end) with (item k w')
      by (by destruct w').
    by destruct Hitem as [->|[->| ->]]. }
  split; [apply Hfall|].
  intros h st st' -> <- Hset. unfold setValue. simpl in *. rewrite Hset. split; [done|].
  apply Hfall. right. right.
  simpl. unfold setItem in Hset. case_decide; [|done]. injection Hset as <-.
  unfold getItem. simpl. apply lookup_insert_eq.
Qed.

Lemma initial_value_fallback_witness :
  let st := {| items := {[ "n" := "undefined" ]}; quota := 5000 |} in
  storedValue (useLocalStorage "n" (VNum (Fin 0)) (Some st)) = VNum (Fin 0).
Proof.
  intros st. apply (proj1 (initial_value_fallback "n" (VNum (Fin 0)) (Some st))).
  right. right. reflexivity.
Defined.

(** X4: a function argument is applied to the value the callback
    captured.  Called from the render that shows the current value,
    [setValue(f)] is [setValue(f(current))], and a function that throws
    changes nothing.  Two function updates issued from the same render
    both start from the value of that render: the second overwrites the
    first, in the instance and in the storage area, instead of building on
    it; issued from successive renders they compose. *)
Theorem function_updates (h : Hook) (w : Window) (f g : jsval → option jsval)
    (v v' : jsval) :
  setValue_seen (storedValue h) (Updater f) h w = setValue (Updater f) h w ∧
  (f (storedValue h) = None → setValue (Updater f) h w = (h, w)) ∧
  (f (storedValue h) = Some v →
     setValue (Updater f) h w = setValue (Plain v) h w ∧
     let r1 := setValue (Updater f) h w in
     (g (storedValue h) = Some v' →
        let r2 := setValue_seen (storedValue h) (Updater g) (fst r1) (snd r1) in
        storedValue (fst r2) = v' ∧
        (is_Some (snd r1 ≫= setItem (key h) (DOMString (stringify v'))) →
         item (key h) (snd r2) = Some (DOMString (stringify v')))) ∧
     (g v = Some v' →
        storedValue (fst (setValue (Updater g) (fst r1) (snd r1))) = v')).
Proof.
  split; [done|]. split.
  { intros Hf. unfold setValue. by rewrite Hf. }
  intros Hf. split; [unfold setValue; by rewrite Hf|].
  assert (Hstored : ∀ V h0 w0, storedValue (fst (setValue (Plain V) h0 w0)) = V).
  { intros V h0 w0. unfold setValue. destruct w0 as [st|]; [|done].
    by destruct (setItem _ _ st). }
  assert (Hkey : key (fst (setValue (Updater f) h w)) = key h).
  { apply setValue_keeps_key. }
  simpl. split.
  - intros Hg. unfold setValue_seen. rewrite Hg, Hkey. split.
    + destruct (snd (setValue (Updater f) h w)) as [st|]; [|done].
      by destruct (setItem _ _ st).
    + intros [st2 Hset]. destruct (snd (setValue (Updater f) h w)) as [st|]; [|done].
      simpl in Hset. rewrite Hset. simpl. by eapply setItem_same_key.
  - intros Hg. unfold setValue at 1.
    assert (storedValue (fst (setValue (Updater f) h w)) = v) as ->.
    { unfold setValue. rewrite Hf. apply (Hstored v h w). }
    rewrite Hg. destruct (snd (setValue (Updater f) h w)) as [st|]; [|done].
    by destruct (setItem _ _ st).
Qed.

Lemma function_updates_witness :
  let st := {| items := ∅; quota := 5000 |} in
  let h := useLocalStorage "count" (VNum (Fin 0)) (Some st) in
  let increment := fun v => match v with
                            | VNum (Fin z) => Some (VNum (Fin (z + 1)))
                            | _ => None
                            end in
  let r1 := setValue (Updater increment) h (Some st) in
  storedValue (fst (setValue_seen (storedValue h) (Updater increment) (fst r1) (snd r1)))
  = VNum (Fin 1) ∧
  storedValue (fst (setValue (Updater increment) (fst r1) (snd r1))) = VNum (Fin 2).
Proof.
  intros st h increment r1.
  pose proof (function_updates h (Some st) increment increment (VNum (Fin 1)) (VNum (Fin 1)))
    as (_ & _ & Hsame).
  destruct (Hsame eq_refl) as (_ & Hstale & _).
  split; [apply (Hstale eq_refl)|].
  pose proof (function_updates h (Some st) increment increment (VNum (Fin 1)) (VNum (Fin 2)))
    as (_ & _ & Hnext).
  destruct (Hnext eq_refl) as (_ & _ & Hcompose). apply (Hcompose eq_refl).
Defined.

Lemma written_item_is_read (k text : string) (st : Storage) (V initial' : jsval) :
  getItem k st = Some text → stringify V = Some text → JS.parse text = Some V →
  storedValue (useLocalStorage k initial' (Some st)) = V.
Proof.
  intros Hget Htext Hparse. simpl. unfold initial_state.
  by rewrite Hget, (stringify_truthy V text Htext), Hparse.
Qed.

(** X5: [useSessionStorage] reads and writes [window.sessionStorage]
    only.  Its [setValue] and [removeValue] leave [window.localStorage] as
    it is, so a [useLocalStorage] instance with the same key never sees
    them; a value that survives JSON, once written, is what a new
    [useSessionStorage] instance with the key starts with, and after
    [removeValue] such an instance starts with its own initial value. *)
Theorem session_storage_is_separate (value : SetArg) (h : Hook) (a : Areas)
    (V initial' : jsval) :
  localStorage <$> snd (session_setValue value h (Some a)) = Some (localStorage a) ∧
  localStorage <$> snd (session_removeValue h (Some a)) = Some (localStorage a) ∧
  (json_safe V = true →
   is_Some (setItem (key h) (DOMString (stringify V)) (sessionStorage a)) →
   storedValue (useSessionStorage (key h) initial'
                  (snd (session_setValue (Plain V) h (Some a)))) = V) ∧
  storedValue (useSessionStorage (key h) initial' (snd (session_removeValue h (Some a))))
  = initial'.
Proof.
  split; [|split; [|split]].
  - unfold session_setValue. simpl.
    by destruct (snd (setValue value h (Some (sessionStorage a)))).
  - done.
  - intros Hsafe [st' Hset].
    destruct (json_safe_parse_stringify V Hsafe) as (text & Htext & Hparse).
    unfold session_setValue, setValue, useSessionStorage. simpl. rewrite Hset. simpl.
    rewrite Htext in Hset. simpl in Hset.
    apply (written_item_is_read (key h) text st' V initial'); [|done..].
    by eapply setItem_same_key.
  - unfold session_removeValue, useSessionStorage. simpl.
    unfold initial_state, getItem. simpl. by rewrite lookup_delete_eq.
Qed.

Lemma session_storage_is_separate_witness :
  let a := {| localStorage := {| items := {[ "draft" := "1" ]}; quota := 5000 |};
              sessionStorage := {| items := ∅; quota := 5000 |} |} in
  let h := useSessionStorage "draft" VNull (Some a) in
  let after := snd (session_setValue (Plain (VStr "hello")) h (Some a)) in
  storedValue (useSessionStorage "draft" VNull after) = VStr "hello" ∧
  storedValue (useLocalStorage "draft" VNull (localStorage <$> after)) = VNum (Fin 1).
Proof.
  intros a h after. split; [|reflexivity].
  pose proof (session_storage_is_separate (Plain VNull) h a (VStr "hello") VNull)
    as (_ & _ & Hread & _).
  apply Hread; [reflexivity|]. vm_compute. eexists. reflexivity.
Defined.

End LocalStorageMore.

(** ** Debounced value and debounced callback *)

Section Debouncing.
Import Debounce.
Context {T : Type} `{EqDecision T}.



End Debouncing.


Section DebouncedCalls.
Import Debounce.
Context {Args : Type}.




End DebouncedCalls.


(** ** Throttled callback: rate and order *)

Section ThrottleRate.
Import Throttle.
Context {Args : Type}.

Lemma run_calls_sublist (delay : Z) (invs : list (Z * Args)) (h : Hook Args) :
  ∃ new, calls (run delay invs h) = calls h ++ new ∧ new `sublist_of` invs.
Proof.
  revert h. induction invs as [|[now args] invs IH]; intros h.
  - exists []. by rewrite app_nil_r.
  - change (run delay ((now, args) :: invs) h)
      with (run delay invs (throttled delay now args h)).
    destruct (IH (throttled delay now args h)) as (new & -> & Hnew).
    unfold throttled. case_bool_decide; simpl.
    + exists ((now, args) :: new). rewrite <- app_assoc. split; [done|].
      by apply sublist_skip.
    + exists new. split; [done|]. by apply sublist_cons.
Qed.

Lemma StronglySorted_filter {A} (R : relation A) (P : A → Prop)
    `{!∀ x, Decision (P x)} (l : list A) :
  StronglySorted R l → StronglySorted R (filter P l).
Proof.
  induction l as [|x l IH]; intros Hs; [done|].
  apply StronglySorted_cons in Hs as [Hx Hs]. rewrite filter_cons.
  case_decide; [|by apply IH]. apply StronglySorted_cons. split; [|by apply IH].
  apply Forall_forall. intros y Hy. apply list_elem_of_filter in Hy as [_ Hy].
  rewrite Forall_forall in Hx. by apply Hx.
Qed.

Lemma spaced_span (delay lo hi : Z) (l : list (Z * Args)) :
  0 < delay → StronglySorted (apart delay) l → l ≠ [] →
  Forall (fun c => lo <= fst c <= hi) l →
  (Z.of_nat (length l) - 1) * delay <= hi - lo.
Proof.
  intros Hd. revert lo. induction l as [|c l IH]; intros lo Hs Hne Hin; [done|].
  apply StronglySorted_cons in Hs as [Hc Hs]. apply Forall_cons in Hin as [Hc_in Hin].
  destruct l as [|c' l].
  - simpl. lia.
  - assert (Forall (fun x => lo + delay <= fst x <= hi) (c' :: l)) as Hin'.
    { rewrite Forall_forall in *. intros x Hx. specialize (Hc x Hx). specialize (Hin x Hx).
      unfold apart in Hc. lia. }
    specialize (IH (lo + delay) Hs ltac:(done) Hin').
    rewrite length_cons, Nat2Z.inj_succ. lia.
Qed.

(** X8: the callback is run with the arguments of some of the
    invocations, in the order they were made, nothing else; and with a
    positive [delay] any window of [w] milliseconds holds at most
    [w / delay + 1] executions. *)
Theorem throttle_limits_rate (delay t0 : Z) (invs : list (Z * Args)) :
  let h := run delay invs (useThrottle t0) in
  calls h `sublist_of` invs ∧
  (0 < delay → ∀ a w, 0 <= w →
     Z.of_nat (length (filter (in_window a w) (calls h))) <= w / delay + 1).
Proof.
  simpl. split.
  - destruct (run_calls_sublist delay invs (useThrottle t0)) as (new & -> & Hnew). done.
  - intros Hd a w Hw.
    destruct (executions_apart delay t0 invs Hd) as [Hsorted _].
    set (l := filter (in_window a w) (calls (run delay invs (useThrottle t0)))).
    destruct (decide (l = [])) as [->|Hne].
    { simpl. pose proof (Z.div_pos w delay Hw Hd). lia. }
    assert ((Z.of_nat (length l) - 1) * delay <= (a + w) - a) as Hspan.
    { apply spaced_span; [done| |done|].
      - by apply StronglySorted_filter.
      - apply Forall_forall. intros c Hc. by apply list_elem_of_filter in Hc as [? _]. }
    assert (Z.of_nat (length l) - 1 <= w / delay); [|lia].
    apply Z.div_le_lower_bound; lia.
Qed.

End ThrottleRate.

Lemma throttle_limits_rate_witness :
  let scroll := [(100, "a"); (250, "b"); (300, "c"); (520, "d"); (990, "e")] in
  let h := Throttle.run 200 scroll (Throttle.useThrottle 0) in
  0 < 200 ∧ 0 <= 500 ∧ Throttle.calls h = [(250, "b"); (520, "d"); (990, "e")] ∧
  Z.of_nat (length (filter (Throttle.in_window 250 500) (Throttle.calls h))) <= 500 / 200 + 1.
Proof.
  intros scroll h. split; [lia|]. split; [lia|]. split; [reflexivity|].
  apply (proj2 (throttle_limits_rate 200 0 scroll)); lia.
Defined.

(** ** Async wrapper: flags, races, fetching *)

Section AsyncMore.
Import JS Async Fetch.

Lemma mounted_without_cleanup (evs : list Event) (h : Hook) :
  Cleanup ∉ evs → isMountedRef (run evs h) = isMountedRef h.
Proof.
  revert h. induction evs as [|ev evs IH]; intros h Hno; [done|].
  apply not_elem_of_cons in Hno as [Hev Hno]. simpl. rewrite IH by done.
  destruct ev as [|[r|e]|]; simpl; [done| | |by destruct Hev].
  - by destruct h as [s []].
  - destruct h as [s []]; simpl; [|done]. by destruct (normalize e).
Qed.

Lemma detached_after_cleanup (evs : list Event) (h : Hook) :
  Cleanup ∈ evs → isMountedRef (run evs h) = false.
Proof.
  intros (pre & post & ->)%list_elem_of_split. unfold run. rewrite foldl_app. simpl.
  by apply cleanup_is_final.
Qed.

(** X9: in every state the wrapper can reach, [isLoading] is set exactly
    when the status is [loading]; and once [execute] has been called the
    status is never [idle] again. *)
Theorem async_flags_agree (evs : list Event) :
  let s := state (run evs mount) in
  (isLoading s = true ↔ status s = st_loading) ∧
  (Execute ∈ evs → status s ≠ st_idle).
Proof.
  induction evs as [|ev evs IH] using rev_ind; [by split; [split|intros ?%elem_of_nil]|].
  rewrite run_snoc. simpl in *. destruct IH as [Hflag Hidle].
  destruct ev as [|[r|e]|]; simpl.
  - split; [done|]. by intros _.
  - destruct (isMountedRef (run evs mount)); simpl.
    + split; [by split|]. by intros _.
    + split; [done|]. intros Hin. apply Hidle. apply elem_of_app in Hin as [?|Hin]; [done|].
      by apply list_elem_of_singleton in Hin.
  - assert (Execute ∈ evs ++ [Settle (Rejected e)] → Execute ∈ evs) as Hev.
    { intros Hin. apply elem_of_app in Hin as [?|Hin]; [done|].
      by apply list_elem_of_singleton in Hin. }
    destruct (isMountedRef (run evs mount)); simpl.
    + destruct (normalize e); simpl.
      * split; [by split|]. by intros _.
      * split; [done|]. intros Hin. by apply Hidle, Hev.
    + split; [done|]. intros Hin. by apply Hidle, Hev.
  - split; [done|]. intros Hin. apply Hidle. apply elem_of_app in Hin as [?|Hin]; [done|].
    by apply list_elem_of_singleton in Hin.
Qed.

Lemma async_flags_agree_witness :
  let evs := [Execute; Settle (Resolved (VNum (Fin 1))); Execute] in
  Execute ∈ evs ∧ status (state (run evs mount)) ≠ st_idle.
Proof.
  intros evs. split; [by left|]. apply (proj2 (async_flags_agree evs)). by left.
Defined.

(** X10: as long as the cleanup of the effect has not run, the state
    after a settlement is the one of that settlement alone, whatever
    happened before (it stays what it was when the conversion of the
    rejection value throws).  With several operations in flight the one
    that settles last decides the state, also when it was started first.
    Once the cleanup has run, at unmount or because [execute] or
    [immediate] changed between two renders, a settlement changes
    nothing. *)
Theorem last_settlement_decides (evs : list Event) (o earlier later : Outcome) :
  (Cleanup ∉ evs →
   state (run (evs ++ [Settle o]) mount) = default (state (run evs mount)) (settled o)) ∧
  (Cleanup ∈ evs → state (run (evs ++ [Settle o]) mount) = state (run evs mount)) ∧
  (∀ s, settled earlier = Some s →
     state (run [Execute; Execute; Settle later; Settle earlier] mount) = s).
Proof.
  split; [|split].
  - intros Hno. rewrite run_snoc. simpl.
    pose proof (mounted_without_cleanup evs mount Hno) as Hm. simpl in Hm.
    destruct o as [r|e]; simpl; rewrite Hm; [done|]. by destruct (normalize e).
  - intros Hin. rewrite run_snoc. simpl.
    by rewrite (detached_settle_noop o _ (detached_after_cleanup evs mount Hin)).
  - intros s Hs. destruct earlier as [r|e]; simpl in Hs.
    + injection Hs as <-. by destruct later as [r'|e']; simpl; [|destruct (normalize e')].
    + destruct (normalize e) as [err|] eqn:Herr; [|done]. injection Hs as <-.
      destruct later as [r'|e']; simpl; [|destruct (normalize e')]; by rewrite Herr.
Qed.

Lemma last_settlement_decides_witness :
  let evs := [Execute; Execute; Settle (Resolved (VStr "second"))] in
  (Cleanup ∉ evs) ∧
  data (state (run (evs ++ [Settle (Resolved (VStr "first"))]) mount)) = VStr "first".
Proof.
  intros evs.
  assert (Hno : Cleanup ∉ evs).
  { intros Hin. repeat (apply elem_of_cons in Hin as [Hin|Hin]; [discriminate Hin|]).
    by apply elem_of_nil in Hin. }
  split; [exact Hno|].
  pose proof (last_settlement_decides evs (Resolved (VStr "first")) (Resolved VNull)
                (Resolved VNull)) as [Hlast _].
  by rewrite (Hlast Hno).
Defined.



(** X12: [fetchData] of [useApi] answers from its cache while the entry
    is younger than [cacheTime], without looking at the network, and keeps
    the entry; otherwise it asks the network.  A successful answer is
    cached with the time it was read, so the next call within [cacheTime]
    of that time returns it again; a failure or a response that is not ok
    leaves the cache as it was. *)
Theorem useApi_cache (syntax_error : string → ErrorObj) (cacheTime now later : Z)
    (f f' : Fetched) (cacheRef : option Cache) :
  (∀ entry, cacheRef = Some entry → now - timestamp entry < cacheTime →
     fetchData syntax_error cacheTime now f later cacheRef
     = (Resolved (cached entry), cacheRef)) ∧
  (∀ resp v, f = Responded resp → ok resp = true → JS.parse (body resp) = Some v →
     (∀ entry, cacheRef = Some entry → cacheTime <= now - timestamp entry) →
     fetchData syntax_error cacheTime now f later cacheRef
     = (Resolved v, Some {| cached := v; timestamp := later |}) ∧
     ∀ now' later', now' - later < cacheTime →
       fst (fetchData syntax_error cacheTime now' f' later'
              (snd (fetchData syntax_error cacheTime now f later cacheRef)))
       = Resolved v) ∧
  ((∀ resp, f = Responded resp → ok resp = false) →
   snd (fetchData syntax_error cacheTime now f later cacheRef) = cacheRef).
Proof.
  split; [|split].
  - intros entry -> Hfresh. unfold fetchData. by rewrite bool_decide_eq_true_2.
  - intros resp v -> Hok Hparse Hstale.
    assert (fetchData syntax_error cacheTime now (Responded resp) later cacheRef
            = (Resolved v, Some {| cached := v; timestamp := later |})) as Hmiss.
    { unfold fetchData, json. rewrite Hok, Hparse. destruct cacheRef as [entry|]; [|done].
      rewrite bool_decide_eq_false_2; [done|]. specialize (Hstale entry eq_refl). lia. }
    split; [done|]. intros now' later' Hfresh. rewrite Hmiss. simpl.
    unfold fetchData. simpl. by rewrite bool_decide_eq_true_2.
  - intros Hbad. unfold fetchData. destruct cacheRef as [entry|].
    + case_bool_decide; [done|]. destruct f as [e|resp]; [done|].
      by rewrite (Hbad resp eq_refl).
    + destruct f as [e|resp]; [done|]. by rewrite (Hbad resp eq_refl).
Qed.

Lemma useApi_cache_witness :
  let engine := fun _ : string => {| err_name := "SyntaxError"; err_message := "bad" |} in
  let first := fetchData engine 300000 1000 (Responded {| status_code := 200; body := "[1,2]" |})
                 1200 None in
  fst (fetchData engine 300000 200000 (Failed (new_Error "offline")) 200100 (snd first))
  = Resolved (VArr [VNum (Fin 1); VNum (Fin 2)]).
Proof.
  intros engine first.
  pose proof (useApi_cache engine 300000 1000 1200
                (Responded {| status_code := 200; body := "[1,2]" |})
                (Failed (new_Error "offline")) None) as (_ & Hmiss & _).
  destruct (Hmiss {| status_code := 200; body := "[1,2]" |}
                  (VArr [VNum (Fin 1); VNum (Fin 2)]) eq_refl eq_refl eq_refl)
    as [_ Hnext]; [by intros entry [=]|].
  apply Hnext. lia.
Defined.

End AsyncMore.

(** ** Notification queue: order, timers, clearing *)

Section NotificationQueue.
Import Notification NotificationLog.

Lemma Forall_filter_keeps {A} (P Q : A → Prop) `{!∀ x, Decision (Q x)} (l : list A) :
  Forall P l → Forall P (filter Q l).
Proof.
  rewrite !Forall_forall. intros Hl x Hx. apply list_elem_of_filter in Hx as [_ Hx]. by apply Hl.
Qed.

Lemma filter_iff_on {A} (P Q : A → Prop) `{!∀ x, Decision (P x)} `{!∀ x, Decision (Q x)}
    (l : list A) :
  (∀ x, x ∈ l → P x ↔ Q x) → filter P l = filter Q l.
Proof.
  induction l as [|x l IH]; intros Hl; [done|].
  rewrite !filter_cons. rewrite IH by (intros y Hy; apply Hl; by right).
  destruct (decide (P x)) as [HP|HP], (decide (Q x)) as [HQ|HQ]; try done.
  - destruct HQ. apply Hl; [by left|done].
  - destruct HP. apply Hl; [by left|done].
Qed.

Lemma notification_run_snoc (ops : list Op) (op : Op) (p : Provider) :
  run (ops ++ [op]) p = step (run ops p) op.
Proof. unfold run. by rewrite foldl_app. Qed.

Lemma added_snoc (ops : list Op) (op : Op) : added (ops ++ [op]) = added ops ++ added [op].
Proof. unfold added. by rewrite bind_app. Qed.

Lemma elapse_filters (dt : Z) (p : Provider) :
  notifications (elapse dt p)
  = filter (fun n => id n ∉ target <$> filter due (tick dt <$> timers p)) (notifications p).
Proof. unfold elapse. simpl. apply fired_timers_remove. Qed.

(** X13: the queue always shows notifications in the order in which they
    were added: it is a sublist of the list of the notifications the
    calls of [addNotification] built, and every queued notification
    carries a duration. *)
Theorem queue_keeps_insertion_order (ops : list Op) :
  notifications (run ops initial) `sublist_of` added ops ∧
  Forall (fun n => is_Some (duration n)) (notifications (run ops initial)).
Proof.
  induction ops as [|op ops [IHsub IHdur]] using rev_ind; [by split|].
  rewrite notification_run_snoc, added_snoc.
  destruct op as [host m ty du|j| |dt]; simpl.
  - split; [by apply sublist_app|]. apply Forall_app. split; [done|].
    apply Forall_singleton. by eexists.
  - rewrite app_nil_r. split.
    + etrans; [apply sublist_filter|done].
    + by apply Forall_filter_keeps.
  - split; [apply sublist_nil_l|constructor].
  - rewrite app_nil_r, fired_timers_remove. split.
    + etrans; [apply sublist_filter|done].
    + by apply Forall_filter_keeps.
Qed.

Lemma has_timer_step (p : Provider) (op : Op) :
  forward op → Forall (has_timer p) (notifications p) →
  Forall (has_timer (step p op)) (notifications (step p op)).
Proof.
  intros Hop Hinv. rewrite Forall_forall in Hinv. apply Forall_forall. intros n Hn.
  destruct op as [host m ty du|j| |dt]; simpl in *.
  - apply elem_of_app in Hn as [Hn|Hn].
    + intros d Hd Hpos. destruct (Hinv n Hn d Hd Hpos) as (t & Ht & Hi & Hr).
      exists t. split; [|done]. case_bool_decide; [apply elem_of_app; by left|done].
    + apply list_elem_of_singleton in Hn as ->. intros d [= <-] Hpos.
      exists {| remaining := timer_delay (default 5000 du);
                target := generateId (now_id host) (random36 host) |}.
      rewrite bool_decide_eq_true_2 by lia.
      split; [apply elem_of_app; right; by apply list_elem_of_singleton|]. simpl.
      pose proof (timer_delay_bounds (default 5000 du)).
      pose proof (timer_delay_le (default 5000 du) Hpos).
      split; [done|]. split; [lia|]. intros Hsmall. rewrite timer_delay_small; lia.
  - apply list_elem_of_filter in Hn as [_ Hn]. intros d Hd Hpos.
    by apply (Hinv n Hn d Hd Hpos).
  - by apply elem_of_nil in Hn.
  - apply elapse_notifications in Hn as [Hn Hfired]. intros d Hd Hpos.
    destruct (Hinv n Hn d Hd Hpos) as (t & Ht & Hi & Hr & Hsmall).
    assert (0 < remaining t - dt) as Hleft.
    { destruct (decide (0 < remaining t - dt)) as [|Hdue]; [done|]. destruct Hfired.
      apply list_elem_of_fmap. exists (tick dt t). split; [done|].
      apply list_elem_of_filter. split; [unfold due; simpl; lia|].
      apply list_elem_of_fmap. by exists t. }
    exists (tick dt t). split; [|simpl; split; [done|lia]].
    apply elapse_timers. by exists t.
Qed.

(** X14: as long as time does not run backwards, every queued
    notification with a positive duration has a pending timer that will
    remove it, due within that duration (and with time left on it, for a
    duration up to 2147483647 ms): only notifications added with a
    duration of 0 or less can stay. *)
Theorem queued_notifications_have_timers (ops : list Op) :
  Forall forward ops →
  Forall (has_timer (run ops initial)) (notifications (run ops initial)).
Proof.
  induction ops as [|op ops IH] using rev_ind; intros Hops; [constructor|].
  apply Forall_app in Hops as [Hops Hop]. rewrite Forall_singleton in Hop.
  rewrite notification_run_snoc. apply has_timer_step; [done|]. by apply IH.
Qed.

Lemma queued_notifications_have_timers_witness :
  let host := {| now_id := 1000; random36 := "0.4fzyo82mvyr"; now_stamp := 1000 |} in
  let ops := [Add host "saved" None None; Elapse 4000] in
  Forall forward ops ∧
  Forall (has_timer (run ops initial)) (notifications (run ops initial)).
Proof.
  intros host ops.
  assert (Hops : Forall forward ops) by (repeat constructor; simpl; lia).
  split; [exact Hops|]. exact (queued_notifications_have_timers ops Hops).
Defined.

Lemma stale_timers_commute (stale : list string) (dt : Z) (ts : list Timer) :
  filter (fun t => ¬ due t) (tick dt <$> filter (fun t => target t ∉ stale) ts)
  = filter (fun t => target t ∉ stale) (filter (fun t => ¬ due t) (tick dt <$> ts)).
Proof.
  induction ts as [|t ts IH]; [done|].
  rewrite fmap_cons, (filter_cons _ t), (filter_cons _ (tick dt t)).
  destruct (decide (target t ∉ stale)) as [Hs|Hs], (decide (¬ due (tick dt t))) as [Hd|Hd].
  - rewrite fmap_cons, !filter_cons, decide_True, decide_True by done. by rewrite IH.
  - by rewrite fmap_cons, filter_cons, decide_False.
  - by rewrite filter_cons, decide_False.
  - done.
Qed.

Lemma fresh_like_step (stale : list string) (q q' : Provider) (op : Op) :
  Forall (fun n => id n ∉ stale) (added [op]) →
  fresh_like stale q q' → fresh_like stale (step q op) (step q' op).
Proof.
  intros Hop (Hn & Ht & Hids). destruct op as [host m ty du|j| |dt]; unfold fresh_like; simpl in *.
  - rewrite Forall_singleton in Hop. simpl in Hop. split; [by rewrite Hn|]. split.
    + case_bool_decide; [|done]. rewrite filter_app, Ht. f_equal.
      by rewrite filter_cons_True.
    + apply Forall_app. split; [done|]. by apply Forall_singleton.
  - split; [by rewrite Hn|]. split; [done|]. by apply Forall_filter_keeps.
  - by repeat split.
  - split; [|split].
    + rewrite !fired_timers_remove, <-Hn. apply filter_iff_on.
      intros n Hin. rewrite Forall_forall in Hids. specialize (Hids n Hin).
      rewrite Ht. rewrite !list_elem_of_fmap. split.
      * intros Hout (t & Hi & Hfired). apply Hout. exists t. split; [done|].
        apply list_elem_of_filter in Hfired as [Hdue Hfired].
        apply list_elem_of_fmap in Hfired as (t0 & -> & Ht0).
        apply list_elem_of_filter in Ht0 as [_ Ht0].
        apply list_elem_of_filter. split; [done|]. apply list_elem_of_fmap. by exists t0.
      * intros Hout (t & Hi & Hfired). apply Hout. exists t. split; [done|].
        apply list_elem_of_filter in Hfired as [Hdue Hfired].
        apply list_elem_of_fmap in Hfired as (t0 & -> & Ht0).
        apply list_elem_of_filter. split; [done|]. apply list_elem_of_fmap. exists t0.
        split; [done|]. apply list_elem_of_filter. split; [|done]. simpl in Hi. by rewrite <-Hi.
    + rewrite Ht. apply stale_timers_commute.
    + rewrite fired_timers_remove. by apply Forall_filter_keeps.
Qed.

(** X15: [clearNotifications] empties the queue but cancels no timer.
    The timers left over are harmless as long as no later notification
    gets the id of one of them: from then on the queue develops exactly as
    the queue of a provider that has just been mounted. *)
Theorem clearNotifications_starts_afresh (p : Provider) (ops : list Op) :
  notifications (clearNotifications p) = [] ∧
  timers (clearNotifications p) = timers p ∧
  (Forall (fun n => id n ∉ target <$> timers p) (added ops) →
   notifications (run ops (clearNotifications p)) = notifications (run ops initial)).
Proof.
  split; [done|]. split; [done|]. intros Hops.
  enough (fresh_like (target <$> timers p) (run ops (clearNotifications p)) (run ops initial))
    as [Hn _] by done.
  induction ops as [|op ops IH] using rev_ind.
  - split; [done|]. split; [|constructor]. simpl. symmetry. apply filter_none.
    apply Forall_forall. intros t Ht Hout. apply Hout. apply list_elem_of_fmap. by exists t.
  - rewrite added_snoc in Hops. apply Forall_app in Hops as [Hops Hop].
    rewrite !notification_run_snoc. apply fresh_like_step; [done|]. by apply IH.
Qed.

Lemma clearNotifications_starts_afresh_witness :
  let host := {| now_id := 1000; random36 := "0.4fzyo82mvyr"; now_stamp := 1000 |} in
  let later := {| now_id := 1040; random36 := "0.9k2b1xq07de"; now_stamp := 1040 |} in
  let p := run [Add host "saved" None None] initial in
  let ops := [Add later "next" None (Some 0); Elapse 6000] in
  Forall (fun n => id n ∉ target <$> timers p) (added ops) ∧
  message <$> notifications (run ops (clearNotifications p)) = ["next"].
Proof.
  intros host later p ops.
  assert (Hops : Forall (fun n => id n ∉ target <$> timers p) (added ops)).
  { apply Forall_singleton. intros Hin. apply list_elem_of_singleton in Hin.
    vm_compute in Hin. discriminate Hin. }
  split; [exact Hops|].
  pose proof (clearNotifications_starts_afresh p ops) as (_ & _ & Hfresh).
  by rewrite (Hfresh Hops).
Defined.

End NotificationQueue.

(** ** Form state: fields, merges, errors *)

Section FormFields.
Import JS Form FormField.

(** X16: the setters of [useFormField name] act on their own field only.
    [setValue] is read back as [value] and leaves [error] and [isTouched]
    of the field alone; [setTouched] and [setUntouched] set [isTouched]
    and leave [value] and [error] alone; [setUntouched] undoes
    [setTouched] on a field that was untouched; and no setter of [name]
    changes what [useFormField other] reads for another name. *)
Theorem useFormField_setters_are_local (name other : string) (val : jsval) (s : FormState) :
  useFormField name (setValue name val s)
    = {| value := val; error := error (useFormField name s);
         isTouched := isTouched (useFormField name s) |} ∧
  useFormField name (setTouched name s)
    = {| value := value (useFormField name s); error := error (useFormField name s);
         isTouched := true |} ∧
  useFormField name (setUntouched name s)
    = {| value := value (useFormField name s); error := error (useFormField name s);
         isTouched := false |} ∧
  (name ∉ touched s → setUntouched name (setTouched name s) = s) ∧
  (other ≠ name →
     useFormField other (setValue name val s) = useFormField other s ∧
     useFormField other (setTouched name s) = useFormField other s ∧
     useFormField other (setUntouched name s) = useFormField other s).
Proof.
  unfold useFormField, setValue, setTouched, setUntouched. simpl.
  split; [|split; [|split; [|split]]].
  - by rewrite lookup_insert_eq.
  - f_equal. apply bool_decide_eq_true_2, elem_of_union. right. by apply elem_of_singleton.
  - f_equal. apply bool_decide_eq_false_2. intros [_ Hn]%elem_of_difference.
    apply Hn. by apply elem_of_singleton.
  - intros Hout. destruct s as [fd er to sub]. unfold markAsUntouched, markAsTouched. simpl in *.
    f_equal. apply set_eq. intros x. rewrite elem_of_difference, elem_of_union, elem_of_singleton.
    split; [by intros [[?|?] ?]|]. intros Hx. split; [by left|]. by intros ->.
  - intros Hne. split; [|split].
    + by rewrite lookup_insert_ne.
    + f_equal. apply bool_decide_ext. rewrite elem_of_union, elem_of_singleton.
      split; [by intros [?|?]|by left].
    + f_equal. apply bool_decide_ext. rewrite elem_of_difference, elem_of_singleton.
      split; [by intros [? _]|by split].
Qed.

Lemma useFormField_setters_are_local_witness :
  let s := mount {[ "email" := VStr "a@b.c" ]} in
  "name" ≠ "email" ∧
  value (useFormField "email" (setValue "name" (VStr "Ada") s)) = VStr "a@b.c".
Proof.
  intros s. split; [done|].
  pose proof (useFormField_setters_are_local "name" "email" (VStr "Ada") s)
    as (_ & _ & _ & _ & Hother).
  destruct Hother as [-> _]; done.
Defined.

(** X17: [updateFields] merges: a key of [updates] gets the value of
    [updates], every other key keeps its value.  Updating one field is the
    merge of a one-key object, two merges in a row are the merge of the
    second object laid over the first, and a merge of the empty object or
    a repeated merge changes nothing. *)
Theorem updateFields_merges (u u1 u2 : gmap string jsval) (name : string) (val : jsval)
    (s : FormState) :
  (∀ k, formData (updateFields u s) !! k
        = match u !! k with Some v => Some v | None => formData s !! k end) ∧
  updateFields {[ name := val ]} s = updateField name val s ∧
  updateFields u2 (updateFields u1 s) = updateFields (u2 ∪ u1) s ∧
  updateFields ∅ s = s ∧
  updateFields u (updateFields u s) = updateFields u s.
Proof.
  destruct s as [fd er to sub]. unfold updateFields, updateField. simpl.
  split; [|split; [|split; [|split]]].
  - intros k. rewrite lookup_union. by destruct (u !! k), (fd !! k).
  - f_equal. by rewrite insert_union_singleton_l.
  - f_equal. by rewrite (assoc (∪)).
  - f_equal. by rewrite (left_id ∅ (∪)).
  - f_equal. by rewrite (assoc (∪)), (idemp (∪)).
Qed.

(** X18: [setFieldError] is read back by [getFieldError] and changes the
    error of no other field, but it never removes a key from [errors]:
    also after [setFieldError name undefined] the object [errors] has the
    key [name], so it is not empty although no field reports an error.
    [setErrors] drops whatever was set before. *)
Theorem field_errors (name other : string) (err : option string)
    (newErrors : gmap string (option string)) (s : FormState) :
  getFieldError name (setFieldError name err s) = err ∧
  (other ≠ name → getFieldError other (setFieldError name err s) = getFieldError other s) ∧
  dom (errors (setFieldError name err s)) = dom (errors s) ∪ {[ name ]} ∧
  errors (setFieldError name None s) ≠ ∅ ∧
  setErrors newErrors (setFieldError name err s) = setErrors newErrors s.
Proof.
  unfold getFieldError, setFieldError, setErrors. simpl. split; [|split; [|split; [|split]]].
  - by rewrite lookup_insert_eq.
  - intros Hne. by rewrite lookup_insert_ne.
  - by rewrite dom_insert_L, (comm_L (∪)).
  - apply insert_non_empty.
  - done.
Qed.

Lemma field_errors_witness :
  let s := setFieldError "email" (Some "Required") (mount ∅) in
  "email" ≠ "name" ∧
  getFieldError "email" (setFieldError "name" None s) = Some "Required".
Proof.
  intros s. split; [done|].
  pose proof (field_errors "name" "email" None ∅ s) as (_ & Hother & _).
  by rewrite Hother.
Defined.

End FormFields.

(** ** Theme *)

Section ThemePersistence.
Import WebStorage Theme.

Lemma effect_synced (p p' : Provider) :
  effect p = Some p' →
  synced p' ∧ theme p' = theme p ∧
  ∀ c, c ≠ "dark" → c ∈ classList p' ↔ c ∈ classList p.
Proof.
  unfold effect. intros Heff.
  destruct (setItem THEME_STORAGE_KEY (theme_name (theme p)) (localStorage p)) as [st|] eqn:Hset;
    [|done].
  simpl in Heff. injection Heff as <-. unfold synced. simpl.
  split; [split|split; [done|]].
  - by eapply setItem_same_key.
  - destruct (theme p).
    + rewrite elem_of_difference, elem_of_singleton. split; [by intros [_ ?]|done].
    + rewrite elem_of_union, elem_of_singleton. split; [done|by right].
  - intros c Hc. destruct (theme p).
    + rewrite elem_of_difference, elem_of_singleton. split; [by intros [? _]|by split].
    + rewrite elem_of_union, elem_of_singleton. split; [by intros [?|?]|by left].
Qed.

Lemma step_synced (op : Op) (p p' : Provider) :
  synced p → step op p = Some p' →
  synced p' ∧ ∀ c, c ≠ "dark" → c ∈ classList p' ↔ c ∈ classList p.
Proof.
  intros Hp Hstep.
  assert (∀ t, setThemeState t p = Some p' →
            synced p' ∧ ∀ c, c ≠ "dark" → c ∈ classList p' ↔ c ∈ classList p) as Hset.
  { intros t. unfold setThemeState. destruct (decide (t = theme p)) as [_|_].
    - by intros [= <-].
    - intros Heff. by destruct (effect_synced _ _ Heff) as (? & _ & ?). }
  destruct op; simpl in Hstep; by eapply Hset.
Qed.

(** X19: as long as writing the item does not throw, the provider keeps
    the stored item and the class of the document element in step with its
    state: after mounting and any toggles and calls of [setTheme], the
    item [app-theme] is the current theme, so a reload starts with this
    theme whatever the system prefers; the class [dark] is set exactly in
    the dark theme; and no other class is touched. *)
Theorem theme_survives_reload (st : Storage) (prefers_dark later_preference : option bool)
    (classes : gset string) (ops : list Op) (p0 p : Provider) :
  mount st prefers_dark classes = Some p0 → run ops p0 = Some p →
  getItem THEME_STORAGE_KEY (localStorage p) = Some (theme_name (theme p)) ∧
  getInitialTheme (localStorage p) later_preference = theme p ∧
  ("dark" ∈ classList p ↔ theme p = dark) ∧
  (∀ c, c ≠ "dark" → c ∈ classList p ↔ c ∈ classes).
Proof.
  intros Hmount Hrun.
  enough (synced p ∧ ∀ c, c ≠ "dark" → c ∈ classList p ↔ c ∈ classes) as [[Hitem Hclass] Hrest].
  { split; [done|]. split; [|done]. unfold getInitialTheme. rewrite Hitem. by destruct (theme p). }
  destruct (effect_synced _ _ Hmount) as (Hp0 & _ & Hc0). simpl in Hc0.
  clear Hmount. revert p0 Hp0 Hc0 Hrun. induction ops as [|op ops IH]; intros p0 Hp0 Hc0 Hrun.
  - simpl in Hrun. by injection Hrun as <-.
  - simpl in Hrun. destruct (step op p0) as [p1|] eqn:Hstep; [|done]. simpl in Hrun.
    destruct (step_synced op p0 p1 Hp0 Hstep) as [Hp1 Hc1].
    apply (IH p1); [done| |done]. intros c Hc. by rewrite Hc1, Hc0.
Qed.

Lemma theme_survives_reload_witness :
  let st := {| items := {[ "app-theme" := "blue" ]}; quota := 100 |} in
  ∃ p0 p, mount st (Some true) {[ "app" ]} = Some p0 ∧
          run [ToggleTheme; SetTheme light; ToggleTheme] p0 = Some p ∧
          getInitialTheme (localStorage p) (Some false) = theme p.
Proof.
  intros st.
  destruct (mount st (Some true) {[ "app" ]}) as [p0|] eqn:Hmount; [|by vm_compute in Hmount].
  destruct (run [ToggleTheme; SetTheme light; ToggleTheme] p0) as [p|] eqn:Hrun.
  - exists p0, p. split; [done|]. split; [done|].
    by destruct (theme_survives_reload st (Some true) (Some false) {[ "app" ]}
                   [ToggleTheme; SetTheme light; ToggleTheme] p0 p Hmount Hrun) as (_ & ? & _).
  - exfalso. vm_compute in Hmount. injection Hmount as <-. by vm_compute in Hrun.
Defined.

End ThemePersistence.

(** ** Countdown and toggles *)

Section Counting.
Import JS Countdown Toggle.




(** X21: the value of [useToggle] after any calls of [toggle],
    [setTrue] and [setFalse] is decided by the last call of [setTrue] or
    [setFalse] (the initial value when there is none) and the parity of
    the number of toggles after it. *)
Theorem toggle_parity (ops : list Op) (initialValue : bool) :
  run ops initialValue
  = xorb (fst (trailing ops initialValue)) (Nat.odd (snd (trailing ops initialValue))).
Proof.
  induction ops as [|op ops IH] using rev_ind; [by destruct initialValue|].
  unfold trailing, run in *. rewrite !foldl_app. simpl.
  destruct (foldl _ (initialValue, 0%nat) ops) as [base toggles]. rewrite IH.
  destruct op; simpl; [|done..].
  rewrite Nat.odd_succ, <-Nat.negb_odd. unfold toggle. by destruct base, (Nat.odd toggles).
Qed.

End Counting.

(** ** Pagination *)

Section Pages.
Import JS Pagination.
Context {T : Type}.

Lemma slice_from_to (l : list T) (s e : Z) :
  0 <= s <= e →
  slice l (Fin s) (Fin e) = take (Z.to_nat (e - s)) (drop (Z.to_nat s) l).
Proof.
  intros Hse. unfold slice, relative_index.
  rewrite !bool_decide_eq_false_2 by lia.
  destruct (decide (Z.of_nat (length l) <= s)) as [Hout|Hin].
  - rewrite !(drop_ge l) by lia. by rewrite !take_nil.
  - rewrite (Z.min_l s) by lia.
    destruct (decide (e <= Z.of_nat (length l))) as [He|He].
    + by rewrite Z.min_l by lia.
    + rewrite Z.min_r by lia. rewrite !take_ge; [done|rewrite length_drop; lia..].
Qed.

Lemma ceil_div_pages (len d : Z) :
  0 <= len → 0 < d →
  ∃ n, ceil_div len d = Fin n ∧ 0 <= n ∧ len <= n * d ∧ (n - 1) * d < len.
Proof.
  intros Hlen Hd. unfold ceil_div. rewrite bool_decide_eq_false_2 by lia.
  exists (- (- len / d)).
  pose proof (Z.div_mod (- len) d ltac:(lia)) as Hdm.
  pose proof (Z.mod_pos_bound (- len) d Hd) as Hr.
  split; [done|]. nia.
Qed.

Lemma chunks_take (l : list T) (c m : nat) :
  concat ((fun k => take c (drop (k * c) l)) <$> seq 0 m) = take (m * c) l.
Proof.
  induction m as [|m IH]; [done|].
  rewrite seq_S, fmap_app, concat_app, IH. simpl. rewrite app_nil_r.
  rewrite take_take_drop. f_equal. lia.
Qed.

Lemma goToPage_in_range (h : Hook T) (k n : Z) :
  totalPages h = Fin n → 1 <= k <= n → currentPage (goToPage (Fin k) h) = Fin k.
Proof.
  intros Hn Hk. unfold goToPage. simpl. rewrite Hn. unfold num_min, num_max, num_lt.
  rewrite (bool_decide_eq_false_2 (n < k)) by lia. simpl.
  case_bool_decide; [done|f_equal; lia].
Qed.

Lemma page_items (h : Hook T) (k : Z) :
  0 < itemsPerPage h → 1 <= k → currentPage h = Fin k →
  currentItems h
  = take (Z.to_nat (itemsPerPage h))
      (drop (Z.to_nat (k - 1) * Z.to_nat (itemsPerPage h)) (items h)).
Proof.
  intros Hd Hk Hpage. unfold currentItems, endIndex, startIndex. rewrite Hpage. simpl.
  rewrite slice_from_to by nia. f_equal; [f_equal; lia|f_equal; nia].
Qed.

(** X22: with a positive page size, the pages [1 .. totalPages] that
    [goToPage] reaches cut the array into consecutive pieces: laid end
    to end they are the array, every page before the last has
    [itemsPerPage] items and the last one has between 1 and
    [itemsPerPage]. *)
Theorem pages_partition_items (items : list T) (itemsPerPage : Z) :
  0 < itemsPerPage →
  let h := usePaginatedData items (Some itemsPerPage) in
  let page := fun k : nat => currentItems (goToPage (Fin (Z.of_nat k)) h) in
  ∃ n : nat,
    totalPages h = Fin (Z.of_nat n) ∧
    concat (page <$> seq 1 n) = items ∧
    ∀ k, (1 <= k <= n)%nat →
      (0 < length (page k) <= Z.to_nat itemsPerPage)%nat ∧
      ((k < n)%nat → length (page k) = Z.to_nat itemsPerPage).
Proof.
  intros Hd h page.
  destruct (ceil_div_pages (Z.of_nat (length items)) itemsPerPage ltac:(lia) Hd)
    as (n & Hn & Hn0 & Hup & Hlow).
  assert (totalPages h = Fin n) as Htotal by done.
  assert (∀ k : nat, (1 <= k)%nat → Z.of_nat k <= n →
            page k = take (Z.to_nat itemsPerPage) (drop ((k - 1) * Z.to_nat itemsPerPage) items))
    as Hpage.
  { intros k Hk1 Hkn. unfold page.
    rewrite (page_items _ (Z.of_nat k)); simpl; [|done|lia|].
    - do 2 f_equal. lia.
    - apply (goToPage_in_range h _ n); [done|lia]. }
  exists (Z.to_nat n). split; [by rewrite Z2Nat.id|]. split.
  - rewrite <-(fmap_S_seq 0), <-list_fmap_compose.
    rewrite (list_fmap_ext _ (fun k => take (Z.to_nat itemsPerPage)
                                       (drop (k * Z.to_nat itemsPerPage) items)) (seq 0 (Z.to_nat n))).
    + rewrite chunks_take. apply take_ge. nia.
    + intros i k Hk. apply lookup_seq in Hk as [-> Hlt]. simpl.
      rewrite Hpage by lia. do 3 f_equal. lia.
  - intros k Hk. rewrite Hpage by lia. rewrite length_take, length_drop.
    assert (length items ≠ 0%nat) as Hne.
    { intros Hempty. rewrite Hempty in *. nia. }
    split; [nia|]. intros Hlt. nia.
Qed.

Lemma goToPage_clamps (h : Hook T) (page : jsnum) (n : Z) :
  totalPages h = Fin n → page ≠ NaN → (∀ m e, page ≠ Frac m e) →
  ∃ k, currentPage (goToPage page h) = Fin k ∧ 1 <= k <= Z.max 1 n ∧
       ∀ p, page = Fin p → k = Z.max 1 (Z.min p n).
Proof.
  intros Hn Hpage Hint. unfold goToPage. simpl. rewrite Hn.
  destruct page as [| | |p|m e]; [done|..|by destruct (Hint m e)]; simpl.
  - exists (Z.max 1 n). split; [|split; [lia|done]].
    case_bool_decide; f_equal; lia.
  - exists 1. split; [done|]. split; [lia|done].
  - exists (Z.max 1 (Z.min p n)). split; [|split; [lia|by intros ? [= <-]]].
    case_bool_decide; simpl; case_bool_decide; f_equal; lia.
Qed.

(** A page with a fraction in it, between the first and the last, is
    kept as it is. *)
Lemma goToPage_fraction (h : Hook T) (m : Z) (e : positive) (n : Z) :
  totalPages h = Fin n → 2 ^ Zpos e < m → m < n * 2 ^ Zpos e →
  currentPage (goToPage (Frac m e) h) = Frac m e.
Proof.
  intros Hn Hlow Hhigh. unfold goToPage. cbn [currentPage]. rewrite Hn.
  unfold num_min, num_max, num_lt, rational_of.
  rewrite (bool_decide_eq_false_2 (n * 2 ^ Z.pos e < m * 1)) by lia.
  by rewrite (bool_decide_eq_true_2 (1 * 2 ^ Z.pos e < m * 1)) by lia.
Qed.

Lemma pagination_run_snoc (ops : list Op) (op : Op) (h : Hook T) :
  run (ops ++ [op]) h = step (run ops h) op.
Proof. unfold run. by rewrite foldl_app. Qed.

(** What the page number satisfies in every state that is reached. *)
Lemma page_in_range_step (h : Hook T) (op : Op) (n k : Z) :
  totalPages h = Fin n → currentPage h = Fin k → a_number op →
  ∃ k', currentPage (step h op) = Fin k' ∧ 1 <= k' <= Z.max 1 n ∧
        items (step h op) = items h ∧ itemsPerPage (step h op) = itemsPerPage h.
Proof.
  intros Hn Hk Hop.
  assert (∀ page, page ≠ NaN → (∀ m e, page ≠ Frac m e) →
            ∃ k', currentPage (goToPage page h) = Fin k' ∧ 1 <= k' <= Z.max 1 n ∧
                  items (goToPage page h) = items h ∧
                  itemsPerPage (goToPage page h) = itemsPerPage h) as Hgo.
  { intros page Hpage Hint.
    destruct (goToPage_clamps h page n Hn Hpage Hint) as (k' & Hk' & Hr & _).
    by exists k'. }
  destruct op as [page| |]; simpl.
  - apply Hgo; by destruct page.
  - unfold nextPage. rewrite Hk. by apply Hgo.
  - unfold prevPage. rewrite Hk. by apply Hgo.
Qed.

(** X23: with a positive page size and calls of [goToPage] that pass
    an integer or an infinity, the page number is an integer from 1 up to
    [totalPages] (1 when the array is empty), so [currentItems] is empty
    only when the array is; [nextPage] does nothing where [hasNextPage] is
    false and [prevPage] nothing where [hasPrevPage] is false.  The page
    number is not adjusted when the array gets shorter: a page past its
    end shows no items.  The page is not rounded: a call that passes a
    number with a fraction, between 1 and [totalPages], makes that number
    the page. *)
Theorem page_stays_in_range (items : list T) (itemsPerPage : Z) (ops : list Op) :
  0 < itemsPerPage → Forall a_number ops →
  let h := run ops (usePaginatedData items (Some itemsPerPage)) in
  ∃ k n, currentPage h = Fin k ∧ totalPages h = Fin n ∧
         1 <= k <= Z.max 1 n ∧
         (currentItems h = [] ↔ items = []) ∧
         (hasNextPage h = false → nextPage h = h) ∧
         (hasPrevPage h = false → prevPage h = h) ∧
         (∀ items', Z.of_nat (length items') <= (k - 1) * itemsPerPage →
                    currentItems (rerender items' h) = []) ∧
         (∀ m e, 2 ^ Zpos e < m → m < n * 2 ^ Zpos e →
                 currentPage (goToPage (Frac m e) h) = Frac m e).
Proof.
  intros Hd Hops h.
  destruct (ceil_div_pages (Z.of_nat (length items)) itemsPerPage ltac:(lia) Hd)
    as (n & Hn & Hn0 & Hup & Hlow).
  assert (∃ k, currentPage h = Fin k ∧ 1 <= k <= Z.max 1 n ∧
               Pagination.items h = items ∧ Pagination.itemsPerPage h = itemsPerPage)
    as (k & Hk & Hr & Hitems & Hipp).
  { subst h. induction ops as [|op ops IH] using rev_ind.
    - exists 1. simpl. split; [done|]. split; [lia|done].
    - apply Forall_app in Hops as [Hops Hop]. rewrite Forall_singleton in Hop.
      destruct (IH Hops) as (k & Hk & Hr & Hitems & Hipp).
      rewrite pagination_run_snoc.
      destruct (page_in_range_step (run ops (usePaginatedData items (Some itemsPerPage)))
                  op n k) as (k' & Hk' & Hr' & Hitems' & Hipp'); [|done..|].
      + unfold totalPages. by rewrite Hitems, Hipp.
      + exists k'. split; [done|]. split; [done|]. split; congruence. }
  assert (totalPages h = Fin n) as Htotal by (unfold totalPages; by rewrite Hitems, Hipp).
  assert (currentItems h = take (Z.to_nat itemsPerPage)
                             (drop (Z.to_nat (k - 1) * Z.to_nat itemsPerPage) items)) as Hcur.
  { rewrite (page_items h k); [by rewrite Hitems, Hipp|by rewrite Hipp|lia|done]. }
  exists k, n. split; [done|]. split; [done|]. split; [done|].
  split; [|split; [|split; [|split]]].
  - rewrite Hcur. split.
    + intros Hnil. apply (f_equal length) in Hnil. rewrite length_take, length_drop in Hnil.
      simpl in Hnil. apply nil_length_inv. nia.
    + intros ->. by rewrite drop_nil, take_nil.
  - unfold hasNextPage, nextPage. rewrite Htotal, Hk. simpl. intros Hlast.
    apply bool_decide_eq_false in Hlast.
    destruct (goToPage_clamps h (Fin (k + 1)) n Htotal ltac:(done) ltac:(done))
      as (k' & Hk' & _ & Hval).
    rewrite (Hval _ eq_refl) in Hk'. destruct h as [its ipp cur]. unfold goToPage in *.
    simpl in *. f_equal. rewrite Hk', Hk. f_equal. lia.
  - unfold hasPrevPage, prevPage. rewrite Hk. simpl. intros Hfirst.
    apply bool_decide_eq_false in Hfirst.
    destruct (goToPage_clamps h (Fin (k + -1)) n Htotal ltac:(done) ltac:(done))
      as (k' & Hk' & _ & Hval).
    rewrite (Hval _ eq_refl) in Hk'. destruct h as [its ipp cur]. unfold goToPage in *.
    simpl in *. f_equal. rewrite Hk', Hk. f_equal. lia.
  - intros items' Hshort.
    rewrite (page_items (rerender items' h) k); simpl; [|by rewrite Hipp|lia|done].
    rewrite Hipp. rewrite drop_ge by nia. apply take_nil.
  - intros m e Hm1 Hm2. by apply (goToPage_fraction h m e n).
Qed.

End Pages.

Section PagesExamples.
Import JS Pagination.

Lemma pages_partition_items_witness :
  0 < 2 ∧
  ∃ n : nat,
    totalPages (usePaginatedData [10; 20; 30; 40; 50] (Some 2)) = Fin (Z.of_nat n) ∧
    concat ((fun k : nat =>
               currentItems (goToPage (Fin (Z.of_nat k))
                               (usePaginatedData [10; 20; 30; 40; 50] (Some 2))))
            <$> seq 1 n) = [10; 20; 30; 40; 50].
Proof.
  split; [lia|].
  destruct (pages_partition_items [10; 20; 30; 40; 50] 2 ltac:(lia)) as (n & Hn & Hcat & _).
  by exists n.
Defined.

Lemma page_stays_in_range_witness :
  let ops := [NextPage; GoToPage PosInfinity; NextPage; GoToPage (Fin (-4)); PrevPage] in
  let h := run ops (usePaginatedData [10; 20; 30; 40; 50] (Some 2)) in
  0 < 2 ∧ Forall a_number ops ∧ currentItems h ≠ [] ∧
  currentPage (goToPage (Frac 3 1) h) = Frac 3 1.
Proof.
  intros ops h.
  assert (Hops : Forall a_number ops) by (by repeat constructor).
  split; [lia|]. split; [exact Hops|].
  destruct (page_stays_in_range [10; 20; 30; 40; 50] 2 ops ltac:(lia) Hops)
    as (k & n & _ & Hn & _ & Hitems & _ & _ & _ & Hfraction).
  split.
  - intros Hnil. by apply Hitems in Hnil.
  - apply Hfraction; [done|]. injection Hn as <-. done.
Defined.

End PagesExamples.

(** ** The cache in localStorage *)

Section CachedData.
Import JS WebStorage LocalCache.
Import Async (Outcome, Resolved, Rejected).

Lemma leading_digit_plain (c : ascii) (d : N) :
  digit_of c = Some d → d ≠ 0%N →
  Ascii.eqb c "-" = false ∧ Ascii.eqb c "+" = false ∧ Ascii.eqb c "0" = false.
Proof.
  intros Hc Hd.
  destruct c as [[] [] [] [] [] [] [] []]; vm_compute in Hc; try discriminate Hc;
    injection Hc as <-; solve [by destruct Hd | vm_compute; repeat split].
Qed.

Lemma trim_start_digit (c : ascii) (d : N) (r : string) :
  digit_of c = Some d → trim_start (String c r) = String c r.
Proof.
  intros Hc.
  destruct c as [[] [] [] [] [] [] [] []]; vm_compute in Hc; try discriminate Hc;
    by destruct r as [|b [|b' r']].
Qed.

Lemma trim_start_minus (r : string) : trim_start (String "-" r) = String "-" r.
Proof. by destruct r as [|b [|b' r']]. Qed.

Lemma pretty_digits_lead (p : positive) :
  ∃ c r, pretty (N.pos p) = String c r ∧ trim_start (String c r) = String c r ∧
         Ascii.eqb c "-" = false ∧ Ascii.eqb c "+" = false ∧ Ascii.eqb c "0" = false ∧
         leading_digits false (String c r) = Some (N.pos p).
Proof.
  destruct (pretty_N_go_head (N.pos p) EmptyString ltac:(lia)) as (c & r & d & Hs & Hc & Hd).
  destruct (leading_digit_plain c d Hc Hd) as (Hminus & Hplus & Hzero).
  exists c, r. split; [done|]. split; [by apply (trim_start_digit c d)|].
  repeat (split; [done|]).
  unfold leading_digits. by rewrite Hc, <-Hs, parse_digits_pretty_N_go.
Qed.

(** [parseInt] reads back what [Number.prototype.toString] writes for
    an integer up to [2^53] in size, as every reading of the clock is. *)
Lemma parseInt_number_to_string (z : Z) :
  Z.abs z <= exact_limit → parseInt (number_to_string (Fin z)) = Fin z.
Proof.
  intros Hz. unfold number_to_string. rewrite bool_decide_eq_true_2 by done.
  destruct z as [|p|p]; [done|..].
  - change (pretty (Z.pos p)) with (pretty (N.pos p)).
    destruct (pretty_digits_lead p) as (c & r & -> & Hws & Hminus & Hplus & Hzero & Hlead).
    unfold parseInt. rewrite Hws. cbv beta iota zeta. rewrite Hminus, Hplus. cbn [fst snd].
    assert (match String c r with
            | String z (String x r0) =>
                if (Ascii.eqb z "0" && (Ascii.eqb x "x" || Ascii.eqb x "X"))%bool
                then leading_digits true r0
                else leading_digits false (String c r)
            | other => leading_digits false other
            end = Some (N.pos p)) as ->.
    { destruct r as [|x r']; [done|]. by rewrite Hzero. }
    by apply number_of_rational_integer.
  - change (pretty (Z.neg p)) with ("-" +:+ pretty (N.pos p)).
    destruct (pretty_digits_lead p) as (c & r & -> & Hws & Hminus & Hplus & Hzero & Hlead).
    change ("-" +:+ String c r) with (String "-" (String c r)).
    unfold parseInt. rewrite trim_start_minus.
    cbv beta iota zeta. change (Ascii.eqb "-" "-") with true. cbv beta iota zeta.
    cbn [fst snd].
    assert (match String c r with
            | String z (String x r0) =>
                if (Ascii.eqb z "0" && (Ascii.eqb x "x" || Ascii.eqb x "X"))%bool
                then leading_digits true r0
                else leading_digits false (String c r)
            | other => leading_digits false other
            end = Some (N.pos p)) as ->.
    { destruct r as [|x r']; [done|]. by rewrite Hzero. }
    by apply number_of_rational_integer.
Qed.

Lemma cache_keys_differ (h : Hook) : cacheKey h ≠ timestampKey h.
Proof.
  unfold cacheKey, timestampKey. intros Heq. apply (inj (String.append "cache_")) in Heq.
  induction (key h) as [|c s IH]; [done|]. injection Heq as Heq. by apply IH.
Qed.

Section Engine.
Variable quota_error : ErrorObj.

Lemma cache_hit_ext (now : Z) (h h' : Hook) (st : Storage) :
  key h' = key h → ttl h' = ttl h → cache_hit now h' st = cache_hit now h st.
Proof. unfold cache_hit, cacheKey, timestampKey. by intros -> ->. Qed.

Lemma cache_written (now : Z) (h : Hook) (st : Storage) (v : jsval) (text : string)
    (later : Z) :
  Z.abs later <= exact_limit →
  getItem (cacheKey h) st = Some text → stringify v = Some text → JS.parse text = Some v →
  getItem (timestampKey h) st = Some (number_to_string (Fin later)) →
  cache_hit now h st = if bool_decide (now - later < ttl h) then Some v else None.
Proof.
  intros Hlater Hc Htext Hparse Hts. unfold cache_hit. rewrite Hc, Hts.
  rewrite (stringify_truthy v text Htext), parseInt_number_to_string, Hparse by done.
  assert (truthy_string (number_to_string (Fin later)) = true) as ->; [|done].
  pose proof (number_to_string_nonempty (Fin later)).
  by destruct (number_to_string (Fin later)).
Qed.

(** X24: a value that survives JSON (its text parses as the value
    again), once fetched and written, is served from the cache while it is
    younger than [ttl]: the next [loadData] neither calls the fetcher nor
    writes, and shows the same value.  From the age [ttl] on the fetcher
    is asked again.  The time stamp, a reading of the clock and so an
    integer up to [2^53] in size, is read back by [parseInt] as the number
    it was. *)
Theorem cached_data_is_reused (now later now' later' : Z) (v : jsval) (text : string)
    (fetched' : Outcome) (h : Hook) (st : Storage) :
  let r := loadData quota_error now (Resolved v) later h st in
  Z.abs later <= exact_limit →
  cache_hit now h st = None → stringify v = Some text → JS.parse text = Some v →
  error (fst r) = None →
  data (fst r) = v ∧
  (now' - later < ttl h →
     loadData quota_error now' fetched' later' (fst r) (snd r) = r) ∧
  (ttl h <= now' - later → ∀ e,
     loadData quota_error now' (Rejected (VError e)) later' (fst r) (snd r)
     = ({| key := key h; ttl := ttl h; data := v; isLoading := false; error := Some e |},
        snd r)).
Proof.
  intros r Hlater Hmiss Htext Hparse Hok. subst r. unfold loadData in *.
  rewrite Hmiss in *. rewrite Htext in *. change (DOMString (Some text)) with text in *.
  destruct (setItem (cacheKey h) text st) as [st1|] eqn:Hset1; [|by simpl in Hok].
  destruct (setItem (timestampKey h) (number_to_string (Fin later)) st1) as [st2|] eqn:Hset2;
    [|by simpl in Hok].
  cbn [fst snd data] in *. split; [done|].
  assert (∀ h', key h' = key h → ttl h' = ttl h →
            cache_hit now' h' st2 = if bool_decide (now' - later < ttl h) then Some v else None)
    as Hhit.
  { intros h' Hk Ht. rewrite (cache_hit_ext now' h h' st2 Hk Ht).
    apply (cache_written now' h st2 v text later); [done| |done..|].
    - rewrite (setItem_other_key _ _ _ _ _ Hset2) by apply cache_keys_differ.
      by eapply setItem_same_key.
    - by eapply setItem_same_key. }
  split.
  - intros Hfresh. rewrite Hhit by done. by rewrite bool_decide_eq_true_2.
  - intros Hold e. rewrite Hhit by done. by rewrite bool_decide_eq_false_2 by lia.
Qed.

(** X25: [invalidate] removes both items, so the [loadData] it runs
    always asks the fetcher.  A fetch that fails keeps the data shown and
    writes nothing.  A fetch that succeeds while the cache item cannot
    be written ends with the fresh data and the error of [setItem]
    both set. *)
Theorem invalidate_refetches (now later : Z) (fetched : Outcome) (v : jsval) (h : Hook)
    (st : Storage) :
  cache_hit now h (removeItem (timestampKey h) (removeItem (cacheKey h) st)) = None ∧
  (∀ e, fetched = Rejected e →
     data (fst (invalidate quota_error now fetched later h st)) = data h ∧
     is_Some (error (fst (invalidate quota_error now fetched later h st))) ∧
     snd (invalidate quota_error now fetched later h st)
     = removeItem (timestampKey h) (removeItem (cacheKey h) st)) ∧
  (fetched = Resolved v →
     data (fst (invalidate quota_error now fetched later h st)) = v) ∧
  (cache_hit now h st = None →
   setItem (cacheKey h) (DOMString (stringify v)) st = None →
   loadData quota_error now (Resolved v) later h st
   = ({| key := key h; ttl := ttl h; data := v; isLoading := false;
         error := Some quota_error |}, st)).
Proof.
  assert (cache_hit now h (removeItem (timestampKey h) (removeItem (cacheKey h) st)) = None)
    as Hgone.
  { unfold cache_hit, getItem, removeItem. simpl.
    rewrite lookup_delete_ne by (intros Heq; by apply (cache_keys_differ h)).
    by rewrite lookup_delete_eq. }
  split; [done|]. unfold invalidate, loadData. rewrite Hgone. split; [|split].
  - intros e ->. simpl. split; [done|]. split; [by eexists|done].
  - intros ->.
    destruct (setItem (cacheKey h) _ _) as [st1|]; [|done].
    by destruct (setItem (timestampKey h) _ st1).
  - intros -> ->. done.
Qed.

End Engine.

End CachedData.

Section CachedDataExamples.
Import JS WebStorage LocalCache.
Import Async (Outcome, Resolved, Rejected).

Lemma cached_data_is_reused_witness :
  let quota_error := {| err_name := "QuotaExceededError"; err_message := "full" |} in
  let h := useLocalCache "user" None in
  let st := {| items := ∅; quota := 1000 |} in
  let v := VArr [VNum (Frac 3 1); VNum (Fin 2)] in
  let r := loadData quota_error 1000 (Resolved v) 1200 h st in
  stringify v = Some "[1.5,2]" ∧ 200000 - 1200 < ttl h ∧
  loadData quota_error 200000 (Rejected VNull) 200050 (fst r) (snd r) = r.
Proof.
  intros quota_error h st v r.
  assert (Htext : stringify v = Some "[1.5,2]") by (by vm_compute).
  split; [exact Htext|]. split; [by vm_compute|].
  destruct (cached_data_is_reused quota_error 1000 1200 200000 200050 v "[1.5,2]"
              (Rejected VNull) h st)
    as (_ & Hreuse & _); [by vm_compute..|].
  apply Hreuse. by vm_compute.
Defined.

Lemma invalidate_refetches_witness :
  let quota_error := {| err_name := "QuotaExceededError"; err_message := "full" |} in
  let h := useLocalCache "user" None in
  let st := {| items := {[ "cache_user" := "1"; "cache_user_ts" := "1000" ]}; quota := 1000 |} in
  data (fst (invalidate quota_error 1001 (Resolved (VNum (Fin 2))) 1002 h st)) = VNum (Fin 2).
Proof.
  intros quota_error h st.
  destruct (invalidate_refetches quota_error 1001 1002 (Resolved (VNum (Fin 2)))
              (VNum (Fin 2)) h st) as (_ & _ & Hfresh & _).
  by apply Hfresh.
Defined.

End CachedDataExamples.

(** ** A validated field, a stored filter, the demo page *)

Section StandaloneField.
Import JS SimpleFormField.
Context {T : Type}.

(** X26: [handleBlur] shows what the validator says about the current
    value, and an edit leaves that message standing until the field is
    validated again.  On a field that has not been touched [validate]
    shows nothing, also when it returns false; it returns false exactly
    when there is a validator that gives a non-empty message.  [reset]
    brings the field back to what it was when it was mounted. *)
Theorem simple_field_validation (h : Hook T) (v : T) :
  (∀ f, validator h = Some f → shown_error (handleBlur h) = f (value h)) ∧
  shown_error (setValue v (handleBlur h)) = shown_error (handleBlur h) ∧
  (isTouched h = false → shown_error (fst (validate h)) = None) ∧
  (snd (validate h) = false ↔
   ∃ f c s, validator h = Some f ∧ f (value h) = Some (String c s)) ∧
  reset h = useSimpleFormField (initialValue h) (validator h).
Proof.
  unfold handleBlur, validate, shown_error, setValue, setIsTouched. simpl.
  split; [|split; [|split; [|split]]].
  - by intros f ->.
  - by destruct (validator h).
  - intros Hu. destruct (validator h); simpl; by rewrite Hu.
  - destruct (validator h) as [f|]; simpl.
    + destruct (f (value h)) as [[|c s]|] eqn:Hf; simpl.
      * split; [done|]. by intros (g & c & s & [= <-] & Hg); rewrite Hf in Hg.
      * split; [|done]. intros _. by exists f, c, s.
      * split; [done|]. by intros (g & c & s & [= <-] & Hg); rewrite Hf in Hg.
    + split; [done|]. by intros (g & c & s & ? & _).
  - done.
Qed.

End StandaloneField.

Section StandaloneFieldExamples.
Import JS SimpleFormField.

Lemma simple_field_validation_witness :
  let required := fun s : string => if truthy_string s then None else Some "Required" in
  let h := useSimpleFormField EmptyString (Some required) in
  isTouched h = false ∧ snd (validate h) = false ∧ shown_error (fst (validate h)) = None.
Proof.
  intros required h.
  destruct (simple_field_validation h EmptyString) as (_ & _ & Hhidden & Hfalse & _).
  split; [done|]. split; [|by apply Hhidden].
  apply Hfalse. by exists required, "R"%char, "equired".
Defined.

End StandaloneFieldExamples.

Section StoredFilter.
Import JS WebStorage LocalStorage LocalFilter.
Context {T : Type}.

(** X27: [useLocalFilter] filters with whatever the stored item under
    its key parses to, of whatever type; it filters with the empty string
    when there is no item, when the item is empty and when it is not
    JSON.  A filter value that survives JSON, once written through
    [setFilterValue], is the value a new instance filters with. *)
Theorem filter_value_is_stored (items : list T) (filterKey : string)
    (filterFunction : list T → jsval → list T) (st : Storage) (v : jsval) :
  (getItem filterKey st = None →
   snd (useLocalFilter items filterKey filterFunction (Some st))
   = filterFunction items (VStr EmptyString)) ∧
  (∀ text, getItem filterKey st = Some text →
   snd (useLocalFilter items filterKey filterFunction (Some st))
   = filterFunction items
       (if truthy_string text then default (VStr EmptyString) (JS.parse text)
        else VStr EmptyString)) ∧
  (json_safe v = true →
   is_Some (setItem filterKey (DOMString (stringify v)) st) →
   let h := fst (useLocalFilter items filterKey filterFunction (Some st)) in
   snd (useLocalFilter items filterKey filterFunction (snd (setValue (Plain v) h (Some st))))
   = filterFunction items v).
Proof.
  unfold useLocalFilter. simpl. split; [|split].
  - intros Hnone. unfold initial_state. by rewrite Hnone.
  - intros text Hget. f_equal. unfold initial_state. rewrite Hget.
    destruct (truthy_string text); [|done]. by destruct (JS.parse text).
  - intros Hsafe [st' Hset].
    destruct (json_safe_parse_stringify v Hsafe) as (text & Htext & Hparse).
    unfold setValue. simpl. rewrite Hset. simpl. f_equal.
    rewrite Htext in Hset. simpl in Hset.
    change (initial_state filterKey (VStr EmptyString) (Some st'))
      with (storedValue (useLocalStorage filterKey (VStr EmptyString) (Some st'))).
    apply (written_item_is_read filterKey text st' v (VStr EmptyString)); [|done..].
    by eapply setItem_same_key.
Qed.

End StoredFilter.

Section StoredFilterExamples.
Import JS WebStorage LocalStorage LocalFilter.

Lemma filter_value_is_stored_witness :
  let keep := fun (l : list Z) (f : jsval) =>
                match f with
                | VNum (Fin z) => filter (fun x => z <= x) l
                | VNum (Frac m e) => filter (fun x => m <= x * 2 ^ Zpos e) l
                | _ => l
                end in
  let st := {| items := {[ "min" := "2.5" ]}; quota := 100 |} in
  getItem "min" st = Some "2.5" ∧
  snd (useLocalFilter [1; 5; 2; 7] "min" keep (Some st)) = [5; 7].
Proof.
  intros keep st. split; [done|].
  destruct (filter_value_is_stored [1; 5; 2; 7] "min" keep st VNull)
    as (_ & Hstored & _).
  rewrite (Hstored "2.5" eq_refl). by vm_compute.
Defined.

End StoredFilterExamples.

Section FetchButton.
Import Notification DemoPage.
Import Async (Outcome, Resolved, Rejected).

Lemma clicked_snoc (evs : list PageEvent) (ev : PageEvent) :
  clicked (evs ++ [ev])
  = (clicked evs || match ev with FetchClick _ => true | _ => false end)%bool.
Proof. unfold clicked. rewrite existsb_app. simpl. by rewrite orb_false_r. Qed.

(** X28: on the demo page the fetch button works once.  The first
    click adds the notification "Fetching data..." with the duration 0,
    for which no timer is set, and starts the fetch.  The render that
    follows runs the cleanup of the effect of [useAsync], because
    [mockFetchData] is another function at every render: the outcome of
    the fetch is dropped, [isLoading] stays set and the button stays
    disabled.  So later clicks do nothing, and the queue holds that one
    notification however much time passes. *)
Theorem fetch_button_works_once (evs : list PageEvent) :
  let pg := page_run evs initial_page in
  timers (provider pg) = [] ∧
  Forall (fun n => message n = "Fetching data..." ∧ type n = info ∧ duration n = Some 0)
    (notifications (provider pg)) ∧
  length (notifications (provider pg)) = (if clicked evs then 1 else 0)%nat ∧
  Async.isLoading (Async.state (fetch pg)) = clicked evs ∧
  (clicked evs = true →
   Async.state (fetch pg)
   = {| Async.status := Async.st_loading; Async.data := JS.VNull; Async.error := None;
        Async.isLoading := true |} ∧
   Async.isMountedRef (fetch pg) = false ∧
   ∀ host, click host pg = pg).
Proof.
  cbv zeta. induction evs as [|ev evs IH] using rev_ind; [by repeat split|].
  unfold page_run in *. rewrite foldl_app. cbn [foldl]. rewrite clicked_snoc.
  set (pg := foldl page_step initial_page evs) in *.
  destruct IH as (Htimers & Hall & Hlen & Hloading & Hclicked).
  destruct ev as [host|dt|o|]; cbn [page_step].
  - rewrite orb_true_r. unfold click. rewrite Hloading.
    destruct (clicked evs) eqn:Hc.
    + destruct (Hclicked eq_refl) as (Hstate & Hflag & Hclick).
      split; [done|]. split; [done|]. split; [done|]. split; [done|]. by intros _.
    + destruct (notifications (provider pg)) as [|n l] eqn:Hnone; [|done].
      simpl. rewrite Hnone, Htimers. simpl. split; [done|].
      split; [by apply Forall_singleton|]. split; [done|]. split; [done|]. by intros _.
  - rewrite orb_false_r. simpl. unfold elapse. rewrite Htimers. simpl.
    split; [done|]. split; [done|]. split; [done|]. split; [done|].
    intros Hc. destruct (Hclicked Hc) as (Hstate & Hflag & Hclick).
    split; [done|]. split; [done|]. intros host. unfold click. simpl.
    by rewrite Hloading, Hc.
  - rewrite orb_false_r. cbn [provider fetch].
    split; [done|]. split; [done|]. split; [done|].
    destruct (clicked evs) eqn:Hc.
    + destruct (Hclicked eq_refl) as (Hstate & Hflag & Hclick).
      rewrite (detached_settle_noop o _ Hflag). simpl. split; [done|]. intros _.
      split; [done|]. split; [done|]. intros host. unfold click. simpl.
      by rewrite Hloading.
    + split; [|done]. destruct o as [r|e]; simpl.
      * by destruct (Async.isMountedRef (fetch pg)).
      * destruct (Async.isMountedRef (fetch pg)); [|done].
        by destruct (Async.normalize e).
  - rewrite orb_false_r. cbn [rerender provider fetch].
    split; [done|]. split; [done|]. split; [done|].
    split; [done|]. intros Hc. destruct (Hclicked Hc) as (Hstate & Hflag & Hclick).
    split; [done|]. split; [done|]. intros host. unfold click. simpl.
    by rewrite Hloading, Hc.
Qed.

End FetchButton.

Section FetchButtonExamples.
Import Notification DemoPage.
Import Async (Outcome, Resolved, Rejected).

Lemma fetch_button_works_once_witness :
  let host := {| now_id := 1000; random36 := "0.4fzyo82mvyr"; now_stamp := 1000 |} in
  let later := {| now_id := 9000; random36 := "0.9k2b1xq07de"; now_stamp := 9000 |} in
  let evs := [FetchClick host; TimePasses 2000; Settles (Resolved (JS.VStr "data"));
              TimePasses 6000; FetchClick later] in
  let pg := page_run evs initial_page in
  clicked evs = true ∧
  length (notifications (provider pg)) = 1%nat ∧
  Async.status (Async.state (fetch pg)) = Async.st_loading.
Proof.
  intros host later evs pg. split; [reflexivity|].
  destruct (fetch_button_works_once evs) as (_ & _ & Hlen & _ & Hclicked).
  split; [exact Hlen|]. destruct (Hclicked eq_refl) as (Hstate & _). fold pg in Hstate.
  by rewrite Hstate.
Defined.

End FetchButtonExamples.
